(** * LogicProblemSolver: the logic engine of [script.js]

    A shallow embedding of the tokenizer, the precedence parser, the
    canonical printer, the evaluator, the truth-table checker, the
    forward-chaining engine, the proof orchestrator and the handler
    [solve], followed by the properties established about them.

    Conventions of the embedding.
    - A JavaScript string is a [string]: a sequence of code units in the
      range U+0000..U+00FF.
    - An expression object [{type, ...}] is a value of [expr]; the tags
      ['var' 'not' 'and' 'or' 'imp'] are its constructors.
    - [throw] is modelled by explicit result types: [parsed] for the
      parser, [res] for the engine.
    - A [Map] is a [gmap]; a [Set] whose iteration order matters is a
      duplicate-free list in insertion order; the plain object used as the
      assignment in [solve] is a [jsobj]: its own properties together with
      the properties it inherits from [Object.prototype]. *)

From Stdlib Require Import ZArith Ascii String List Bool Lia.
From stdpp Require Import base decidable option list strings gmap pretty.

Open Scope string_scope.
Open Scope list_scope.

(* ================================================================== *)
(** * Expressions *)

Inductive expr : Type :=
| Var (name : string)
| Not (e : expr)
| And (l r : expr)
| Or (l r : expr)
| Imp (l r : expr).

#[global] Instance expr_eq_dec : EqDecision expr.
Proof. solve_decision. Defined.

(* ================================================================== *)
(** * Tokenizer *)

(** The characters matched by [\s] (and removed by [trim]) among the code
    units below 256: TAB, LF, VT, FF, CR, SPACE and NBSP. *)
Definition isSpace (c : ascii) : bool :=
  match nat_of_ascii c with
  | 9 | 10 | 11 | 12 | 13 | 32 | 160 => true
  | _ => false
  end.

(** [s.replace(/->/g, ' -> ')]: every occurrence of the digraph, scanning
    from the left. *)
Fixpoint replaceArrow (s : string) : string :=
  match s with
  | String "-" (String ">" r) => " -> " ++ replaceArrow r
  | String c r => String c (replaceArrow r)
  | EmptyString => EmptyString
  end.

(** [s.replace(/c/g, rep)] for a one-character pattern [c]. *)
Fixpoint replaceChar (c : ascii) (rep : string) (s : string) : string :=
  match s with
  | String d r =>
      if Ascii.eqb d c then rep ++ replaceChar c rep r
      else String d (replaceChar c rep r)
  | EmptyString => EmptyString
  end.

(** [s.trim().split(/\s+/).filter(Boolean)]: the maximal runs of
    non-whitespace characters of [s], in order.  [cur] is the run being
    read. *)
Fixpoint wordsFrom (cur : string) (s : string) : list string :=
  match s with
  | String c r =>
      if isSpace c then
        match cur with
        | EmptyString => wordsFrom EmptyString r
        | _ => cur :: wordsFrom EmptyString r
        end
      else wordsFrom (cur ++ String c EmptyString) r
  | EmptyString =>
      match cur with
      | EmptyString => []
      | _ => [cur]
      end
  end.

Definition words (s : string) : list string := wordsFrom EmptyString s.

Definition tokenize (s : string) : list string :=
  let s := replaceArrow s in
  let s := replaceChar ")" " ) " (replaceChar "(" " ( " s) in
  let s := replaceChar "~" " ~ " s in
  let s := replaceChar "|" " | " (replaceChar "&" " & " s) in
  words s.

(* ================================================================== *)
(** * Parser *)

(** The three [Error]s of [parseFromString]. *)
Inductive parseError : Type :=
| UnexpectedEnd
| MissingClose
| UnexpectedToken (t : string).

Definition errorMessage (e : parseError) : string :=
  match e with
  | UnexpectedEnd => "Unexpected end of input"
  | MissingClose => "Missing closing )"
  | UnexpectedToken t => "Unexpected token: " ++ t
  end.

(** Outcome of a parsing function: a value, a thrown [Error], or the
    recursion budget of the model exhausted. *)
Inductive parsed (A : Type) : Type :=
| Ok (a : A)
| Throw (e : parseError)
| OutOfFuel.

Arguments Ok {A} a.
Arguments Throw {A} e.
Arguments OutOfFuel {A}.

#[global] Instance parsed_ret : MRet parsed := fun _ a => Ok a.

#[global] Instance parsed_bind : MBind parsed := fun _ _ k m =>
  match m with
  | Ok a => k a
  | Throw e => Throw e
  | OutOfFuel => OutOfFuel
  end.

(** The cursor [i] into [tokens] is represented by the tokens that remain;
    [peek()] is the head of that list. *)
Fixpoint parseImplication (fuel : nat) (ts : list string)
  : parsed (expr * list string) :=
  match fuel with
  | O => OutOfFuel
  | S fuel =>
      '(lhs, ts) ← parseOr fuel ts;
      match ts with
      | t :: ts' =>
          if String.eqb t "->" then
            '(rhs, ts'') ← parseImplication fuel ts';
            Ok (Imp lhs rhs, ts'')
          else Ok (lhs, ts)
      | [] => Ok (lhs, ts)
      end
  end
with parseOr (fuel : nat) (ts : list string) : parsed (expr * list string) :=
  match fuel with
  | O => OutOfFuel
  | S fuel =>
      '(node, ts) ← parseAnd fuel ts;
      parseOrLoop fuel node ts
  end
with parseOrLoop (fuel : nat) (node : expr) (ts : list string)
  : parsed (expr * list string) :=
  match fuel with
  | O => OutOfFuel
  | S fuel =>
      match ts with
      | t :: ts' =>
          if String.eqb t "|" then
            '(rhs, ts'') ← parseAnd fuel ts';
            parseOrLoop fuel (Or node rhs) ts''
          else Ok (node, ts)
      | [] => Ok (node, ts)
      end
  end
with parseAnd (fuel : nat) (ts : list string) : parsed (expr * list string) :=
  match fuel with
  | O => OutOfFuel
  | S fuel =>
      '(node, ts) ← parseNot fuel ts;
      parseAndLoop fuel node ts
  end
with parseAndLoop (fuel : nat) (node : expr) (ts : list string)
  : parsed (expr * list string) :=
  match fuel with
  | O => OutOfFuel
  | S fuel =>
      match ts with
      | t :: ts' =>
          if String.eqb t "&" then
            '(rhs, ts'') ← parseNot fuel ts';
            parseAndLoop fuel (And node rhs) ts''
          else Ok (node, ts)
      | [] => Ok (node, ts)
      end
  end
with parseNot (fuel : nat) (ts : list string) : parsed (expr * list string) :=
  match fuel with
  | O => OutOfFuel
  | S fuel =>
      match ts with
      | t :: ts' =>
          if String.eqb t "~" then
            '(e, ts'') ← parseNot fuel ts';
            Ok (Not e, ts'')
          else parsePrimary fuel ts
      | [] => parsePrimary fuel ts
      end
  end
with parsePrimary (fuel : nat) (ts : list string)
  : parsed (expr * list string) :=
  match fuel with
  | O => OutOfFuel
  | S fuel =>
      match ts with
      | t :: ts' =>
          if String.eqb t "(" then
            '(e, ts'') ← parseImplication fuel ts';
            match ts'' with
            | c :: ts''' =>
                if String.eqb c ")" then Ok (e, ts''')
                else Throw MissingClose
            | [] => Throw MissingClose
            end
          else if String.eqb t "" then Throw UnexpectedEnd (* [!t] *)
          else Ok (Var t, ts')
      | [] => Throw UnexpectedEnd
      end
  end.

(** Recursion budget that the descent never exhausts on [ts]. *)
Definition parseFuel (ts : list string) : nat := 6 * length ts + 6.

Definition parseTokens (tokens : list string) : parsed expr :=
  '(root, rest) ← parseImplication (parseFuel tokens) tokens;
  match rest with
  | t :: _ => Throw (UnexpectedToken t)
  | [] => Ok root
  end.

Definition parseFromString (str : string) : parsed expr :=
  parseTokens (tokenize str).

(* ================================================================== *)
(** * Canonical printer *)

Fixpoint exprToStr (e : expr) : string :=
  match e with
  | Var name => name
  | Not inner =>
      match inner with
      | Var _ => "~" ++ exprToStr inner
      | _ => "~(" ++ exprToStr inner ++ ")"
      end
  | And l r => "(" ++ exprToStr l ++ " & " ++ exprToStr r ++ ")"
  | Or l r => "(" ++ exprToStr l ++ " | " ++ exprToStr r ++ ")"
  | Imp l r => "(" ++ exprToStr l ++ " -> " ++ exprToStr r ++ ")"
  end.

(* ================================================================== *)
(** * Evaluator *)

(** The assignment is a plain object created by [{}]: its prototype is
    [Object.prototype].  Only its own properties are stored; they hold
    booleans. *)
Abbreviation jsobj := (gmap string bool).

(** The property names of [Object.prototype].  All but [__proto__] are
    methods; [__proto__] is an accessor whose getter returns the prototype
    of the receiver and whose setter ignores values that are neither an
    object nor [null]. *)
Definition objectPrototypeKeys : list string :=
  [ "constructor"; "hasOwnProperty"; "isPrototypeOf";
    "propertyIsEnumerable"; "toLocaleString"; "toString"; "valueOf";
    "__proto__"; "__defineGetter__"; "__defineSetter__";
    "__lookupGetter__"; "__lookupSetter__" ].

(** [o[k] = v] for a boolean [v]. *)
Definition objSet (k : string) (v : bool) (o : jsobj) : jsobj :=
  if String.eqb k "__proto__" then o else <[k := v]> o.

(** [Boolean(o[k])]: an own property gives its value, an inherited one is
    a function or an object, hence truthy, and a missing one is
    [undefined]. *)
Definition objGetTruthy (o : jsobj) (k : string) : bool :=
  match o !! k with
  | Some b => b
  | None => bool_decide (k ∈ objectPrototypeKeys)
  end.

Fixpoint evalExpr (e : expr) (assignment : jsobj) : bool :=
  match e with
  | Var name => objGetTruthy assignment name
  | Not e => negb (evalExpr e assignment)
  | And l r => evalExpr l assignment && evalExpr r assignment
  | Or l r => evalExpr l assignment || evalExpr r assignment
  | Imp l r => negb (evalExpr l assignment) || evalExpr r assignment
  end.

(* ================================================================== *)
(** * Truth-table checker (the computational part of [solve]) *)

(** ** 32-bit integer operators *)

Definition toInt32 (z : Z) : Z := ((z + 2 ^ 31) mod 2 ^ 32 - 2 ^ 31)%Z.

(** [a << b] for a non-negative integral [b]. *)
Definition shl32 (a b : Z) : Z := toInt32 (Z.shiftl (toInt32 a) (b mod 32)).

(** [a & b]. *)
Definition and32 (a b : Z) : Z := toInt32 (Z.land (toInt32 a) (toInt32 b)).

(** [Boolean(n)] for an integer [n]. *)
Definition truthyZ (n : Z) : bool := negb (n =? 0)%Z.

(** ** Variable collection *)

(** [vars.add(x)] on a [Set] kept in insertion order. *)
Definition setAdd (x : string) (vars : list string) : list string :=
  if bool_decide (x ∈ vars) then vars else vars ++ [x].

Fixpoint collectVars (e : expr) (vars : list string) : list string :=
  match e with
  | Var name => setAdd name vars
  | Not e => collectVars e vars
  | And l r | Or l r | Imp l r => collectVars r (collectVars l vars)
  end.

Definition varListOf (premiseExprs : list expr) (conclusionExpr : expr)
  : list string :=
  collectVars conclusionExpr
    (foldl (fun vars p => collectVars p vars) [] premiseExprs).

(** ** The table *)

Record row : Type := Row {
  assignment : jsobj;
  premisesTrue : bool;
  conclusionTrue : bool
}.

Record table : Type := Table {
  valid : bool;
  consistent : bool;
  truthTable : list row
}.

(** [varList.forEach((v, i) => assignment[v] = Boolean(mask & (1 << i)))],
    from index [i] on. *)
Fixpoint assignFrom (i : nat) (vars : list string) (mask : Z) (a : jsobj)
  : jsobj :=
  match vars with
  | v :: vars =>
      assignFrom (S i) vars mask
        (objSet v (truthyZ (and32 mask (shl32 1 (Z.of_nat i)))) a)
  | [] => a
  end.

Definition assignmentOf (varList : list string) (mask : Z) : jsobj :=
  assignFrom 0 varList mask ∅.

(** One iteration of the [for (mask ...)] loop. *)
Definition tableStep (premiseExprs : list expr) (conclusionExpr : expr)
    (varList : list string) (mask : Z) (t : table) : table :=
  let assignment := assignmentOf varList mask in
  let premisesTrue := forallb (fun p => evalExpr p assignment) premiseExprs in
  let conclusionTrue := evalExpr conclusionExpr assignment in
  let consistent' := if premisesTrue then true else consistent t in
  let valid' :=
    if premisesTrue then (if conclusionTrue then valid t else false)
    else valid t in
  Table valid' consistent'
    (truthTable t ++ [Row assignment premisesTrue conclusionTrue]).

(** [for (let mask = 0; mask < total; mask++)]: [n] is the number of
    iterations still to run, [mask] the current counter. *)
Fixpoint tableLoop (premiseExprs : list expr) (conclusionExpr : expr)
    (varList : list string) (n : nat) (mask : Z) (t : table) : table :=
  match n with
  | O => t
  | S n =>
      tableLoop premiseExprs conclusionExpr varList n (mask + 1)
        (tableStep premiseExprs conclusionExpr varList mask t)
  end.

Inductive verdict : Type := Inconsistent | Valid | Invalid.

Definition verdictOf (t : table) : verdict :=
  if negb (consistent t) then Inconsistent
  else if valid t then Valid
  else Invalid.

(** The loop runs while [mask < total], that is [max 0 total] times. *)
Definition solveTable (premiseExprs : list expr) (conclusionExpr : expr)
  : table :=
  let varList := varListOf premiseExprs conclusionExpr in
  let total := shl32 1 (Z.of_nat (length varList)) in
  tableLoop premiseExprs conclusionExpr varList (Z.to_nat total) 0
    (Table true false []).

Definition solveVerdict (premiseExprs : list expr) (conclusionExpr : expr)
  : verdict :=
  verdictOf (solveTable premiseExprs conclusionExpr).

(* ================================================================== *)
(** * Forward-chaining engine *)

(** A fact of the engine: a value of the [map]. *)
Record entry : Type := Entry {
  entryExpr : expr;
  reason : string;
  derivedFrom : list string;
  stepOrder : nat
}.

(** The two mutable locals of [forwardChain] that [addExpr] closes over. *)
Record store : Type := Store {
  map : gmap string entry;
  order : list string
}.

(** What can be thrown inside [forwardChain]: the object [{ found: true }]
    used as an early exit, and the [TypeError] of reading a property of
    [undefined]. *)
Inductive exn : Type := FoundSignal | TypeError.

(** Result of a computation over the [store]; a [throw] keeps the updates
    made before it. *)
Inductive res (A : Type) : Type :=
| Val (a : A) (st : store)
| Exc (e : exn) (st : store).

Arguments Val {A} a st.
Arguments Exc {A} e st.

Definition M (A : Type) : Type := store -> res A.

#[global] Instance M_ret : MRet M := fun _ a st => Val a st.

#[global] Instance M_bind : MBind M := fun _ _ k m st =>
  match m st with
  | Val a st' => k a st'
  | Exc e st' => Exc e st'
  end.

(** [map.has(s)] *)
Definition mapHas (s : string) : M bool :=
  fun st => Val (bool_decide (is_Some (map st !! s))) st.

(** [map.get(s).expr] *)
Definition mapGetExpr (s : string) : M expr :=
  fun st =>
    match map st !! s with
    | Some ent => Val (entryExpr ent) st
    | None => Exc TypeError st
    end.

Definition addExpr (goalStr : string) (e : expr) (reason : string)
    (derivedFrom : list string) : M bool :=
  fun st =>
    let s := exprToStr e in
    if bool_decide (is_Some (map st !! s)) then Val false st
    else
      let ent := Entry e reason derivedFrom (length (order st) + 1) in
      let st' := Store (<[s := ent]> (map st)) (order st ++ [s]) in
      if String.eqb s goalStr then Exc FoundSignal st' else Val true st'.

(** [if (addExpr(...)) changed = true;] *)
Definition tryAdd (goalStr : string) (e : expr) (reason : string)
    (derivedFrom : list string) (changed : bool) : M bool :=
  added ← addExpr goalStr e reason derivedFrom;
  mret (if added : bool then true else changed).

(** [for (const x of xs) body], the body updating the local [a]. *)
Fixpoint forOf {A : Type} (body : string -> A -> M A) (xs : list string)
    (a : A) : M A :=
  match xs with
  | x :: xs => a' ← body x a; forOf body xs a'
  | [] => mret a
  end.

(** [premiseExprs.forEach((ex, idx) => addExpr(ex, `Premise ${idx + 1}`))],
    from index [idx] on. *)
Fixpoint addPremises (goalStr : string) (idx : nat) (exs : list expr)
  : M unit :=
  match exs with
  | ex :: exs =>
      _ ← addExpr goalStr ex ("Premise " ++ pretty (idx + 1)) [];
      addPremises goalStr (S idx) exs
  | [] => mret tt
  end.

(** [extraAssumptions.forEach((ex) => addExpr(ex, `Assumption`))] *)
Fixpoint addAssumptions (goalStr : string) (exs : list expr) : M unit :=
  match exs with
  | ex :: exs =>
      _ ← addExpr goalStr ex "Assumption" [];
      addAssumptions goalStr exs
  | [] => mret tt
  end.

(** The bound on [safety] in the condition of the [while] loop. *)
Definition safetyBound : nat := 5000.

Section Rules.
Variable goalExpr : expr.

Let goalStr := exprToStr goalExpr.

(** Modus Ponens, Modus Tollens and Hypothetical Syllogism of [s] (the
    implication [l -> r]) with [t] (the fact [f]). *)
Definition implicationRules (s t : string) (l r f : expr) (changed : bool)
  : M bool :=
  let leftStr := exprToStr l in
  hasLeft ← mapHas leftStr;
  changed ←
    (if hasLeft : bool then
       tryAdd goalStr r
         ("Modus Ponens from " ++ s ++ " and " ++ leftStr) [s; leftStr]
         changed
     else mret changed);
  let negRightStr := exprToStr (Not r) in
  hasNegRight ← mapHas negRightStr;
  changed ←
    (if hasNegRight : bool then
       tryAdd goalStr (Not l)
         ("Modus Tollens from " ++ s ++ " and " ++ negRightStr)
         [s; negRightStr] changed
     else mret changed);
  match f with
  | Imp fl fr =>
      (* JSON.stringify(e.right) === JSON.stringify(f.left): the objects
         are built with one key order, so this is equality of trees *)
      if bool_decide (r = fl) then
        tryAdd goalStr (Imp l fr)
          ("Hypothetical Syllogism from " ++ s ++ " and " ++ t) [s; t]
          changed
      else mret changed
  | _ => mret changed
  end.

(** Disjunctive Syllogism on [s], the disjunction [l | r]. *)
Definition disjunctionRules (s : string) (l r : expr) (changed : bool)
  : M bool :=
  let notA := exprToStr (Not l) in
  let notB := exprToStr (Not r) in
  hasNotA ← mapHas notA;
  changed ←
    (if hasNotA : bool then
       tryAdd goalStr r
         ("Disjunctive Syllogism from " ++ s ++ " and " ++ notA) [s; notA]
         changed
     else mret changed);
  hasNotB ← mapHas notB;
  if hasNotB : bool then
    tryAdd goalStr l
      ("Disjunctive Syllogism from " ++ s ++ " and " ++ notB) [s; notB]
      changed
  else mret changed.

(** Conjunction Introduction from the pair of facts [e], [f]. *)
Definition conjunctionRule (e f : expr) (changed : bool) : M bool :=
  match goalExpr with
  | And goalLeft goalRight =>
      let aStr := exprToStr e in
      let bStr := exprToStr f in
      hasA ← mapHas aStr;
      hasB ← mapHas bStr;
      if negb (String.eqb aStr bStr) && hasA && hasB then
        if (String.eqb aStr (exprToStr goalLeft)
            && String.eqb bStr (exprToStr goalRight))
           || (String.eqb bStr (exprToStr goalLeft)
               && String.eqb aStr (exprToStr goalRight))
        then
          tryAdd goalStr (And e f)
            ("Conjunction Introduction from " ++ aStr ++ " and " ++ bStr)
            [aStr; bStr] changed
        else mret changed
      else mret changed
  | _ => mret changed
  end.

(** Body of the inner loop [for (const t of keys)]. *)
Definition pairRules (s : string) (e : expr) (t : string) (changed : bool)
  : M bool :=
  if String.eqb s t then mret changed
  else
    f ← mapGetExpr t;
    changed ←
      match e with
      | Imp l r => implicationRules s t l r f changed
      | _ => mret changed
      end;
    changed ←
      match e with
      | Or l r => disjunctionRules s l r changed
      | _ => mret changed
      end;
    conjunctionRule e f changed.

(** Body of the outer loop [for (const s of keys)]. *)
Definition factRules (keys : list string) (s : string) (changed : bool)
  : M bool :=
  e ← mapGetExpr s;
  changed ←
    match e with
    | And l r =>
        changed ← tryAdd goalStr l ("Simplification from " ++ s) [s] changed;
        tryAdd goalStr r ("Simplification from " ++ s) [s] changed
    | _ => mret changed
    end;
  forOf (pairRules s e) keys changed.

(** One pass: the body of the [while] loop after [changed = false;
    safety++], on the snapshot [keys = Array.from(order)].  The result is
    the value of [changed] at the end of the pass. *)
Definition pass : M bool :=
  fun st => forOf (factRules (order st)) (order st) false st.

(** [while (changed && safety < 5000) { ... }].  [fuel] bounds the
    number of iterations of the model; the result holds the values of
    [changed] and [safety] when the loop is left. *)
Fixpoint whileLoop (fuel : nat) (changed : bool) (safety : nat)
    (st : store) : option (res (bool * nat)) :=
  match fuel with
  | O => None
  | S fuel =>
      if changed && (safety <? safetyBound)%nat then
        match pass st with
        | Val changed' st' => whileLoop fuel changed' (S safety) st'
        | Exc e st' => Some (Exc e st')
        end
      else Some (Val (changed, safety) st)
  end.
End Rules.

(** The value returned by [forwardChain]. *)
Record proofRun : Type := ProofRun {
  runMap : gmap string entry;
  runOrder : list string;
  goalFound : bool
}.

(** How a call ends: it returns, it throws, or the iteration budget of the
    model is exhausted. *)
Inductive outcome (A : Type) : Type :=
| Returned (a : A)
| Thrown (e : exn)
| Diverged.

Arguments Returned {A} a.
Arguments Thrown {A} e.
Arguments Diverged {A}.

#[global] Instance outcome_ret : MRet outcome := fun _ a => Returned a.

#[global] Instance outcome_bind : MBind outcome := fun _ _ k m =>
  match m with
  | Returned a => k a
  | Thrown e => Thrown e
  | Diverged => Diverged
  end.

(** The two [forEach] calls under [// initialize]. *)
Definition initialize (goalStr : string) (premiseExprs : list expr)
    (extraAssumptions : list expr) : M unit :=
  _ ← addPremises goalStr 0 premiseExprs;
  addAssumptions goalStr extraAssumptions.

(** Whether a call ended, by a return or by a throw. *)
Definition terminated {A : Type} (o : outcome A) : bool :=
  match o with
  | Diverged => false
  | _ => true
  end.

Definition forwardChainFuel (fuel : nat) (premiseExprs : list expr)
    (goalExpr : expr) (extraAssumptions : list expr) : outcome proofRun :=
  let goalStr := exprToStr goalExpr in
  (* the initialization runs on the empty [map] and [order], before the
     [try] block is entered *)
  match initialize goalStr premiseExprs extraAssumptions (Store ∅ []) with
  | Exc e _ => Thrown e
  | Val _ st =>
      match whileLoop goalExpr fuel true 0 st with
      | None => Diverged
      | Some (Exc FoundSignal st') =>
          Returned (ProofRun (map st') (order st') true)
      | Some (Exc e _) => Thrown e
      | Some (Val _ st') =>
          Returned (ProofRun (map st') (order st')
                      (bool_decide (is_Some (map st' !! goalStr))))
      end
  end.

(** Iterations granted to the [while] loop of [forwardChain]. *)
Definition passFuel : nat := S safetyBound.

Definition forwardChain (premiseExprs : list expr) (goalExpr : expr)
    (extraAssumptions : list expr) : outcome proofRun :=
  forwardChainFuel passFuel premiseExprs goalExpr extraAssumptions.

(* ================================================================== *)
(** * Proof orchestrator *)

(** The justification printed on a line: the [reason] recorded for a fact,
    or the closing discharge of the assumption. *)
Inductive justification : Type :=
| Recorded (reason : string)
| Discharge.

(** A line [`${idx}. ${text}    - ${justification}`] of the listing. *)
Record step : Type := Step {
  stepNo : nat;
  stepText : string;
  stepWhy : justification
}.

(** The two headings used by [attemptDeductionWithProof]. *)
Inductive heading : Type := DirectDerivation | ImplicationIntro.

(** The listing built by [buildStepsHtmlFromMap], before it is wrapped in
    markup: its heading and its lines. *)
Record listing : Type := Listing {
  title : heading;
  lines : list step
}.

(** The [for (const s of order)] loop of [buildStepsHtmlFromMap]; returns
    the lines and the final value of [idx]. *)
Fixpoint buildLines (m : gmap string entry) (idx : nat) (order : list string)
  : outcome (list step * nat) :=
  match order with
  | s :: order =>
      match m !! s with
      | Some e =>
          '(ls, idx') ← buildLines m (S idx) order;
          mret (Step idx s (Recorded (reason e)) :: ls, idx')
      | None => Thrown TypeError
      end
  | [] => mret ([], idx)
  end.

Definition buildStepsHtmlFromMap (run : proofRun) (title : heading)
    (isAssumptionRun : bool) (assumptionStr derivedStr : string)
  : outcome listing :=
  '(ls, idx) ← buildLines (runMap run) 1 (runOrder run);
  mret (Listing title
          (if isAssumptionRun then
             ls ++ [Step idx (assumptionStr ++ " -> " ++ derivedStr) Discharge]
           else ls)).

(** The value returned by [attemptDeductionWithProof]. *)
Record deduction : Type := Deduction {
  derived : bool;
  html : option listing
}.

Definition attemptDeductionWithProof (premises : list expr) (goalExpr : expr)
  : outcome deduction :=
  run ← forwardChain premises goalExpr [];
  if goalFound run then
    h ← buildStepsHtmlFromMap run DirectDerivation false "" "";
    mret (Deduction true (Some h))
  else
    match goalExpr with
    | Imp A B =>
        run2 ← forwardChain premises B [A];
        if goalFound run2 then
          h ← buildStepsHtmlFromMap run2 ImplicationIntro true
                (exprToStr A) (exprToStr B);
          mret (Deduction true (Some h))
        else mret (Deduction false None)
    | _ => mret (Deduction false None)
    end.


(* ================================================================== *)
(** * The handler [solve] *)

(** The page is reduced to what the handler reads, the values of the two
    fields, and to what it leaves to be seen: an [alert], or the table, the
    verdict and what is appended below them.  The markup that is written
    into the page is not modelled. *)

(** [String.prototype.trim] removes the whitespace at both ends; the
    characters removed are those of [\s]. *)
Fixpoint trimStart (s : string) : string :=
  match s with
  | String c r => if isSpace c then trimStart r else s
  | EmptyString => EmptyString
  end.

Fixpoint trimEnd (s : string) : string :=
  match s with
  | String c r =>
      match trimEnd r with
      | EmptyString => if isSpace c then EmptyString else String c EmptyString
      | r' => String c r'
      end
  | EmptyString => EmptyString
  end.

Definition trim (s : string) : string := trimEnd (trimStart s).

(** [value.split('\n')]; [cur] is the line being read. *)
Fixpoint splitLinesFrom (cur : string) (s : string) : list string :=
  match s with
  | String c r =>
      if Ascii.eqb c "010" then cur :: splitLinesFrom EmptyString r
      else splitLinesFrom (cur ++ String c EmptyString) r
  | EmptyString => [cur]
  end.

Definition splitLines (s : string) : list string :=
  splitLinesFrom EmptyString s.

(** [premisesInput.value.split('\n').map(s => s.trim())
      .filter(s => s.length > 0)] *)
Definition premisesRawOf (value : string) : list string :=
  filter (fun s => (0 < String.length s)%nat) (trim <$> splitLines value).

(** [premisesRaw.map(parseFromString)]: the first [Error] thrown ends the
    call. *)
Fixpoint parseAll (raws : list string) : parsed (list expr) :=
  match raws with
  | raw :: raws =>
      e ← parseFromString raw;
      es ← parseAll raws;
      mret (e :: es)
  | [] => mret []
  end.

(** The text of a cell of the table: [T] or [F]. *)
Definition cell (b : bool) : string := if b then "T" else "F".

(** The cells of the line written for a row of the truth table: one under
    every variable, one under every premise and one under the
    conclusion. *)
Definition rowCells (varList premisesRaw : list string) (r : row)
  : list string :=
  ((fun v => cell (objGetTruthy (assignment r) v)) <$> varList) ++
  ((fun _ => cell (premisesTrue r)) <$> premisesRaw) ++
  [cell (conclusionTrue r)].

(** What is appended below the table: the listing of a proof, or one of
    the two messages. *)
Inductive panel : Type :=
| ProofPanel (html : option listing)
| ValidWithoutProof
| InvalidWithoutProof.

(** [if (proofAttempt.derived) { ... += proofAttempt.html } else { ... }],
    the message chosen by the flag [valid]. *)
Definition panelOf (valid : bool) (proofAttempt : deduction) : panel :=
  if derived proofAttempt then ProofPanel (html proofAttempt)
  else if valid then ValidWithoutProof
  else InvalidWithoutProof.

(** What a click on the button leaves behind: an [alert], or the page with
    the variables, the truth table, the cells of its lines, the verdict and
    the panel; the panel is missing when the proof attempt throws, which
    ends the handler.
    [ParserStuck] stands for the recursion budget of the model of the
    parser being exhausted. *)
Inductive solved : Type :=
| Alerted (message : string)
| Rendered (varList : list string) (t : table) (cells : list (list string))
    (v : verdict) (shown : outcome panel)
| ParserStuck.

(** [solve], on the values of the premises and conclusion fields. *)
Definition solve (premisesValue conclusionValue : string) : solved :=
  let premisesRaw := premisesRawOf premisesValue in
  let conclusionRaw := trim conclusionValue in
  if bool_decide (length premisesRaw = 0%nat) || String.eqb conclusionRaw ""
  then Alerted "Please provide premises and a conclusion."
  else
    match parseAll premisesRaw with
    | Throw err => Alerted ("Error parsing premises: " ++ errorMessage err)
    | OutOfFuel => ParserStuck
    | Ok premiseExprs =>
        match parseFromString conclusionRaw with
        | Throw err =>
            Alerted ("Error parsing conclusion: " ++ errorMessage err)
        | OutOfFuel => ParserStuck
        | Ok conclusionExpr =>
            let varList := varListOf premiseExprs conclusionExpr in
            let t := solveTable premiseExprs conclusionExpr in
            Rendered varList t (rowCells varList premisesRaw <$> truthTable t)
              (verdictOf t)
              (proofAttempt ←
                 attemptDeductionWithProof premiseExprs conclusionExpr;
               mret (panelOf (valid t) proofAttempt))
        end
    end.

(* ================================================================== *)
(** * Vocabulary of the properties *)

(** The definitions below are not part of [script.js]: they are the
    notions in which its properties are stated. *)

(** ** Tokens and variable names *)

(** The characters that the tokenizer isolates as tokens of their own. *)
Definition isSpecial (c : ascii) : bool :=
  match c with
  | "("%char | ")"%char | "~"%char | "&"%char | "|"%char => true
  | _ => false
  end.

(** Whether the digraph [->] occurs in [s]. *)
Fixpoint hasArrow (s : string) : bool :=
  match s with
  | String "-" (String ">" _) => true
  | String _ r => hasArrow r
  | EmptyString => false
  end.

(** A character that is neither whitespace nor special, and a string of
    such characters. *)
Definition isPlain (c : ascii) : bool := negb (isSpace c) && negb (isSpecial c).

Fixpoint allPlain (s : string) : bool :=
  match s with
  | String c r => isPlain c && allPlain r
  | EmptyString => true
  end.

(** A variable name of the data model (section 3 of the specification):
    a non-empty token that holds no whitespace, no parenthesis and no
    operator. *)
Definition isVarName (n : string) : bool :=
  negb (String.eqb n "") && allPlain n && negb (hasArrow n).

(** An expression of the data model: every variable name is one. *)
Fixpoint wellFormed (e : expr) : bool :=
  match e with
  | Var n => isVarName n
  | Not e => wellFormed e
  | And l r | Or l r | Imp l r => wellFormed l && wellFormed r
  end.

(** The tokens of the canonical rendering. *)
Fixpoint tokensOf (e : expr) : list string :=
  match e with
  | Var n => [n]
  | Not inner =>
      match inner with
      | Var _ => "~" :: tokensOf inner
      | _ => "~" :: "(" :: tokensOf inner ++ [")"]
      end
  | And l r => "(" :: tokensOf l ++ "&" :: tokensOf r ++ [")"]
  | Or l r => "(" :: tokensOf l ++ "|" :: tokensOf r ++ [")"]
  | Imp l r => "(" :: tokensOf l ++ "->" :: tokensOf r ++ [")"]
  end.

(** The four single-character passes of the tokenizer. *)
Definition pad (s : string) : string :=
  replaceChar "|" " | "
    (replaceChar "&" " & "
       (replaceChar "~" " ~ "
          (replaceChar ")" " ) " (replaceChar "(" " ( " s)))).

(** A string that does not start with [>]. *)
Definition notGt (s : string) : Prop :=
  match s with
  | String ">" _ => False
  | _ => True
  end.

(** A string that is empty or starts with whitespace. *)
Definition startsSpace (s : string) : Prop :=
  match s with
  | String c _ => isSpace c = true
  | EmptyString => True
  end.

(** What may follow a rendering inside a rendering: nothing, a space or a
    closing parenthesis. *)
Definition boundary (s : string) : Prop :=
  match s with
  | String c _ => c = " "%char \/ c = ")"%char
  | EmptyString => True
  end.

(** The run being read, as a token if it is not empty. *)
Definition flush (cur : string) : list string :=
  match cur with
  | EmptyString => []
  | _ => [cur]
  end.

(** One pass over the text: the digraph and the five special characters
    are tokens of their own, whitespace separates, and every other
    character extends the run being read. *)
Fixpoint scanFrom (cur : string) (s : string) : list string :=
  match s with
  | String "-" (String ">" r) => flush cur ++ "->" :: scanFrom "" r
  | String c r =>
      if isSpace c then flush cur ++ scanFrom "" r
      else if isSpecial c then flush cur ++ String c "" :: scanFrom "" r
      else scanFrom (cur ++ String c "") r
  | EmptyString => flush cur
  end.

(** The tokens that stand for themselves. *)
Definition symbols : list string := ["->"; "("; ")"; "~"; "&"; "|"].

(** A token is a symbol or a variable name of the data model. *)
Definition isToken (t : string) : bool :=
  isVarName t || bool_decide (t ∈ symbols).

(** Whether the last character is [-]. *)
Fixpoint endsMinus (s : string) : bool :=
  match s with
  | String c EmptyString => Ascii.eqb c "-"
  | String _ r => endsMinus r
  | EmptyString => false
  end.

(** A token that stands for a variable where an operand is required: any
    token but the two that open a negation or a parenthesis. *)
Definition isOperandToken (t : string) : bool :=
  isToken t && negb (String.eqb t "(") && negb (String.eqb t "~").

(** Every variable name of the expression is such a token. *)
Fixpoint operandNames (e : expr) : bool :=
  match e with
  | Var n => isOperandToken n
  | Not e => operandNames e
  | And l r | Or l r | Imp l r => operandNames l && operandNames r
  end.

(** ** The grammar of the parser *)

(** The grammar written above [parseImplication], as derivations over the
    token list.  A variable is any non-empty token that [parseNot] and
    [parsePrimary] do not take for [~] or for an opening parenthesis. *)
Inductive implication : list string -> expr -> Prop :=
| implication_base ts e :
    disjunction ts e -> implication ts e
| implication_arrow ts1 ts2 l r :
    disjunction ts1 l -> implication ts2 r ->
    implication (ts1 ++ "->" :: ts2) (Imp l r)
with disjunction : list string -> expr -> Prop :=
| disjunction_base ts e :
    conjunction ts e -> disjunction ts e
| disjunction_bar ts1 ts2 l r :
    disjunction ts1 l -> conjunction ts2 r ->
    disjunction (ts1 ++ "|" :: ts2) (Or l r)
with conjunction : list string -> expr -> Prop :=
| conjunction_base ts e :
    negation ts e -> conjunction ts e
| conjunction_amp ts1 ts2 l r :
    conjunction ts1 l -> negation ts2 r ->
    conjunction (ts1 ++ "&" :: ts2) (And l r)
with negation : list string -> expr -> Prop :=
| negation_tilde ts e :
    negation ts e -> negation ("~" :: ts) (Not e)
| negation_base ts e :
    primary ts e -> negation ts e
with primary : list string -> expr -> Prop :=
| primary_var t :
    t <> "(" -> t <> "~" -> t <> "" -> primary [t] (Var t)
| primary_paren ts e :
    implication ts e -> primary ("(" :: ts ++ [")"]) e.

Scheme implication_ind' := Minimality for implication Sort Prop
  with disjunction_ind' := Minimality for disjunction Sort Prop
  with conjunction_ind' := Minimality for conjunction Sort Prop
  with negation_ind' := Minimality for negation Sort Prop
  with primary_ind' := Minimality for primary Sort Prop.

Combined Scheme grammar_ind from implication_ind', disjunction_ind',
  conjunction_ind', negation_ind', primary_ind'.

(** ** Results of the parser *)

(** [r'] is [r], or [r] has run out of budget. *)
Definition refines {A : Type} (r r' : parsed A) : Prop :=
  r <> OutOfFuel -> r' = r.

(** A parsing function stops in front of a token that it cannot take as an
    operator of its own level or of a level that binds tighter. *)
Definition stopsAt (ops : list string) (ts : list string) : Prop :=
  forall t, head ts = Some t -> t ∉ ops.

(** The recursion budget was sufficient. *)
Definition hasFuel {A : Type} (r : parsed A) : Prop := r <> OutOfFuel.

(** Tokens after which an operand is required. *)
Definition openers : list string := ["~"; "&"; "|"; "->"; "("].

(** The tokens end where an operand is required. *)
Definition endsOpen (ts : list string) : Prop :=
  ts = [] \/ exists p t, ts = p ++ [t] /\ t ∈ openers.

(** Some opening parenthesis is followed by a complete implication and
    then by something else than the closing parenthesis. *)
Definition unclosed (ts : list string) : Prop :=
  exists p q e rest,
    ts = p ++ "(" :: q ++ rest /\ implication q e /\ head rest <> Some ")".

(** What the input looks like when the descent throws; an empty token,
    which the tokenizer never produces, is read as the end of the input. *)
Definition badInput (ts : list string) (err : parseError) : Prop :=
  match err with
  | UnexpectedEnd => endsOpen ts \/ "" ∈ ts
  | MissingClose => unclosed ts
  | UnexpectedToken _ => False
  end.

(** ** Reading the tokens from left to right *)

(** Where the reading of a token list stands: an operand is required, or
    an operand has just been completed; [depth] is the number of
    parentheses that are open. *)
Inductive position : Type :=
| NeedsOperand (depth : nat)
| AfterOperand (depth : nat).

Definition binaryOperators : list string := ["&"; "|"; "->"].

(** One token further.  Where an operand is required, [(] opens a
    parenthesis, [~] is a negation and any other token stands for a
    variable.  After an operand, a binary operator requires the next
    operand and [)] closes the innermost open parenthesis; no other token
    can follow an operand. *)
Definition advance (pos : position) (t : string) : option position :=
  match pos with
  | NeedsOperand depth =>
      if String.eqb t "(" then Some (NeedsOperand (S depth))
      else if String.eqb t "~" then Some (NeedsOperand depth)
      else Some (AfterOperand depth)
  | AfterOperand depth =>
      if bool_decide (t ∈ binaryOperators) then Some (NeedsOperand depth)
      else if String.eqb t ")" then
        match depth with
        | S depth' => Some (AfterOperand depth')
        | O => None
        end
      else None
  end.

(** The position reached from [pos] by the tokens [ts], if every one of
    them can be read. *)
Fixpoint readFrom (pos : position) (ts : list string) : option position :=
  match ts with
  | [] => Some pos
  | t :: ts' =>
      match advance pos t with
      | Some pos' => readFrom pos' ts'
      | None => None
      end
  end.

Definition reading (ts : list string) : option position :=
  readFrom (NeedsOperand 0) ts.

(** What becomes of a reading that cannot go on, or that ends: the end of
    the tokens where an operand is required, a token that cannot follow an
    operand inside a parenthesis or outside of all of them, the end of the
    tokens inside a parenthesis. *)
Fixpoint readingEnds (pos : position) (ts : list string) : parsed unit :=
  match ts with
  | [] =>
      match pos with
      | NeedsOperand _ => Throw UnexpectedEnd
      | AfterOperand O => Ok tt
      | AfterOperand (S _) => Throw MissingClose
      end
  | t :: ts' =>
      match advance pos t with
      | Some pos' => readingEnds pos' ts'
      | None =>
          match pos with
          | AfterOperand O => Throw (UnexpectedToken t)
          | _ => Throw MissingClose
          end
      end
  end.

(** The result of a parsing function on [ts] agrees with the reading of
    [ts] from the position [start d], whatever the depth [d]. *)
Definition follows (start : nat -> position) (ts : list string)
    (r : parsed (expr * list string)) : Prop :=
  match r with
  | Ok (_, rest) =>
      exists p, ts = p ++ rest /\
        forall d, readFrom (start d) p = Some (AfterOperand d)
  | Throw err => forall d, readingEnds (start d) ts = Throw err
  | OutOfFuel => True
  end.

(** ** Valuations and masks *)

(** The truth value of an expression under a total valuation of the
    variable names: the reference semantics of the verdicts. *)
Fixpoint holds (v : string -> bool) (e : expr) : bool :=
  match e with
  | Var name => v name
  | Not e => negb (holds v e)
  | And l r => holds v l && holds v r
  | Or l r => holds v l || holds v r
  | Imp l r => implb (holds v l) (holds v r)
  end.

(** The variable names of an expression, one per occurrence, from left to
    right. *)
Fixpoint occurrences (e : expr) : list string :=
  match e with
  | Var name => [name]
  | Not e => occurrences e
  | And l r | Or l r | Imp l r => occurrences l ++ occurrences r
  end.

(** [Boolean(mask & (1 << i))] *)
Definition bitAt (mask : Z) (i : nat) : bool :=
  truthyZ (and32 mask (shl32 1 (Z.of_nat i))).

(** The mask whose bit [j] is the value of the [j]-th variable. *)
Fixpoint maskOf (v : string -> bool) (vars : list string) : Z :=
  match vars with
  | x :: vars => (Z.b2z (v x) + 2 * maskOf v vars)%Z
  | [] => 0%Z
  end.

(** The masks visited by [n] iterations started at [mask]. *)
Fixpoint masksFrom (mask : Z) (n : nat) : list Z :=
  match n with
  | S n => mask :: masksFrom (mask + 1) n
  | O => []
  end.

(** Columns of the row of a mask. *)
Definition premisesAt (premiseExprs : list expr) (varList : list string)
    (mask : Z) : bool :=
  forallb (fun p => evalExpr p (assignmentOf varList mask)) premiseExprs.

Definition conclusionAt (conclusionExpr : expr) (varList : list string)
    (mask : Z) : bool :=
  evalExpr conclusionExpr (assignmentOf varList mask).

Definition rowAt (premiseExprs : list expr) (conclusionExpr : expr)
    (varList : list string) (mask : Z) : row :=
  Row (assignmentOf varList mask) (premisesAt premiseExprs varList mask)
      (conclusionAt conclusionExpr varList mask).

(** The masks of the loop for a variable list. *)
Definition masks (varList : list string) : list Z :=
  masksFrom 0 (Z.to_nat (shl32 1 (Z.of_nat (length varList)))).

(** The distinct elements of a list, each at the place of its first
    occurrence. *)
Fixpoint firstOccurrences (l : list string) : list string :=
  match l with
  | x :: l => x :: filter (fun y => y <> x) (firstOccurrences l)
  | [] => []
  end.

(** Thirty-one premises, each a variable of its own. *)
Definition thirtyOneVars : list expr :=
  (fun i => Var ("x" ++ pretty i)) <$> seq 0 31.

(** ** Stores of the engine *)

(** [map.has(s)], as a proposition. *)
Definition hasKey (st : store) (s : string) : Prop := is_Some (map st !! s).

(** The keys listed in [order] are exactly the keys of [map]. *)
Definition wfStore (st : store) : Prop :=
  forall s, s ∈ order st <-> hasKey st s.

(** Facts are only ever added, at the end of [order]. *)
Definition grows (st st' : store) : Prop :=
  (forall s, hasKey st s -> hasKey st' s) /\
  exists added, order st' = order st ++ added.

(** Specification of a computation run while the goal is not yet a fact and
    every key of the snapshot [keys] is in the map: it either ends normally,
    the goal still absent, or throws [FoundSignal] right after adding the
    goal as the last fact. *)
Definition okM {A : Type} (goalStr : string) (keys : list string) (m : M A)
  : Prop :=
  forall st,
    wfStore st -> (forall s, s ∈ keys -> hasKey st s) -> ~ hasKey st goalStr ->
    match m st with
    | Val _ st' => wfStore st' /\ grows st st' /\ ~ hasKey st' goalStr
    | Exc e st' =>
        e = FoundSignal /\ wfStore st' /\ grows st st' /\
        last (order st') = Some goalStr /\ hasKey st' goalStr
    end.

(** A computation that leaves the store as it is when it ends normally. *)
Definition pureM {A : Type} (m : M A) : Prop :=
  forall st, match m st with Val _ st' => st' = st | Exc _ _ => True end.

(** A computation that updates the flag [changed]: when it ends with the
    flag down, the flag was down before and no fact has been added. *)
Definition keepsM (changed : bool) (m : M bool) : Prop :=
  forall st,
    match m st with
    | Val c st' => c = false -> changed = false /\ st' = st
    | Exc _ _ => True
    end.

(** How the [while] loop is left: at a fixed point (the last pass has added
    no fact), at the safety bound, or by the throw that follows the
    addition of the goal. *)
Inductive loopExit (goalExpr : expr) (st : store) : res (bool * nat) -> Prop :=
| exit_fixed_point safety st' :
    (safety <= safetyBound)%nat -> wfStore st' -> grows st st' ->
    ~ hasKey st' (exprToStr goalExpr) ->
    pass goalExpr st' = Val false st' ->
    loopExit goalExpr st (Val (false, safety) st')
| exit_safety_bound st' :
    wfStore st' -> grows st st' -> ~ hasKey st' (exprToStr goalExpr) ->
    loopExit goalExpr st (Val (true, safetyBound) st')
| exit_goal_found st' :
    wfStore st' -> grows st st' ->
    last (order st') = Some (exprToStr goalExpr) ->
    hasKey st' (exprToStr goalExpr) ->
    loopExit goalExpr st (Exc FoundSignal st').

(** The [map] and [order] that a run returns. *)
Definition runStore (run : proofRun) : store :=
  Store (runMap run) (runOrder run).

(** The store once [addExpr] has recorded the new fact [e]. *)
Definition added (e : expr) (why : string) (from : list string) (st : store)
  : store :=
  Store (<[exprToStr e := Entry e why from (length (order st) + 1)]> (map st))
        (order st ++ [exprToStr e]).

(** The store of the engine after the premises [Q], [P] are recorded. *)
Definition storeQP : store :=
  Store (<["P" := Entry (Var "P") "Premise 2" [] 2]>
           (<["Q" := Entry (Var "Q") "Premise 1" [] 1]> ∅))
        ["Q"; "P"].

(** ** Texts and tokens *)

(** The text without its whitespace. *)
Fixpoint unspaced (s : string) : string :=
  match s with
  | String c r => if isSpace c then unspaced r else String c (unspaced r)
  | EmptyString => EmptyString
  end.

(** The tokens written one after the other. *)
Definition glue (ts : list string) : string := foldr String.append "" ts.

(** The token that a separator leaves behind: none for whitespace, itself
    for a special character. *)
Definition separatorToken (c : ascii) : list string :=
  if isSpace c then [] else [String c ""].

(** A character at which the tokenizer always cuts. *)
Definition isSeparator (c : ascii) : bool := isSpace c || isSpecial c.

(** ** Records of the engine *)

(** The fact recorded under the key [s] is [e]. *)
Definition factAt (st : store) (s : string) (e : expr) : Prop :=
  exists ent, map st !! s = Some ent /\ entryExpr ent = e.

(** Every record of [st] is a record of [st'], unchanged, and the order of
    [st'] continues that of [st]. *)
Definition extends (st st' : store) : Prop :=
  map st ⊆ map st' /\ order st `prefix_of` order st'.

(** The record [ent] kept under the key [s]: [s] is the rendering of its
    expression, its [stepOrder] is the position of [s] in [order], counted
    from 1, and it cites records that precede it. *)
Definition recordOk (Good : expr -> Prop) (st : store) (s : string) (ent : entry)
  : Prop :=
  s = exprToStr (entryExpr ent) /\
  Good (entryExpr ent) /\
  (0 < stepOrder ent)%nat /\
  order st !! (stepOrder ent - 1)%nat = Some s /\
  forall d, d ∈ derivedFrom ent ->
    exists ent', map st !! d = Some ent' /\ (stepOrder ent' < stepOrder ent)%nat.

(** The store of a run in good order: [order] lists the keys of [map]
    without repetition, and every record is as [recordOk] says, [Good]
    being what is known of every recorded expression. *)
Definition proofStore (Good : expr -> Prop) (st : store) : Prop :=
  wfStore st /\ NoDup (order st) /\
  forall s ent, map st !! s = Some ent -> recordOk Good st s ent.

(** What a property of expressions must satisfy to hold for every fact
    that the rules add: one condition per rule, the second premise of a
    rule being known by its rendering only. *)
Record ruleClosed (Good : expr -> Prop) : Prop := RuleClosed {
  closed_simp l r : Good (And l r) -> Good l /\ Good r;
  closed_mp l r l' :
    Good (Imp l r) -> Good l' -> exprToStr l' = exprToStr l -> Good r;
  closed_mt l r n :
    Good (Imp l r) -> Good n -> exprToStr n = exprToStr (Not r) -> Good (Not l);
  closed_hs l r fr : Good (Imp l r) -> Good (Imp r fr) -> Good (Imp l fr);
  closed_ds_l l r n :
    Good (Or l r) -> Good n -> exprToStr n = exprToStr (Not l) -> Good r;
  closed_ds_r l r n :
    Good (Or l r) -> Good n -> exprToStr n = exprToStr (Not r) -> Good l;
  closed_ci e f : Good e -> Good f -> Good (And e f)
}.

(** An assertion on the store that survives the addition of facts. *)
Definition stable (P : store -> Prop) : Prop :=
  forall st st', extends st st' -> P st -> P st'.

(** [hoare Good P m Q]: run in a store in good order that satisfies [P],
    [m] leaves a store in good order that extends it, and satisfies [Q] of
    the value returned when it ends normally. *)
Definition hoare (Good : expr -> Prop) {A : Type} (P : store -> Prop) (m : M A)
    (Q : A -> store -> Prop) : Prop :=
  forall st, proofStore Good st -> P st ->
    match m st with
    | Val a st' => proofStore Good st' /\ extends st st' /\ Q a st'
    | Exc _ st' => proofStore Good st' /\ extends st st'
    end.

(** A fact that is true under the valuation [v]. *)
Definition trueFact (v : string -> bool) (e : expr) : Prop :=
  operandNames e = true /\ holds v e = true.

(** No rule of the engine can add a fact to the store. *)
Definition saturated (goalExpr : expr) (st : store) : Prop :=
  (forall s l r, factAt st s (And l r) ->
     hasKey st (exprToStr l) /\ hasKey st (exprToStr r)) /\
  (forall s l r, factAt st s (Imp l r) ->
     (hasKey st (exprToStr l) -> hasKey st (exprToStr r)) /\
     (hasKey st (exprToStr (Not r)) -> hasKey st (exprToStr (Not l))) /\
     (forall t fr, factAt st t (Imp r fr) -> hasKey st (exprToStr (Imp l fr)))) /\
  (forall s l r, factAt st s (Or l r) ->
     (hasKey st (exprToStr (Not l)) -> hasKey st (exprToStr r)) /\
     (hasKey st (exprToStr (Not r)) -> hasKey st (exprToStr l))) /\
  (forall goalLeft goalRight e f,
     goalExpr = And goalLeft goalRight ->
     exprToStr e <> exprToStr f ->
     factAt st (exprToStr e) e -> factAt st (exprToStr f) f ->
     (exprToStr e = exprToStr goalLeft /\ exprToStr f = exprToStr goalRight) \/
     (exprToStr f = exprToStr goalLeft /\ exprToStr e = exprToStr goalRight) ->
     hasKey st (exprToStr (And e f))).

(** A computation that raises the flag [changed] only when it adds a
    fact. *)
Definition addsM (changed : bool) (m : M bool) : Prop :=
  forall st,
    match m st with
    | Val c st' =>
        (length (order st) <= length (order st'))%nat /\
        (c = true ->
         changed = true \/ (length (order st) < length (order st'))%nat)
    | Exc _ _ => True
    end.

(** The goal follows from the facts by one application of a rule of the
    engine. *)
Inductive oneStep (facts : list expr) : expr -> Prop :=
| step_simp_left l r : And l r ∈ facts -> oneStep facts l
| step_simp_right l r : And l r ∈ facts -> oneStep facts r
| step_modus_ponens l r : Imp l r ∈ facts -> l ∈ facts -> oneStep facts r
| step_modus_tollens l r :
    Imp l r ∈ facts -> Not r ∈ facts -> oneStep facts (Not l)
| step_syllogism l r fr :
    Imp l r ∈ facts -> Imp r fr ∈ facts -> oneStep facts (Imp l fr)
| step_disjunctive_left l r :
    Or l r ∈ facts -> Not l ∈ facts -> oneStep facts r
| step_disjunctive_right l r :
    Or l r ∈ facts -> Not r ∈ facts -> oneStep facts l
| step_conjunction e f :
    e ∈ facts -> f ∈ facts -> e <> f -> oneStep facts (And e f).

(** The rules that combine two facts. *)
Definition binaryRules : list string :=
  ["Modus Ponens"; "Modus Tollens"; "Hypothetical Syllogism";
   "Disjunctive Syllogism"; "Conjunction Introduction"].

(** A reason, and the citations that go with it. *)
Inductive justified : string -> list string -> Prop :=
| justified_premise (i : nat) : justified ("Premise " ++ pretty i) []
| justified_assumption : justified "Assumption" []
| justified_simplification s : justified ("Simplification from " ++ s) [s]
| justified_binary rule a b :
    rule ∈ binaryRules ->
    justified (rule ++ " from " ++ a ++ " and " ++ b) [a; b].

(** Every record of the store has a reason that goes with its
    citations. *)
Definition justifiedStore (st : store) : Prop :=
  forall s ent, map st !! s = Some ent ->
                justified (reason ent) (derivedFrom ent).

(** A computation that keeps a property of the store, however it ends. *)
Definition preserves (J : store -> Prop) {A : Type} (m : M A) : Prop :=
  forall st, J st ->
    match m st with
    | Val _ st' | Exc _ st' => J st'
    end.

(** ** A run of the engine *)

(** The premises [P -> Q] and [P]. *)
Definition premisesMP : list expr := [Imp (Var "P") (Var "Q"); Var "P"].

(** The run of the engine on them: the two premises, then [Q] by Modus
    Ponens. *)
Definition runMP (found : bool) : proofRun :=
  ProofRun
    (<["Q" := Entry (Var "Q") "Modus Ponens from (P -> Q) and P"
                ["(P -> Q)"; "P"] 3]>
       (<["P" := Entry (Var "P") "Premise 2" [] 2]>
          (<["(P -> Q)" := Entry (Imp (Var "P") (Var "Q")) "Premise 1" [] 1]>
             ∅)))
    ["(P -> Q)"; "P"; "Q"] found.

(** Its listing. *)
Definition listingMP : listing :=
  Listing DirectDerivation
    [Step 1 "(P -> Q)" (Recorded "Premise 1");
     Step 2 "P" (Recorded "Premise 2");
     Step 3 "Q" (Recorded "Modus Ponens from (P -> Q) and P")].

(* ================================================================== *)
(** * Properties of the evaluator *)

Section Evaluator.
Implicit Types (e l r : expr) (a : jsobj).

Lemma evalExpr_Not e a : evalExpr (Not e) a = negb (evalExpr e a).
Proof. reflexivity. Qed.

Lemma evalExpr_And l r a :
  evalExpr (And l r) a = evalExpr l a && evalExpr r a.
Proof. reflexivity. Qed.

Lemma evalExpr_Or l r a :
  evalExpr (Or l r) a = evalExpr l a || evalExpr r a.
Proof. reflexivity. Qed.

Lemma evalExpr_Imp l r a :
  evalExpr (Imp l r) a = negb (evalExpr l a) || evalExpr r a.
Proof. reflexivity. Qed.

(** The implication is false exactly when its left side is true and its
    right side is false. *)
Lemma evalExpr_Imp_false l r a :
  evalExpr (Imp l r) a = false <->
  evalExpr l a = true /\ evalExpr r a = false.
Proof.
  rewrite evalExpr_Imp.
  destruct (evalExpr l a), (evalExpr r a); simpl; intuition congruence.
Qed.

(** A variable that is an own property of the assignment has the value
    stored there. *)
Lemma evalExpr_Var_own name a b :
  a !! name = Some b -> evalExpr (Var name) a = b.
Proof. intros H. simpl. unfold objGetTruthy. by rewrite H. Qed.

(** A variable that is neither an own property nor a property of
    [Object.prototype] is false. *)
Lemma evalExpr_Var_absent name a :
  a !! name = None -> name ∉ objectPrototypeKeys ->
  evalExpr (Var name) a = false.
Proof.
  intros H Hn. simpl. unfold objGetTruthy. rewrite H.
  by apply bool_decide_eq_false.
Qed.

(** A variable that is not an own property but names a property of
    [Object.prototype] is true. *)
Lemma evalExpr_Var_inherited name a :
  a !! name = None -> name ∈ objectPrototypeKeys ->
  evalExpr (Var name) a = true.
Proof.
  intros H Hn. simpl. unfold objGetTruthy. rewrite H.
  by apply bool_decide_eq_true.
Qed.

(** Writing [__proto__] leaves the object without that own property. *)
Lemma objSet_proto b a : objSet "__proto__" b a = a.
Proof. reflexivity. Qed.

Lemma objSet_lookup k b a :
  k <> "__proto__" -> objSet k b a !! k = Some b.
Proof.
  intros Hk. unfold objSet.
  destruct (String.eqb_spec k "__proto__") as [->|_]; [done|].
  apply lookup_insert_eq.
Qed.

Lemma objSet_lookup_ne k k' b a :
  k <> k' -> objSet k b a !! k' = a !! k'.
Proof.
  intros Hk. unfold objSet.
  destruct (String.eqb k "__proto__"); [done|].
  by apply lookup_insert_ne.
Qed.
End Evaluator.

(** C2.  Evaluation of the variable [__proto__] under the assignment that
    the truth-table loop builds for the variable list [["__proto__"]] and
    mask 0: the loop stores [false] for the variable, the object keeps no
    such own property, and the evaluator answers [true]. *)
Theorem evalExpr_proto_variable :
  truthyZ (and32 0 (shl32 1 0)) = false /\
  assignmentOf ["__proto__"] 0 = ∅ /\
  evalExpr (Var "__proto__") (assignmentOf ["__proto__"] 0) = true /\
  evalExpr (Not (Var "__proto__")) (assignmentOf ["__proto__"] 0) = false.
Proof. repeat split. Qed.

(* ================================================================== *)
(** * Properties of the tokenizer *)

#[local] Arguments String.append !_ _ / : simpl nomatch.

(** ** Strings *)

Lemma append_nil_r (s : string) : (s ++ "")%string = s.
Proof. induction s as [|c s IH]; simpl; [done|by rewrite IH]. Qed.

Lemma append_assoc (s1 s2 s3 : string) :
  ((s1 ++ s2) ++ s3)%string = (s1 ++ s2 ++ s3)%string.
Proof. induction s1 as [|c s1 IH]; simpl; [done|by rewrite IH]. Qed.

Lemma replaceChar_app c rep (s1 s2 : string) :
  replaceChar c rep (s1 ++ s2) =
  (replaceChar c rep s1 ++ replaceChar c rep s2)%string.
Proof.
  induction s1 as [|d s1 IH]; simpl; [done|].
  destruct (Ascii.eqb d c); simpl; rewrite IH; [|done].
  by rewrite append_assoc.
Qed.

Lemma tokenize_unfold s : tokenize s = words (pad (replaceArrow s)).
Proof. reflexivity. Qed.

Lemma pad_app (s1 s2 : string) : pad (s1 ++ s2) = (pad s1 ++ pad s2)%string.
Proof. unfold pad. by rewrite !replaceChar_app. Qed.

Lemma pad_cons_plain c (s : string) :
  isSpecial c = false -> pad (String c s) = String c (pad s).
Proof.
  intros Hc. unfold pad. simpl.
  destruct (Ascii.eqb_spec c "(") as [->|_]; [done|]. simpl.
  destruct (Ascii.eqb_spec c ")") as [->|_]; [done|]. simpl.
  destruct (Ascii.eqb_spec c "~") as [->|_]; [done|]. simpl.
  destruct (Ascii.eqb_spec c "&") as [->|_]; [done|]. simpl.
  destruct (Ascii.eqb_spec c "|") as [->|_]; [done|]. done.
Qed.

Lemma isPlain_spec c :
  isPlain c = true -> isSpace c = false /\ isSpecial c = false.
Proof.
  unfold isPlain. rewrite andb_true_iff, !negb_true_iff. done.
Qed.

Lemma pad_plain (n s : string) :
  allPlain n = true -> pad (n ++ s) = (n ++ pad s)%string.
Proof.
  induction n as [|c n IH]; simpl; [done|].
  rewrite andb_true_iff. intros [Hc Hn].
  destruct (isPlain_spec c Hc) as [_ Hs].
  rewrite pad_cons_plain by done. by rewrite IH.
Qed.

Lemma replaceArrow_cons c (s : string) :
  c <> "-"%char -> replaceArrow (String c s) = String c (replaceArrow s).
Proof.
  intros Hc. simpl.
  destruct c as [[] [] [] [] [] [] [] []]; try done.
Qed.

Lemma replaceArrow_minus (s : string) :
  notGt s -> replaceArrow (String "-" s) = String "-" (replaceArrow s).
Proof.
  intros Hs. destruct s as [|d s]; [done|]. simpl in Hs.
  change (replaceArrow (String "-" (String d s)))
    with (match d with
          | ">"%char => (" -> " ++ replaceArrow s)%string
          | _ => String "-" (replaceArrow (String d s))
          end).
  destruct d as [[] [] [] [] [] [] [] []]; try done.
Qed.

Lemma hasArrow_cons c (s : string) :
  c <> "-"%char -> hasArrow (String c s) = hasArrow s.
Proof.
  intros Hc. simpl. destruct c as [[] [] [] [] [] [] [] []]; try done.
Qed.

Lemma hasArrow_minus (s : string) :
  hasArrow (String "-" s) = false -> notGt s /\ hasArrow s = false.
Proof.
  destruct s as [|d s]; [done|].
  change (hasArrow (String "-" (String d s)))
    with (match d with
          | ">"%char => true
          | _ => hasArrow (String d s)
          end).
  destruct d as [[] [] [] [] [] [] [] []]; done.
Qed.

Lemma notGt_app (n s : string) :
  notGt n -> notGt s -> notGt (n ++ s).
Proof. destruct n as [|c n]; simpl; [done|]. by destruct c as [[] [] [] [] [] [] [] []]. Qed.

(** A string without the digraph passes the first replacement unchanged,
    also in front of a string that does not start with [>]. *)
Lemma replaceArrow_plain (n s : string) :
  hasArrow n = false -> notGt s ->
  replaceArrow (n ++ s) = (n ++ replaceArrow s)%string.
Proof.
  intros Hn Hs. induction n as [|c n IH]; [done|].
  change (String c n ++ s)%string with (String c (n ++ s)).
  change (String c n ++ replaceArrow s)%string
    with (String c (n ++ replaceArrow s)).
  destruct (ascii_dec c "-") as [->|Hc].
  - apply hasArrow_minus in Hn as [Hg Hn].
    rewrite replaceArrow_minus by (by apply notGt_app). by rewrite IH.
  - rewrite hasArrow_cons in Hn by done.
    rewrite replaceArrow_cons by done. by rewrite IH.
Qed.

(** ** Words *)

Lemma wordsFrom_plain (n cur s : string) :
  allPlain n = true -> wordsFrom cur (n ++ s) = wordsFrom (cur ++ n) s.
Proof.
  revert cur. induction n as [|c n IH]; intros cur Hn; simpl.
  - by rewrite append_nil_r.
  - simpl in Hn. apply andb_true_iff in Hn as [Hc Hn].
    destruct (isPlain_spec c Hc) as [-> _].
    rewrite IH by done. by rewrite append_assoc.
Qed.

Lemma wordsFrom_end (cur s : string) :
  cur <> "" -> startsSpace s -> wordsFrom cur s = cur :: words s.
Proof.
  intros Hc Hs. destruct s as [|c s]; simpl.
  - by destruct cur.
  - simpl in Hs. unfold words. simpl. rewrite Hs. by destruct cur.
Qed.

Lemma words_name (n s : string) :
  n <> "" -> allPlain n = true -> startsSpace s ->
  words (n ++ s) = n :: words s.
Proof.
  intros Hne Hn Hs. unfold words at 1.
  rewrite wordsFrom_plain by done. by apply wordsFrom_end.
Qed.

(** ** Tokens of the pieces of a rendering *)

Lemma tokenize_lparen (s : string) :
  tokenize (String "(" s) = "(" :: tokenize s.
Proof. reflexivity. Qed.

Lemma tokenize_rparen (s : string) :
  tokenize (String ")" s) = ")" :: tokenize s.
Proof. reflexivity. Qed.

Lemma tokenize_tilde (s : string) :
  tokenize (String "~" s) = "~" :: tokenize s.
Proof. reflexivity. Qed.

Lemma tokenize_amp (s : string) : tokenize (" & " ++ s) = "&" :: tokenize s.
Proof. reflexivity. Qed.

Lemma tokenize_bar (s : string) : tokenize (" | " ++ s) = "|" :: tokenize s.
Proof. reflexivity. Qed.

Lemma tokenize_arrow (s : string) : tokenize (" -> " ++ s) = "->" :: tokenize s.
Proof. reflexivity. Qed.

Lemma boundary_startsSpace (s : string) :
  boundary s -> notGt s /\ startsSpace (pad (replaceArrow s)).
Proof.
  destruct s as [|c s]; [done|]. intros [->| ->]; done.
Qed.

Lemma isVarName_spec n :
  isVarName n = true -> n <> "" /\ allPlain n = true /\ hasArrow n = false.
Proof.
  unfold isVarName. rewrite !andb_true_iff, !negb_true_iff.
  intros [[Hne Hp] Ha]. by apply String.eqb_neq in Hne.
Qed.

Lemma tokenize_name (n rest : string) :
  isVarName n = true -> boundary rest ->
  tokenize (n ++ rest) = n :: tokenize rest.
Proof.
  intros Hn Hb. apply isVarName_spec in Hn as (Hne & Hp & Ha).
  apply boundary_startsSpace in Hb as [Hg Hs].
  rewrite !tokenize_unfold, replaceArrow_plain, pad_plain by done.
  by apply words_name.
Qed.

(** ** The tokenizer as a scanner *)

Lemma scanFrom_arrow cur (r : string) :
  scanFrom cur (String "-" (String ">" r)) = flush cur ++ "->" :: scanFrom "" r.
Proof. reflexivity. Qed.

Lemma scanFrom_cons cur c (r : string) :
  (c = "-"%char -> notGt r) ->
  scanFrom cur (String c r) =
  if isSpace c then flush cur ++ scanFrom "" r
  else if isSpecial c then flush cur ++ String c "" :: scanFrom "" r
  else scanFrom (cur ++ String c "") r.
Proof.
  intros Hc. destruct (ascii_dec c "-") as [->|Hne].
  - specialize (Hc eq_refl). destruct r as [|d r]; [done|].
    change (scanFrom cur (String "-" (String d r)))
      with (match d with
            | ">"%char => flush cur ++ "->" :: scanFrom "" r
            | _ => scanFrom (cur ++ "-") (String d r)
            end).
    simpl in Hc. destruct d as [[] [] [] [] [] [] [] []]; done.
  - simpl. destruct c as [[] [] [] [] [] [] [] []]; done.
Qed.

Lemma wordsFrom_space cur c (s : string) :
  isSpace c = true -> wordsFrom cur (String c s) = flush cur ++ wordsFrom "" s.
Proof. intros Hc. simpl. rewrite Hc. by destruct cur. Qed.

Lemma wordsFrom_char cur c (s : string) :
  isSpace c = false ->
  wordsFrom cur (String c s) = wordsFrom (cur ++ String c "") s.
Proof. intros Hc. simpl. by rewrite Hc. Qed.

Lemma wordsFrom_special cur c (s : string) :
  isSpace c = false ->
  wordsFrom cur (String " " (String c (String " " s))) =
  flush cur ++ String c "" :: wordsFrom "" s.
Proof.
  intros Hc. rewrite wordsFrom_space by done. simpl. by rewrite Hc.
Qed.

Lemma pad_cons_special c (s : string) :
  isSpecial c = true ->
  pad (String c s) = String " " (String c (String " " (pad s))).
Proof.
  intros Hc. unfold pad.
  destruct c as [[] [] [] [] [] [] [] []]; try discriminate Hc; reflexivity.
Qed.

Lemma isSpecial_not_space c : isSpecial c = true -> isSpace c = false.
Proof. destruct c as [[] [] [] [] [] [] [] []]; done. Qed.

Lemma string_length_ind (P : string -> Prop) :
  (forall s, (forall r, (String.length r < String.length s)%nat -> P r) -> P s) ->
  forall s, P s.
Proof.
  intros H s. remember (String.length s) as n eqn:Hn.
  revert s Hn. induction n as [n IH] using lt_wf_ind. intros s ->.
  apply H. intros r Hr. by apply (IH (String.length r)).
Qed.

(** The four replacement passes followed by the split give the tokens of
    the scanner. *)
Lemma wordsFrom_scanFrom (s : string) : forall cur,
  wordsFrom cur (pad (replaceArrow s)) = scanFrom cur s.
Proof.
  induction s as [s IH] using string_length_ind. intros cur.
  destruct s as [|c r]; [done|].
  destruct (ascii_dec c "-") as [->|Hc].
  - destruct r as [|d r']. { reflexivity. }
    destruct (ascii_dec d ">") as [->|Hd].
    + rewrite scanFrom_arrow.
      change (replaceArrow (String "-" (String ">" r')))
        with (" -> " ++ replaceArrow r')%string.
      rewrite pad_app. change (pad " -> ") with " -> ".
      change (" -> " ++ pad (replaceArrow r'))%string
        with (String " " (String "-" (String ">" (String " " (pad (replaceArrow r')))))).
      rewrite wordsFrom_space by done.
      change (wordsFrom "" (String "-" (String ">" (String " " (pad (replaceArrow r'))))))
        with ("->" :: wordsFrom "" (pad (replaceArrow r'))).
      rewrite IH; [done|simpl; lia].
    + assert (Hg : notGt (String d r')).
      { simpl. destruct d as [[] [] [] [] [] [] [] []]; done. }
      rewrite replaceArrow_minus by done.
      rewrite scanFrom_cons by done.
      rewrite pad_cons_plain by done.
      change (isSpace "-") with false. change (isSpecial "-") with false.
      cbn iota. rewrite wordsFrom_char by done. apply IH. simpl. lia.
  - rewrite replaceArrow_cons by done.
    rewrite scanFrom_cons by done.
    destruct (isSpace c) eqn:Es.
    + rewrite pad_cons_plain.
      * rewrite wordsFrom_space by done. rewrite IH; [done|simpl; lia].
      * destruct (isSpecial c) eqn:Ec; [|done].
        apply isSpecial_not_space in Ec. congruence.
    + destruct (isSpecial c) eqn:Ec.
      * rewrite pad_cons_special by done.
        rewrite wordsFrom_special by done. rewrite IH; [done|simpl; lia].
      * rewrite pad_cons_plain by done. rewrite wordsFrom_char by done.
        apply IH. simpl. lia.
Qed.

Lemma tokenize_scan (s : string) : tokenize s = scanFrom "" s.
Proof. rewrite tokenize_unfold. apply wordsFrom_scanFrom. Qed.

(** ** The tokens *)

Lemma endsMinus_snoc (cur : string) c :
  endsMinus (cur ++ String c "") = Ascii.eqb c "-".
Proof.
  induction cur as [|d cur IH]; [done|].
  change (String d cur ++ String c "")%string with (String d (cur ++ String c "")).
  destruct cur as [|e cur]; [done|]. exact IH.
Qed.

Lemma allPlain_snoc (cur : string) c :
  allPlain cur = true -> isPlain c = true ->
  allPlain (cur ++ String c "") = true.
Proof.
  intros Hcur Hc. induction cur as [|d cur IH]; simpl; [by rewrite Hc|].
  simpl in Hcur. apply andb_true_iff in Hcur as [Hd Hcur].
  by rewrite Hd, IH.
Qed.

Lemma hasArrow_snoc (cur : string) c :
  hasArrow cur = false -> (endsMinus cur = true -> c <> ">"%char) ->
  hasArrow (cur ++ String c "") = false.
Proof.
  induction cur as [|d cur IH]; intros Hcur Hc.
  - simpl. destruct c as [[] [] [] [] [] [] [] []]; done.
  - change (String d cur ++ String c "")%string
      with (String d (cur ++ String c "")).
    destruct (ascii_dec d "-") as [->|Hd].
    + apply hasArrow_minus in Hcur as [Hg Hcur].
      destruct cur as [|e cur].
      * simpl. simpl in Hc.
        destruct c as [[] [] [] [] [] [] [] []]; try done.
        by destruct Hc.
      * assert (He : e <> ">"%char).
        { intros ->. done. }
        change (String e cur ++ String c "")%string
          with (String e (cur ++ String c "")).
        transitivity (hasArrow (String e (cur ++ String c ""))).
        { clear -He. set (x := (cur ++ String c "")%string).
          destruct e as [[] [] [] [] [] [] [] []]; done. }
        apply IH; [done|]. intros H. apply Hc. exact H.
    + rewrite hasArrow_cons in * by done. apply IH; [done|].
      intros H. apply Hc. destruct cur; [done|exact H].
Qed.

Lemma flush_token cur t :
  allPlain cur = true -> hasArrow cur = false -> t ∈ flush cur ->
  isVarName t = true.
Proof.
  intros Hp Ha Ht. destruct cur as [|c cur]; simpl in Ht.
  - by apply elem_of_nil in Ht.
  - apply list_elem_of_singleton in Ht as ->.
    unfold isVarName. by rewrite Hp, Ha.
Qed.

Lemma special_symbol c : isSpecial c = true -> String c "" ∈ symbols.
Proof.
  intros Hc. unfold symbols.
  destruct c as [[] [] [] [] [] [] [] []]; try discriminate Hc;
    repeat constructor.
Qed.

(** Every token of the scanner is a symbol or a variable name. *)
Lemma scanFrom_tokens (s : string) : forall cur t,
  allPlain cur = true -> hasArrow cur = false ->
  (endsMinus cur = true -> notGt s) ->
  t ∈ scanFrom cur s -> isToken t = true.
Proof.
  induction s as [s IH] using string_length_ind. intros cur t Hp Ha Hm Ht.
  assert (Hflush : forall t, t ∈ flush cur -> isToken t = true).
  { intros t' Ht'. unfold isToken. by rewrite (flush_token cur t'). }
  assert (Hrest : forall r t,
            (String.length r < String.length s)%nat ->
            t ∈ scanFrom "" r -> isToken t = true).
  { intros r t' Hr Ht'. by apply (IH r Hr "" t'). }
  destruct s as [|c r]; [by apply Hflush|].
  assert (Hsplit : forall tok r',
            (String.length r' < String.length (String c r))%nat ->
            isToken tok = true ->
            t ∈ flush cur ++ tok :: scanFrom "" r' -> isToken t = true).
  { intros tok r' Hr' Htok Hin.
    apply elem_of_app in Hin as [Hin|Hin]; [by apply Hflush|].
    apply elem_of_cons in Hin as [->|Hin]; [done|]. by apply (Hrest r'). }
  destruct (ascii_dec c "-") as [->|Hc].
  - assert (Hplain : notGt r -> isToken t = true).
    { intros Hg. rewrite scanFrom_cons in Ht by done.
      change (isSpace "-") with false in Ht.
      change (isSpecial "-") with false in Ht. cbn iota in Ht.
      apply (IH r ltac:(simpl; lia) (cur ++ "-")%string t); try done.
      - by apply allPlain_snoc.
      - apply hasArrow_snoc; [done|]. by intros _. }
    destruct r as [|d r']; [by apply Hplain|].
    destruct (ascii_dec d ">") as [->|Hd].
    + rewrite scanFrom_arrow in Ht.
      apply (Hsplit "->" r'); [simpl; lia|done|done].
    + apply Hplain. simpl. destruct d as [[] [] [] [] [] [] [] []]; done.
  - rewrite scanFrom_cons in Ht by done.
    destruct (isSpace c) eqn:Es.
    { apply elem_of_app in Ht as [Ht|Ht]; [by apply Hflush|].
      apply (Hrest r); [simpl; lia|done]. }
    destruct (isSpecial c) eqn:Ec.
    { apply (Hsplit (String c "") r); [simpl; lia| |done].
      unfold isToken. rewrite (bool_decide_eq_true_2 _ (special_symbol c Ec)).
      apply orb_true_r. }
    apply (IH r ltac:(simpl; lia) (cur ++ String c "")%string t); try done.
    + apply allPlain_snoc; [done|]. unfold isPlain. by rewrite Es, Ec.
    + apply hasArrow_snoc; [done|]. intros He ->. by apply Hm in He.
    + rewrite endsMinus_snoc. intros He. apply Ascii.eqb_eq in He. done.
Qed.

(** Every token of the tokenizer is a symbol or a variable name of the
    data model, and the variable names are the tokens that are no
    symbol. *)
Lemma tokenize_tokens (s : string) t : t ∈ tokenize s -> isToken t = true.
Proof.
  rewrite tokenize_scan. by apply scanFrom_tokens.
Qed.

Lemma tokenize_nonempty (s : string) : "" ∉ tokenize s.
Proof. intros H. by apply tokenize_tokens in H. Qed.

(** A variable name of the data model is a token of its own. *)
Lemma isVarName_tokenize n : isVarName n = true -> tokenize n = [n].
Proof.
  intros Hn. pose proof (tokenize_name n "" Hn I) as H.
  by rewrite append_nil_r in H.
Qed.

(** The tokens are the texts that the tokenizer leaves in one piece. *)
Lemma isToken_tokenize t : isToken t = true <-> tokenize t = [t].
Proof.
  split.
  - unfold isToken. rewrite orb_true_iff, bool_decide_eq_true.
    intros [Hv|Hs]; [by apply isVarName_tokenize|].
    unfold symbols in Hs. rewrite !elem_of_cons, elem_of_nil in Hs.
    destruct Hs as [->|[->|[->|[->|[->|[->|[]]]]]]]; reflexivity.
  - intros Ht. apply (tokenize_tokens t). rewrite Ht. by left.
Qed.

(* ================================================================== *)
(** * Properties of the parser *)

(** ** Recursion budget *)

Lemma refines_refl {A} (r : parsed A) : refines r r.
Proof. by intros _. Qed.

Lemma refines_bind {A B} (m m' : parsed A) (k k' : A -> parsed B) :
  refines m m' -> (forall a, refines (k a) (k' a)) ->
  refines (m ≫= k) (m' ≫= k').
Proof.
  intros Hm Hk. unfold refines, mbind, parsed_bind in *.
  destruct m as [a| |]; intros H; try done.
  - rewrite Hm by done. by apply Hk.
  - by rewrite Hm.
Qed.

#[local] Hint Resolve refines_refl : core.

Ltac refines_step :=
  match goal with
  | |- refines (mbind _ _) (mbind _ _) => apply refines_bind; [|intros [? ?]]
  | |- refines (match ?ts with [] => _ | _ :: _ => _ end) _ => destruct ts
  | |- refines (if ?b then _ else _) _ => destruct b
  | |- refines ?r ?r => apply refines_refl
  end.

(** A larger budget gives the same result, once there is one. *)
Lemma parse_fuel_mono fuel :
  forall fuel', (fuel <= fuel')%nat ->
    (forall ts, refines (parseImplication fuel ts) (parseImplication fuel' ts)) /\
    (forall ts, refines (parseOr fuel ts) (parseOr fuel' ts)) /\
    (forall node ts,
        refines (parseOrLoop fuel node ts) (parseOrLoop fuel' node ts)) /\
    (forall ts, refines (parseAnd fuel ts) (parseAnd fuel' ts)) /\
    (forall node ts,
        refines (parseAndLoop fuel node ts) (parseAndLoop fuel' node ts)) /\
    (forall ts, refines (parseNot fuel ts) (parseNot fuel' ts)) /\
    (forall ts, refines (parsePrimary fuel ts) (parsePrimary fuel' ts)).
Proof.
  induction fuel as [|fuel IH]; intros fuel' Hle.
  - repeat split; intros; by intros ?.
  - destruct fuel' as [|fuel']; [lia|].
    destruct (IH fuel' ltac:(lia)) as (Hi & Ho & Hol & Ha & Hal & Hn & Hp).
    repeat split; intros; cbn [parseImplication parseOr parseOrLoop parseAnd
      parseAndLoop parseNot parsePrimary]; repeat (auto; refines_step).
Qed.

(** ** Soundness: what is parsed is derived by the grammar *)

Ltac parse_unfold H :=
  cbn [parseImplication parseOr parseOrLoop parseAnd parseAndLoop parseNot
         parsePrimary] in H;
  unfold mbind, parsed_bind in H.

Ltac parse_sub H E :=
  match type of H with
  | context [match ?m with Ok _ => _ | Throw _ => _ | OutOfFuel => _ end] =>
      destruct m as [[? ?]| |] eqn:E; try discriminate H
  end.

Lemma parse_sound fuel :
  (forall ts e rest, parseImplication fuel ts = Ok (e, rest) ->
     exists p, ts = p ++ rest /\ implication p e) /\
  (forall ts e rest, parseOr fuel ts = Ok (e, rest) ->
     exists p, ts = p ++ rest /\ disjunction p e) /\
  (forall node ts e rest, parseOrLoop fuel node ts = Ok (e, rest) ->
     forall p0, disjunction p0 node ->
     exists p, ts = p ++ rest /\ disjunction (p0 ++ p) e) /\
  (forall ts e rest, parseAnd fuel ts = Ok (e, rest) ->
     exists p, ts = p ++ rest /\ conjunction p e) /\
  (forall node ts e rest, parseAndLoop fuel node ts = Ok (e, rest) ->
     forall p0, conjunction p0 node ->
     exists p, ts = p ++ rest /\ conjunction (p0 ++ p) e) /\
  (forall ts e rest, parseNot fuel ts = Ok (e, rest) ->
     exists p, ts = p ++ rest /\ negation p e) /\
  (forall ts e rest, parsePrimary fuel ts = Ok (e, rest) ->
     head ts <> Some "~" ->
     exists p, ts = p ++ rest /\ primary p e).
Proof.
  induction fuel as [|fuel (Hi & Ho & Hol & Ha & Hal & Hn & Hp)].
  { repeat split; intros; discriminate. }
  repeat split.
  - (* parseImplication *)
    intros ts e rest H. parse_unfold H. parse_sub H E.
    destruct (Ho _ _ _ E) as (p1 & -> & Hd).
    destruct l as [|t ts'].
    { inversion H; subst. exists p1. split; [done|by constructor]. }
    destruct (String.eqb_spec t "->") as [->|Hne].
    + parse_sub H E2. inversion H; subst.
      destruct (Hi _ _ _ E2) as (p2 & -> & Hd2).
      exists (p1 ++ "->" :: p2). split.
      * by rewrite <- app_assoc.
      * by constructor.
    + inversion H; subst. exists p1. split; [done|by constructor].
  - (* parseOr *)
    intros ts e rest H. parse_unfold H. parse_sub H E.
    destruct (Ha _ _ _ E) as (p1 & -> & Hd).
    destruct (Hol _ _ _ _ H p1) as (p & -> & Hd'); [by constructor|].
    exists (p1 ++ p). by rewrite <- app_assoc.
  - (* parseOrLoop *)
    intros node ts e rest H p0 Hp0. parse_unfold H.
    destruct ts as [|t ts'].
    { inversion H; subst. exists []. split; [done|by rewrite app_nil_r]. }
    destruct (String.eqb_spec t "|") as [->|Hne].
    + parse_sub H E.
      destruct (Ha _ _ _ E) as (p1 & -> & Hd).
      destruct (Hol _ _ _ _ H (p0 ++ "|" :: p1)) as (p & -> & Hd');
        [by constructor|].
      exists ("|" :: p1 ++ p). split; [simpl; by rewrite app_assoc|].
      by rewrite <- app_assoc in Hd'.
    + inversion H; subst. exists []. split; [done|by rewrite app_nil_r].
  - (* parseAnd *)
    intros ts e rest H. parse_unfold H. parse_sub H E.
    destruct (Hn _ _ _ E) as (p1 & -> & Hd).
    destruct (Hal _ _ _ _ H p1) as (p & -> & Hd'); [by constructor|].
    exists (p1 ++ p). by rewrite <- app_assoc.
  - (* parseAndLoop *)
    intros node ts e rest H p0 Hp0. parse_unfold H.
    destruct ts as [|t ts'].
    { inversion H; subst. exists []. split; [done|by rewrite app_nil_r]. }
    destruct (String.eqb_spec t "&") as [->|Hne].
    + parse_sub H E.
      destruct (Hn _ _ _ E) as (p1 & -> & Hd).
      destruct (Hal _ _ _ _ H (p0 ++ "&" :: p1)) as (p & -> & Hd');
        [by constructor|].
      exists ("&" :: p1 ++ p). split; [simpl; by rewrite app_assoc|].
      by rewrite <- app_assoc in Hd'.
    + inversion H; subst. exists []. split; [done|by rewrite app_nil_r].
  - (* parseNot *)
    intros ts e rest H. parse_unfold H.
    destruct ts as [|t ts'].
    { destruct (Hp _ _ _ H) as (p & Hp1 & Hp2); [done|]. exists p.
      split; [done|]. by constructor. }
    destruct (String.eqb_spec t "~") as [->|Hne].
    + parse_sub H E. inversion H; subst.
      destruct (Hn _ _ _ E) as (p1 & -> & Hd).
      exists ("~" :: p1). split; [done|by constructor].
    + destruct (Hp _ _ _ H) as (p & Hp1 & Hp2); [simpl; congruence|].
      exists p. split; [done|]. by constructor.
  - (* parsePrimary *)
    intros ts e rest H Hhd. parse_unfold H.
    destruct ts as [|t ts']; [discriminate|].
    destruct (String.eqb_spec t "(") as [->|Hne].
    + parse_sub H E.
      destruct (Hi _ _ _ E) as (p1 & -> & Hd).
      destruct l as [|c ts'']; [discriminate|].
      destruct (String.eqb_spec c ")") as [->|Hne]; [|discriminate].
      inversion H; subst.
      exists ("(" :: p1 ++ [")"]). split.
      * simpl. by rewrite <- app_assoc.
      * by constructor.
    + destruct (String.eqb_spec t "") as [->|Hne']; [discriminate|].
      inversion H; subst. exists [t]. split; [done|].
      constructor; [done| |done]. simpl in Hhd. congruence.
Qed.

(** Every derivation spans at least one token. *)
Lemma grammar_nonempty :
  (forall ts e, implication ts e -> ts <> []) /\
  (forall ts e, disjunction ts e -> ts <> []) /\
  (forall ts e, conjunction ts e -> ts <> []) /\
  (forall ts e, negation ts e -> ts <> []) /\
  (forall ts e, primary ts e -> ts <> []).
Proof.
  apply grammar_ind; intros; try done;
    match goal with
    | |- ?a ++ _ :: _ <> [] => by destruct a
    end.
Qed.

Lemma stopsAt_nil ops : stopsAt ops [].
Proof. intros t H. discriminate. Qed.

Lemma stopsAt_cons ops t ts : t ∉ ops -> stopsAt ops (t :: ts).
Proof. intros H t' [= <-]. done. Qed.

#[local] Hint Resolve stopsAt_nil : core.

Ltac solve_notin :=
  rewrite ?not_elem_of_cons in *;
  repeat split; try done; try tauto; try apply not_elem_of_nil.

Lemma parse_stops fuel :
  (forall ts e rest, parseImplication fuel ts = Ok (e, rest) ->
     stopsAt ["&"; "|"; "->"] rest) /\
  (forall ts e rest, parseOr fuel ts = Ok (e, rest) ->
     stopsAt ["&"; "|"] rest) /\
  (forall node ts e rest, parseOrLoop fuel node ts = Ok (e, rest) ->
     stopsAt ["&"] ts -> stopsAt ["&"; "|"] rest) /\
  (forall ts e rest, parseAnd fuel ts = Ok (e, rest) -> stopsAt ["&"] rest) /\
  (forall node ts e rest, parseAndLoop fuel node ts = Ok (e, rest) ->
     stopsAt ["&"] rest).
Proof.
  induction fuel as [|fuel (Hi & Ho & Hol & Ha & Hal)].
  { repeat split; intros; discriminate. }
  repeat split.
  - intros ts e rest H. parse_unfold H. parse_sub H E.
    pose proof (Ho _ _ _ E) as Hs.
    destruct l as [|t ts']. { by inversion H. }
    destruct (String.eqb_spec t "->") as [->|Hne].
    + parse_sub H E2. inversion H; subst. eauto.
    + inversion H; subst. apply stopsAt_cons.
      specialize (Hs t eq_refl). solve_notin.
  - intros ts e rest H. parse_unfold H. parse_sub H E. eauto.
  - intros node ts e rest H Hs. parse_unfold H.
    destruct ts as [|t ts']. { by inversion H. }
    destruct (String.eqb_spec t "|") as [->|Hne].
    + parse_sub H E. eauto.
    + inversion H; subst. apply stopsAt_cons.
      specialize (Hs t eq_refl). solve_notin.
  - intros ts e rest H. parse_unfold H. parse_sub H E. eauto.
  - intros node ts e rest H. parse_unfold H.
    destruct ts as [|t ts']. { by inversion H. }
    destruct (String.eqb_spec t "&") as [->|Hne].
    + parse_sub H E. eauto.
    + inversion H; subst. apply stopsAt_cons. solve_notin.
Qed.

(** Tokens left over are fewer than the tokens given. *)
Lemma parse_consumes fuel :
  (forall ts e rest, parseImplication fuel ts = Ok (e, rest) ->
     (length rest < length ts)%nat) /\
  (forall ts e rest, parseOr fuel ts = Ok (e, rest) ->
     (length rest < length ts)%nat) /\
  (forall node ts e rest, parseOrLoop fuel node ts = Ok (e, rest) ->
     (length rest <= length ts)%nat) /\
  (forall ts e rest, parseAnd fuel ts = Ok (e, rest) ->
     (length rest < length ts)%nat) /\
  (forall node ts e rest, parseAndLoop fuel node ts = Ok (e, rest) ->
     (length rest <= length ts)%nat) /\
  (forall ts e rest, parseNot fuel ts = Ok (e, rest) ->
     (length rest < length ts)%nat) /\
  (forall ts e rest, parsePrimary fuel ts = Ok (e, rest) ->
     (length rest < length ts)%nat).
Proof.
  induction fuel as [|fuel (Hi & Ho & Hol & Ha & Hal & Hn & Hp)].
  { repeat split; intros; discriminate. }
  repeat split.
  - intros ts e rest H. parse_unfold H. parse_sub H E.
    apply Ho in E. destruct l as [|t ts']. { by inversion H; subst. }
    destruct (String.eqb t "->").
    + parse_sub H E2. inversion H; subst. apply Hi in E2. simpl in *. lia.
    + by inversion H; subst.
  - intros ts e rest H. parse_unfold H. parse_sub H E.
    apply Ha in E. apply Hol in H. lia.
  - intros node ts e rest H. parse_unfold H.
    destruct ts as [|t ts']. { by inversion H. }
    destruct (String.eqb t "|").
    + parse_sub H E. apply Ha in E. apply Hol in H. simpl. lia.
    + by inversion H.
  - intros ts e rest H. parse_unfold H. parse_sub H E.
    apply Hn in E. apply Hal in H. lia.
  - intros node ts e rest H. parse_unfold H.
    destruct ts as [|t ts']. { by inversion H. }
    destruct (String.eqb t "&").
    + parse_sub H E. apply Hn in E. apply Hal in H. simpl. lia.
    + by inversion H.
  - intros ts e rest H. parse_unfold H.
    destruct ts as [|t ts']. { by apply Hp in H. }
    destruct (String.eqb t "~").
    + parse_sub H E. inversion H; subst. apply Hn in E. simpl. lia.
    + by apply Hp in H.
  - intros ts e rest H. parse_unfold H.
    destruct ts as [|t ts']; [discriminate|].
    destruct (String.eqb t "(").
    + parse_sub H E. apply Hi in E. destruct l as [|c l]; [discriminate|].
      destruct (String.eqb c ")"); [|discriminate].
      inversion H; subst. simpl in *. lia.
    + destruct (String.eqb t ""); [discriminate|].
      inversion H; subst. simpl. lia.
Qed.

Lemma hasFuel_bind {A B} (m : parsed A) (k : A -> parsed B) :
  hasFuel m -> (forall a, m = Ok a -> hasFuel (k a)) -> hasFuel (m ≫= k).
Proof.
  unfold hasFuel, mbind, parsed_bind. intros Hm Hk.
  destruct m; [by apply Hk|done|done].
Qed.

(** The budget [parseFuel] is never exhausted: a call on [ts] needs at most
    six levels of recursion per token. *)
Lemma parse_enough fuel :
  (forall ts, (6 * length ts + 5 <= fuel)%nat ->
     hasFuel (parseImplication fuel ts)) /\
  (forall ts, (6 * length ts + 4 <= fuel)%nat -> hasFuel (parseOr fuel ts)) /\
  (forall node ts, (6 * length ts + 1 <= fuel)%nat ->
     hasFuel (parseOrLoop fuel node ts)) /\
  (forall ts, (6 * length ts + 3 <= fuel)%nat -> hasFuel (parseAnd fuel ts)) /\
  (forall node ts, (6 * length ts + 1 <= fuel)%nat ->
     hasFuel (parseAndLoop fuel node ts)) /\
  (forall ts, (6 * length ts + 2 <= fuel)%nat -> hasFuel (parseNot fuel ts)) /\
  (forall ts, (6 * length ts + 1 <= fuel)%nat ->
     hasFuel (parsePrimary fuel ts)).
Proof.
  induction fuel as [|fuel (Hi & Ho & Hol & Ha & Hal & Hn & Hp)].
  { repeat split; intros; lia. }
  destruct (parse_consumes fuel) as (Li & Lo & Lol & La & Lal & Ln & Lp).
  repeat split.
  - intros ts Hf. cbn [parseImplication]. apply hasFuel_bind.
    + apply Ho. lia.
    + intros [lhs ts1] E. apply Lo in E. destruct ts1 as [|t ts']; [done|].
      destruct (String.eqb t "->"); [|done].
      apply hasFuel_bind; [apply Hi; simpl in *; lia|]. by intros [? ?] _.
  - intros ts Hf. cbn [parseOr]. apply hasFuel_bind.
    + apply Ha. lia.
    + intros [node ts1] E. apply La in E. apply Hol. lia.
  - intros node ts Hf. cbn [parseOrLoop]. destruct ts as [|t ts']; [done|].
    destruct (String.eqb t "|"); [|done]. apply hasFuel_bind.
    + apply Ha. simpl in *. lia.
    + intros [rhs ts1] E. apply La in E. apply Hol. simpl in *. lia.
  - intros ts Hf. cbn [parseAnd]. apply hasFuel_bind.
    + apply Hn. lia.
    + intros [node ts1] E. apply Ln in E. apply Hal. lia.
  - intros node ts Hf. cbn [parseAndLoop]. destruct ts as [|t ts']; [done|].
    destruct (String.eqb t "&"); [|done]. apply hasFuel_bind.
    + apply Hn. simpl in *. lia.
    + intros [rhs ts1] E. apply Ln in E. apply Hal. simpl in *. lia.
  - intros ts Hf. cbn [parseNot]. destruct ts as [|t ts'].
    + apply Hp. simpl in *. lia.
    + destruct (String.eqb t "~").
      * apply hasFuel_bind; [apply Hn; simpl in *; lia|]. by intros [? ?] _.
      * apply Hp. lia.
  - intros ts Hf. cbn [parsePrimary]. destruct ts as [|t ts']; [done|].
    destruct (String.eqb t "("); [|by destruct (String.eqb t "")].
    apply hasFuel_bind.
    + apply Hi. simpl in *. lia.
    + intros [e ts1] _. destruct ts1 as [|c ?]; [done|].
      by destruct (String.eqb c ")").
Qed.

(** ** Completeness: what the grammar derives is parsed *)

Section FuelMono.
Variables fuel fuel' : nat.
Hypothesis Hle : (fuel <= fuel')%nat.

Lemma parseImplication_mono ts r :
  parseImplication fuel ts = r -> hasFuel r -> parseImplication fuel' ts = r.
Proof.
  intros <- Hr. by apply (proj1 (parse_fuel_mono fuel fuel' Hle)).
Qed.

Lemma parseOr_mono ts r :
  parseOr fuel ts = r -> hasFuel r -> parseOr fuel' ts = r.
Proof.
  intros <- Hr. by apply (parse_fuel_mono fuel fuel' Hle).
Qed.

Lemma parseOrLoop_mono node ts r :
  parseOrLoop fuel node ts = r -> hasFuel r -> parseOrLoop fuel' node ts = r.
Proof.
  intros <- Hr. by apply (parse_fuel_mono fuel fuel' Hle).
Qed.

Lemma parseAnd_mono ts r :
  parseAnd fuel ts = r -> hasFuel r -> parseAnd fuel' ts = r.
Proof.
  intros <- Hr. by apply (parse_fuel_mono fuel fuel' Hle).
Qed.

Lemma parseAndLoop_mono node ts r :
  parseAndLoop fuel node ts = r -> hasFuel r -> parseAndLoop fuel' node ts = r.
Proof.
  intros <- Hr. by apply (parse_fuel_mono fuel fuel' Hle).
Qed.

Lemma parseNot_mono ts r :
  parseNot fuel ts = r -> hasFuel r -> parseNot fuel' ts = r.
Proof.
  intros <- Hr. by apply (parse_fuel_mono fuel fuel' Hle).
Qed.

Lemma parsePrimary_mono ts r :
  parsePrimary fuel ts = r -> hasFuel r -> parsePrimary fuel' ts = r.
Proof.
  intros <- Hr. by apply (parse_fuel_mono fuel fuel' Hle).
Qed.
End FuelMono.

Lemma hasFuel_Ok {A} (a : A) : hasFuel (Ok a).
Proof. done. Qed.

#[local] Hint Resolve hasFuel_Ok : core.

(** In front of a token that is not its operator, a loop returns what it
    has. *)
Lemma parseOrLoop_stop node rest :
  stopsAt ["|"] rest -> parseOrLoop 1 node rest = Ok (node, rest).
Proof.
  intros Hs. cbn [parseOrLoop]. destruct rest as [|t ts]; [done|].
  destruct (String.eqb_spec t "|") as [->|]; [|done].
  destruct (Hs "|" eq_refl). by left.
Qed.

Lemma parseAndLoop_stop node rest :
  stopsAt ["&"] rest -> parseAndLoop 1 node rest = Ok (node, rest).
Proof.
  intros Hs. cbn [parseAndLoop]. destruct rest as [|t ts]; [done|].
  destruct (String.eqb_spec t "&") as [->|]; [|done].
  destruct (Hs "&" eq_refl). by left.
Qed.

Lemma stopsAt_amp rest : stopsAt ["&"; "|"; "->"] rest -> stopsAt ["&"] rest.
Proof.
  intros Hs t Ht Hin. apply (Hs t Ht). rewrite !elem_of_cons in *. tauto.
Qed.

Lemma stopsAt_bar rest : stopsAt ["&"; "|"; "->"] rest -> stopsAt ["|"] rest.
Proof.
  intros Hs t Ht Hin. apply (Hs t Ht). rewrite !elem_of_cons in *. tauto.
Qed.

Lemma primary_head ts e :
  primary ts e -> exists t ts', ts = t :: ts' /\ t <> "~".
Proof. intros []; eauto. Qed.

Lemma parse_complete :
  (forall ts e, implication ts e ->
     forall rest, stopsAt ["&"; "|"; "->"] rest ->
     exists fuel, parseImplication fuel (ts ++ rest) = Ok (e, rest)) /\
  (forall ts e, disjunction ts e ->
     forall rest, stopsAt ["&"] rest ->
     forall fuel r, parseOrLoop fuel e rest = r -> hasFuel r ->
     exists fuel', parseOr fuel' (ts ++ rest) = r) /\
  (forall ts e, conjunction ts e ->
     forall rest fuel r, parseAndLoop fuel e rest = r -> hasFuel r ->
     exists fuel', parseAnd fuel' (ts ++ rest) = r) /\
  (forall ts e, negation ts e ->
     forall rest, exists fuel, parseNot fuel (ts ++ rest) = Ok (e, rest)) /\
  (forall ts e, primary ts e ->
     forall rest, exists fuel, parsePrimary fuel (ts ++ rest) = Ok (e, rest)).
Proof.
  apply grammar_ind.
  - (* implication_base *)
    intros ts e _ IH rest Hs.
    pose proof (stopsAt_amp rest Hs) as Hs1.
    pose proof (stopsAt_bar rest Hs) as Hs2.
    destruct (IH rest Hs1 1%nat _ (parseOrLoop_stop e rest Hs2)
                (hasFuel_Ok _)) as [f Hf].
    exists (S f). cbn [parseImplication]. rewrite Hf. simpl.
    destruct rest as [|t rest']; [done|].
    destruct (String.eqb_spec t "->") as [->|]; [|done].
    destruct (Hs "->" eq_refl). repeat constructor.
  - (* implication_arrow *)
    intros ts1 ts2 l r _ IH1 _ IH2 rest Hs.
    destruct (IH2 rest Hs) as [f2 Hf2].
    assert (Hs1 : stopsAt ["&"] ("->" :: ts2 ++ rest)).
    { apply stopsAt_cons. solve_notin. }
    assert (Hs2 : stopsAt ["|"] ("->" :: ts2 ++ rest)).
    { apply stopsAt_cons. solve_notin. }
    destruct (IH1 _ Hs1 1%nat _ (parseOrLoop_stop l _ Hs2) (hasFuel_Ok _))
      as [f1 Hf1].
    exists (S (f1 `max` f2)). cbn [parseImplication].
    rewrite <- app_assoc. simpl.
    rewrite (parseOr_mono f1 (f1 `max` f2) ltac:(lia) _ _ Hf1) by done. simpl.
    by rewrite (parseImplication_mono f2 (f1 `max` f2) ltac:(lia) _ _ Hf2).
  - (* disjunction_base *)
    intros ts e _ IH rest Hs fuel r Hr Hfuel.
    destruct (IH rest 1%nat _ (parseAndLoop_stop e rest Hs) (hasFuel_Ok _))
      as [fa Hfa].
    exists (S (fa `max` fuel)). cbn [parseOr].
    rewrite (parseAnd_mono fa (fa `max` fuel) ltac:(lia) _ _ Hfa) by done. simpl.
    by apply (parseOrLoop_mono fuel); [lia| |].
  - (* disjunction_bar *)
    intros ts1 ts2 l r0 _ IH1 _ IH2 rest Hs fuel r Hr Hfuel.
    destruct (IH2 rest 1%nat _ (parseAndLoop_stop r0 rest Hs) (hasFuel_Ok _))
      as [fa Hfa].
    assert (Hs1 : stopsAt ["&"] ("|" :: ts2 ++ rest)).
    { apply stopsAt_cons. solve_notin. }
    assert (Hloop :
      parseOrLoop (S (fa `max` fuel)) l ("|" :: ts2 ++ rest) = r).
    { cbn [parseOrLoop]. simpl.
      rewrite (parseAnd_mono fa (fa `max` fuel) ltac:(lia) _ _ Hfa) by done. simpl.
      by apply (parseOrLoop_mono fuel); [lia| |]. }
    destruct (IH1 _ Hs1 _ _ Hloop Hfuel) as [f1 Hf1].
    exists f1. by rewrite <- app_assoc.
  - (* conjunction_base *)
    intros ts e _ IH rest fuel r Hr Hfuel.
    destruct (IH rest) as [fn Hfn].
    exists (S (fn `max` fuel)). cbn [parseAnd].
    rewrite (parseNot_mono fn (fn `max` fuel) ltac:(lia) _ _ Hfn) by done. simpl.
    by apply (parseAndLoop_mono fuel); [lia| |].
  - (* conjunction_amp *)
    intros ts1 ts2 l r0 _ IH1 _ IH2 rest fuel r Hr Hfuel.
    destruct (IH2 rest) as [fn Hfn].
    assert (Hloop :
      parseAndLoop (S (fn `max` fuel)) l ("&" :: ts2 ++ rest) = r).
    { cbn [parseAndLoop]. simpl.
      rewrite (parseNot_mono fn (fn `max` fuel) ltac:(lia) _ _ Hfn) by done. simpl.
      by apply (parseAndLoop_mono fuel); [lia| |]. }
    destruct (IH1 _ _ _ Hloop Hfuel) as [f1 Hf1].
    exists f1. by rewrite <- app_assoc.
  - (* negation_tilde *)
    intros ts e _ IH rest. destruct (IH rest) as [f Hf].
    exists (S f). cbn [parseNot]. simpl. by rewrite Hf.
  - (* negation_base *)
    intros ts e Hp IH rest. destruct (IH rest) as [f Hf].
    destruct (primary_head _ _ Hp) as (t & ts' & -> & Ht).
    exists (S f). cbn [parseNot]. simpl.
    by destruct (String.eqb_spec t "~").
  - (* primary_var *)
    intros t Ht1 Ht2 Ht3 rest. exists 1%nat. cbn [parsePrimary]. simpl.
    destruct (String.eqb_spec t "("); [done|].
    by destruct (String.eqb_spec t "").
  - (* primary_paren *)
    intros ts e _ IH rest.
    destruct (IH (")" :: rest)) as [f Hf].
    { apply stopsAt_cons. solve_notin. }
    exists (S f). cbn [parsePrimary]. simpl.
    rewrite <- app_assoc. simpl. by rewrite Hf.
Qed.

(** ** Errors *)

Lemma endsOpen_cons t ts : t ∈ openers -> endsOpen ts -> endsOpen (t :: ts).
Proof.
  intros Ht [->|(p & t' & -> & Ht')]; right.
  - by exists [], t.
  - by exists (t :: p), t'.
Qed.

Lemma endsOpen_app p ts : ts <> [] -> endsOpen ts -> endsOpen (p ++ ts).
Proof.
  intros Hne [->|(q & t & -> & Ht)]; [done|]. right.
  exists (p ++ q), t. by rewrite app_assoc.
Qed.

Lemma unclosed_app p ts : unclosed ts -> unclosed (p ++ ts).
Proof.
  intros (p' & q & e & rest & -> & Hq & Hr).
  exists (p ++ p'), q, e, rest. by rewrite <- app_assoc.
Qed.

Lemma badInput_cons t ts err :
  t ∈ openers -> badInput ts err -> badInput (t :: ts) err.
Proof.
  destruct err; simpl; [| |done].
  - intros Ht [H|H]; [left; by apply endsOpen_cons|right; by right].
  - intros _. apply (unclosed_app [t]).
Qed.

Lemma badInput_app p ts err :
  ts <> [] -> badInput ts err -> badInput (p ++ ts) err.
Proof.
  destruct err; simpl; [| |done].
  - intros Hne [H|H]; [left; by apply endsOpen_app|right].
    apply elem_of_app. by right.
  - intros _. apply unclosed_app.
Qed.

Ltac parse_sub_err H E :=
  match type of H with
  | context [match ?m with Ok _ => _ | Throw _ => _ | OutOfFuel => _ end] =>
      destruct m as [[? ?]|?|] eqn:E; try discriminate H
  end.

Ltac opener := unfold openers; repeat constructor.

Lemma parse_errors fuel :
  (forall ts err, parseImplication fuel ts = Throw err -> badInput ts err) /\
  (forall ts err, parseOr fuel ts = Throw err -> badInput ts err) /\
  (forall node ts err, parseOrLoop fuel node ts = Throw err ->
     badInput ts err) /\
  (forall ts err, parseAnd fuel ts = Throw err -> badInput ts err) /\
  (forall node ts err, parseAndLoop fuel node ts = Throw err ->
     badInput ts err) /\
  (forall ts err, parseNot fuel ts = Throw err -> badInput ts err) /\
  (forall ts err, parsePrimary fuel ts = Throw err -> badInput ts err).
Proof.
  induction fuel as [|fuel (Hi & Ho & Hol & Ha & Hal & Hn & Hp)].
  { repeat split; intros; discriminate. }
  destruct (parse_sound fuel) as (Si & So & _ & Sa & _ & Sn & _).
  repeat split.
  - (* parseImplication *)
    intros ts err H. parse_unfold H. parse_sub_err H E.
    + destruct (So _ _ _ E) as (p1 & -> & _).
      destruct l as [|t ts']; [discriminate|].
      destruct (String.eqb_spec t "->") as [->|]; [|discriminate].
      parse_sub_err H E2. inversion H; subst.
      apply badInput_app; [done|]. apply badInput_cons; [opener|]. eauto.
    + inversion H; subst. eauto.
  - (* parseOr *)
    intros ts err H. parse_unfold H. parse_sub_err H E.
    + destruct (Sa _ _ _ E) as (p1 & -> & _).
      destruct l as [|t ts'].
      { destruct fuel; discriminate. }
      apply badInput_app; [done|]. eauto.
    + inversion H; subst. eauto.
  - (* parseOrLoop *)
    intros node ts err H. parse_unfold H.
    destruct ts as [|t ts']; [discriminate|].
    destruct (String.eqb_spec t "|") as [->|]; [|discriminate].
    apply badInput_cons; [opener|]. parse_sub_err H E.
    + destruct (Sa _ _ _ E) as (p1 & -> & _).
      destruct l as [|t ts''].
      { destruct fuel; discriminate. }
      apply badInput_app; [done|]. eauto.
    + inversion H; subst. eauto.
  - (* parseAnd *)
    intros ts err H. parse_unfold H. parse_sub_err H E.
    + destruct (Sn _ _ _ E) as (p1 & -> & _).
      destruct l as [|t ts'].
      { destruct fuel; discriminate. }
      apply badInput_app; [done|]. eauto.
    + inversion H; subst. eauto.
  - (* parseAndLoop *)
    intros node ts err H. parse_unfold H.
    destruct ts as [|t ts']; [discriminate|].
    destruct (String.eqb_spec t "&") as [->|]; [|discriminate].
    apply badInput_cons; [opener|]. parse_sub_err H E.
    + destruct (Sn _ _ _ E) as (p1 & -> & _).
      destruct l as [|t ts''].
      { destruct fuel; discriminate. }
      apply badInput_app; [done|]. eauto.
    + inversion H; subst. eauto.
  - (* parseNot *)
    intros ts err H. parse_unfold H.
    destruct ts as [|t ts']; [eauto|].
    destruct (String.eqb_spec t "~") as [->|]; [|eauto].
    apply badInput_cons; [opener|]. parse_sub_err H E.
    inversion H; subst. eauto.
  - (* parsePrimary *)
    intros ts err H. parse_unfold H.
    destruct ts as [|t ts'].
    { inversion H; subst. left. by left. }
    destruct (String.eqb_spec t "(") as [->|].
    2:{ destruct (String.eqb_spec t "") as [->|]; [|discriminate].
        inversion H; subst. right. by left. }
    parse_sub_err H E.
    + destruct (Si _ _ _ E) as (p1 & -> & Hd).
      assert (Hm : err = MissingClose /\ head l <> Some ")").
      { destruct l as [|c l']; [by inversion H|].
        destruct (String.eqb_spec c ")"); [discriminate|].
        inversion H; subst. split; [done|]. simpl. congruence. }
      destruct Hm as [-> Hh]. exists [], p1, e, l. by split.
    + inversion H; subst. apply badInput_cons; [opener|]. eauto.
Qed.

(** ** The parser on a whole token list *)

Lemma parseImplication_enough ts :
  hasFuel (parseImplication (parseFuel ts) ts).
Proof. apply parse_enough. unfold parseFuel. lia. Qed.

(** A complete derivation followed by tokens that do not continue it is
    parsed, with those tokens left over. *)
Lemma parseImplication_prefix p e rest :
  implication p e -> stopsAt ["&"; "|"; "->"] rest ->
  parseImplication (parseFuel (p ++ rest)) (p ++ rest) = Ok (e, rest).
Proof.
  intros Hd Hs.
  destruct (proj1 parse_complete p e Hd rest Hs) as [fuel Hf].
  pose proof (parseImplication_enough (p ++ rest)) as He.
  destruct (Nat.le_ge_cases fuel (parseFuel (p ++ rest))) as [Hle|Hle].
  - by apply (parseImplication_mono fuel).
  - rewrite <- Hf. symmetry. by apply (parseImplication_mono _ _ Hle).
Qed.

Lemma parseTokens_hasFuel ts : hasFuel (parseTokens ts).
Proof.
  unfold parseTokens. apply hasFuel_bind; [apply parseImplication_enough|].
  intros [root rest] _. by destruct rest.
Qed.

(** The parser succeeds exactly on the token lists that the grammar
    derives, with the derived tree. *)
Lemma parseTokens_Ok ts e : parseTokens ts = Ok e <-> implication ts e.
Proof.
  unfold parseTokens. split.
  - intros H. unfold mbind, parsed_bind in H.
    destruct (parseImplication _ ts) as [[root rest]| |] eqn:E; try done.
    destruct rest; [|done]. inversion H; subst.
    destruct (proj1 (parse_sound _) _ _ _ E) as (p & -> & Hd).
    by rewrite app_nil_r.
  - intros Hd.
    pose proof (parseImplication_prefix ts e [] Hd (stopsAt_nil _)) as H.
    rewrite app_nil_r in H. by rewrite H.
Qed.

(** [Unexpected token: t] is thrown exactly when a complete derivation is
    followed by the token [t], which is none of [&], [|], [->]. *)
Lemma parseTokens_UnexpectedToken ts t :
  parseTokens ts = Throw (UnexpectedToken t) <->
  exists p e rest,
    ts = p ++ t :: rest /\ implication p e /\ t ∉ ["&"; "|"; "->"].
Proof.
  unfold parseTokens. split.
  - intros H. unfold mbind, parsed_bind in H.
    destruct (parseImplication _ ts) as [[root rest]|err|] eqn:E; try done.
    + destruct rest as [|t' rest]; [done|]. inversion H; subst.
      destruct (proj1 (parse_sound _) _ _ _ E) as (p & -> & Hd).
      exists p, root, rest. split; [done|]. split; [done|].
      by apply (proj1 (parse_stops _) _ _ _ E).
    + inversion H; subst.
      by apply (proj1 (parse_errors _)) in E.
  - intros (p & e & rest & -> & Hd & Ht).
    by rewrite (parseImplication_prefix p e (t :: rest) Hd (stopsAt_cons _ _ _ Ht)).
Qed.

(** ** The parser as a reading from left to right *)

Lemma readFrom_app pos p q :
  readFrom pos (p ++ q) = readFrom pos p ≫= fun pos' => readFrom pos' q.
Proof.
  revert pos. induction p as [|t p IH]; intros pos; [done|]. simpl.
  destruct (advance pos t); [apply IH|done].
Qed.

Lemma readingEnds_app pos pos' p q :
  readFrom pos p = Some pos' -> readingEnds pos (p ++ q) = readingEnds pos' q.
Proof.
  revert pos. induction p as [|t p IH]; intros pos; simpl.
  - by intros [= ->].
  - destruct (advance pos t); [apply IH|done].
Qed.

Lemma advance_operator d op :
  op ∈ binaryOperators -> advance (AfterOperand d) op = Some (NeedsOperand d).
Proof. intros H. simpl. by rewrite bool_decide_eq_true_2. Qed.

Lemma advance_variable d t :
  t <> "(" -> t <> "~" -> advance (NeedsOperand d) t = Some (AfterOperand d).
Proof.
  intros H1 H2. simpl.
  destruct (String.eqb_spec t "("); [done|].
  by destruct (String.eqb_spec t "~").
Qed.

(** After an operand inside a parenthesis, the reading stops with
    [Missing closing )] at the end of the tokens and in front of a token
    that is neither a binary operator nor [)]. *)
Lemma readingEnds_unclosed d rest :
  stopsAt ["&"; "|"; "->"; ")"] rest ->
  readingEnds (AfterOperand (S d)) rest = Throw MissingClose.
Proof.
  destruct rest as [|t rest]; [done|]. intros H.
  specialize (H t eq_refl). rewrite !not_elem_of_cons in H.
  destruct H as (H1 & H2 & H3 & H4 & _). simpl.
  rewrite bool_decide_eq_false_2.
  - by destruct (String.eqb_spec t ")").
  - unfold binaryOperators. rewrite !not_elem_of_cons.
    repeat split; try done. apply not_elem_of_nil.
Qed.

Lemma readingEnds_extra t rest :
  t ∉ binaryOperators ->
  readingEnds (AfterOperand 0) (t :: rest) = Throw (UnexpectedToken t).
Proof.
  intros H. simpl. rewrite bool_decide_eq_false_2 by done.
  by destruct (String.eqb t ")").
Qed.

Lemma follows_stay node ts : follows AfterOperand ts (Ok (node, ts)).
Proof. exists []. by split. Qed.

(** A parsing function followed by the loop of its level. *)
Lemma follows_seq (first : list string -> parsed (expr * list string))
    (loop : expr -> list string -> parsed (expr * list string)) ts :
  "" ∉ ts ->
  (forall ts, "" ∉ ts -> follows NeedsOperand ts (first ts)) ->
  (forall node ts, "" ∉ ts -> follows AfterOperand ts (loop node ts)) ->
  follows NeedsOperand ts ('(node, ts') ← first ts; loop node ts').
Proof.
  intros Hts Hf Hl. specialize (Hf ts Hts). unfold mbind, parsed_bind.
  destruct (first ts) as [[node ts']|err|]; cbn [follows] in *; [|done..].
  destruct Hf as (p & -> & Hp1).
  apply not_elem_of_app in Hts as [_ Hts'].
  specialize (Hl node ts' Hts').
  destruct (loop node ts') as [[e rest]|err|]; cbn [follows] in *; [| |done].
  - destruct Hl as (p2 & -> & Hp2). exists (p ++ p2).
    split; [by rewrite app_assoc|]. intros d.
    rewrite readFrom_app, Hp1. apply Hp2.
  - intros d. rewrite (readingEnds_app _ _ _ _ (Hp1 d)). apply Hl.
Qed.

(** One round of the loop of a level: its operator, the next operand, and
    the loop again. *)
Lemma follows_round op (first : list string -> parsed (expr * list string))
    (loop : expr -> list string -> parsed (expr * list string)) node ts :
  op ∈ binaryOperators -> "" ∉ ts ->
  (forall ts, "" ∉ ts -> follows NeedsOperand ts (first ts)) ->
  (forall node ts, "" ∉ ts -> follows AfterOperand ts (loop node ts)) ->
  follows AfterOperand (op :: ts) ('(rhs, ts'') ← first ts; loop (node rhs) ts'').
Proof.
  intros Hop Hts Hf Hl. specialize (Hf ts Hts). unfold mbind, parsed_bind.
  destruct (first ts) as [[rhs ts'']|err|]; cbn [follows] in *; [| |done].
  - destruct Hf as (p & -> & Hp1).
    apply not_elem_of_app in Hts as [_ Hts''].
    specialize (Hl (node rhs) ts'' Hts'').
    destruct (loop (node rhs) ts'') as [[e rest]|err|]; cbn [follows] in *;
      [| |done].
    + destruct Hl as (p2 & -> & Hp2). exists (op :: p ++ p2).
      split; [simpl; by rewrite app_assoc|]. intros d.
      cbn [readFrom]. rewrite (advance_operator _ _ Hop).
      rewrite readFrom_app, Hp1. apply Hp2.
    + intros d. cbn [readingEnds]. rewrite (advance_operator _ _ Hop).
      rewrite (readingEnds_app _ _ _ _ (Hp1 d)). apply Hl.
  - intros d. cbn [readingEnds]. rewrite (advance_operator _ _ Hop).
    apply Hf.
Qed.

Lemma binaryOperators_amp : "&" ∈ binaryOperators.
Proof. by left. Qed.

Lemma binaryOperators_bar : "|" ∈ binaryOperators.
Proof. right. by left. Qed.

Lemma binaryOperators_arrow : "->" ∈ binaryOperators.
Proof. right. right. by left. Qed.

(** Every parsing function goes through its tokens as the reading does:
    what it consumes leads from a required operand to a completed one at
    the same depth, and what it throws is what the reading ends with. *)
Lemma parse_follows fuel :
  (forall ts, "" ∉ ts -> follows NeedsOperand ts (parseImplication fuel ts)) /\
  (forall ts, "" ∉ ts -> follows NeedsOperand ts (parseOr fuel ts)) /\
  (forall node ts, "" ∉ ts ->
     follows AfterOperand ts (parseOrLoop fuel node ts)) /\
  (forall ts, "" ∉ ts -> follows NeedsOperand ts (parseAnd fuel ts)) /\
  (forall node ts, "" ∉ ts ->
     follows AfterOperand ts (parseAndLoop fuel node ts)) /\
  (forall ts, "" ∉ ts -> follows NeedsOperand ts (parseNot fuel ts)) /\
  (forall ts, "" ∉ ts -> head ts <> Some "~" ->
     follows NeedsOperand ts (parsePrimary fuel ts)).
Proof.
  induction fuel as [|fuel (Hi & Ho & Hol & Ha & Hal & Hn & Hp)].
  { repeat split; intros; exact I. }
  destruct (parse_stops fuel) as (Ti & _).
  repeat split.
  - (* parseImplication *)
    intros ts Hts. cbn [parseImplication].
    apply (follows_seq (parseOr fuel)
             (fun lhs ts =>
                match ts with
                | t :: ts' =>
                    if String.eqb t "->" then
                      '(rhs, ts'') ← parseImplication fuel ts';
                      Ok (Imp lhs rhs, ts'')
                    else Ok (lhs, ts)
                | [] => Ok (lhs, ts)
                end)); [done|done|].
    intros lhs [|t ts'] Hts'; [apply follows_stay|].
    destruct (String.eqb_spec t "->") as [->|]; [|apply follows_stay].
    apply not_elem_of_cons in Hts' as [_ Hts''].
    apply (follows_round "->" (parseImplication fuel)
             (fun e ts => Ok (e, ts)) (Imp lhs));
      [apply binaryOperators_arrow|done|done|].
    intros; apply follows_stay.
  - (* parseOr *)
    intros ts Hts. cbn [parseOr]. by apply follows_seq.
  - (* parseOrLoop *)
    intros node [|t ts] Hts; cbn [parseOrLoop]; [apply follows_stay|].
    destruct (String.eqb_spec t "|") as [->|]; [|apply follows_stay].
    apply not_elem_of_cons in Hts as [_ Hts].
    by apply (follows_round "|" (parseAnd fuel) (parseOrLoop fuel) (Or node));
      [apply binaryOperators_bar|..].
  - (* parseAnd *)
    intros ts Hts. cbn [parseAnd]. by apply follows_seq.
  - (* parseAndLoop *)
    intros node [|t ts] Hts; cbn [parseAndLoop]; [apply follows_stay|].
    destruct (String.eqb_spec t "&") as [->|]; [|apply follows_stay].
    apply not_elem_of_cons in Hts as [_ Hts].
    by apply (follows_round "&" (parseNot fuel) (parseAndLoop fuel) (And node));
      [apply binaryOperators_amp|..].
  - (* parseNot *)
    intros [|t ts] Hts; cbn [parseNot]; [by apply Hp|].
    destruct (String.eqb_spec t "~") as [->|Hneg].
    2:{ apply Hp; [done|]. simpl. congruence. }
    apply not_elem_of_cons in Hts as [_ Hts].
    specialize (Hn ts Hts). unfold mbind, parsed_bind.
    destruct (parseNot fuel ts) as [[e rest]|err|]; cbn [follows] in *;
      [| |done].
    + destruct Hn as (p & -> & Hp1). exists ("~" :: p). split; [done|].
      intros d. apply Hp1.
    + intros d. apply Hn.
  - (* parsePrimary *)
    intros [|t ts] Hts Hhd; cbn [parsePrimary]; [by intros d|].
    apply not_elem_of_cons in Hts as [Hempty Hts].
    destruct (String.eqb_spec t "(") as [->|Hpar].
    + specialize (Hi ts Hts). unfold mbind, parsed_bind.
      destruct (parseImplication fuel ts) as [[e rest]|err|] eqn:E;
        cbn [follows] in *; [| |done].
      * destruct Hi as (p & -> & Hp1).
        specialize (Ti _ _ _ E).
        assert (Hmiss : stopsAt ["&"; "|"; "->"; ")"] rest ->
                        follows NeedsOperand ("(" :: p ++ rest)
                          (Throw MissingClose)).
        { intros Hs d. cbn [readingEnds advance]. simpl String.eqb.
          cbn iota. rewrite (readingEnds_app _ _ _ _ (Hp1 (S d))).
          by apply readingEnds_unclosed. }
        destruct rest as [|c rest]; [by apply Hmiss|].
        destruct (String.eqb_spec c ")") as [->|Hc].
        -- exists ("(" :: p ++ [")"]). split.
           { simpl. by rewrite <- app_assoc. }
           intros d. cbn [readFrom advance]. simpl String.eqb. cbn iota.
           by rewrite readFrom_app, Hp1.
        -- apply Hmiss. apply stopsAt_cons.
           specialize (Ti c eq_refl). rewrite !not_elem_of_cons in *.
           tauto.
      * intros d. cbn [readingEnds advance]. simpl String.eqb. cbn iota.
        apply Hi.
    + destruct (String.eqb_spec t "") as [->|_]; [done|].
      exists [t]. split; [done|]. intros d. cbn [readFrom].
      rewrite advance_variable; [done|done|].
      simpl in Hhd. congruence.
Qed.

(** The parser on a whole token list ends as the reading of the list. *)
Lemma parseTokens_reading ts :
  "" ∉ ts ->
  match parseTokens ts with
  | Ok _ => readingEnds (NeedsOperand 0) ts = Ok tt
  | Throw err => readingEnds (NeedsOperand 0) ts = Throw err
  | OutOfFuel => False
  end.
Proof.
  intros Hts. pose proof (parseTokens_hasFuel ts) as Hfuel.
  unfold parseTokens, mbind, parsed_bind in *.
  pose proof (proj1 (parse_follows (parseFuel ts)) ts Hts) as Hf.
  destruct (parseImplication (parseFuel ts) ts) as [[root rest]|err|] eqn:E;
    cbn [follows] in Hf; [| |done].
  - destruct Hf as (p & -> & Hp).
    rewrite (readingEnds_app _ _ _ _ (Hp 0%nat)).
    destruct rest as [|t rest]; [done|].
    apply readingEnds_extra.
    by apply (proj1 (parse_stops _) _ _ _ E).
  - apply Hf.
Qed.

Lemma parseTokens_Throw_reading ts err :
  "" ∉ ts ->
  parseTokens ts = Throw err <-> readingEnds (NeedsOperand 0) ts = Throw err.
Proof.
  intros Hts. pose proof (parseTokens_reading ts Hts) as H.
  destruct (parseTokens ts) as [e|err'|]; [| |done].
  - rewrite H. split; discriminate.
  - rewrite H. split; intros [= ->]; done.
Qed.

Lemma parseTokens_Ok_reading ts :
  "" ∉ ts ->
  (exists e, parseTokens ts = Ok e) <-> readingEnds (NeedsOperand 0) ts = Ok tt.
Proof.
  intros Hts. pose proof (parseTokens_reading ts Hts) as H.
  destruct (parseTokens ts) as [e|err'|]; [| |done].
  - split; [done|eauto].
  - rewrite H. split; [by intros [e [=]]|discriminate].
Qed.

(** How a reading ends, in terms of the position that it reaches. *)
Lemma readingEnds_Ok pos ts :
  readingEnds pos ts = Ok tt <-> readFrom pos ts = Some (AfterOperand 0).
Proof.
  revert pos. induction ts as [|t ts IH]; intros pos; simpl.
  - destruct pos as [d|[|d]]; split; (done || by intros [=]).
  - destruct (advance pos t) as [pos'|]; [apply IH|].
    destruct pos as [d|[|d]]; split; done.
Qed.

Lemma readingEnds_UnexpectedEnd pos ts :
  readingEnds pos ts = Throw UnexpectedEnd <->
  exists d, readFrom pos ts = Some (NeedsOperand d).
Proof.
  revert pos. induction ts as [|t ts IH]; intros pos; simpl.
  - destruct pos as [d|[|d]]; split; try done; try (by intros [d' [=]]).
    by exists d.
  - destruct (advance pos t) as [pos'|]; [apply IH|].
    destruct pos as [d|[|d]]; split; try done; by intros [d' [=]].
Qed.

Lemma readingEnds_MissingClose pos ts :
  readingEnds pos ts = Throw MissingClose <->
  exists p rest d,
    ts = p ++ rest /\ readFrom pos p = Some (AfterOperand (S d)) /\
    stopsAt ["&"; "|"; "->"; ")"] rest.
Proof.
  split.
  - revert pos. induction ts as [|t ts IH]; intros pos; simpl.
    + destruct pos as [d|[|d]]; try done. intros _.
      exists [], [], d. repeat split. apply stopsAt_nil.
    + destruct (advance pos t) as [pos'|] eqn:Ha.
      * intros H. destruct (IH _ H) as (p & rest & d & -> & Hp & Hs).
        exists (t :: p), rest, d. repeat split; [|done]. simpl.
        by rewrite Ha.
      * destruct pos as [d|[|d]]; try done.
        { exfalso. simpl in Ha.
          by destruct (String.eqb t "("), (String.eqb t "~"). }
        intros _.
        exists [], (t :: ts), d. repeat split. apply stopsAt_cons.
        simpl in Ha. case_bool_decide as Hop; [done|].
        destruct (String.eqb_spec t ")"); [done|].
        unfold binaryOperators in Hop. rewrite !not_elem_of_cons in *.
        tauto.
  - intros (p & rest & d & -> & Hp & Hs).
    rewrite (readingEnds_app _ _ _ _ Hp). by apply readingEnds_unclosed.
Qed.

Lemma readingEnds_UnexpectedToken pos ts t :
  readingEnds pos ts = Throw (UnexpectedToken t) <->
  exists p rest,
    ts = p ++ t :: rest /\ readFrom pos p = Some (AfterOperand 0) /\
    t ∉ binaryOperators.
Proof.
  split.
  - revert pos. induction ts as [|t0 ts IH]; intros pos; simpl.
    + by destruct pos as [d|[|d]].
    + destruct (advance pos t0) as [pos'|] eqn:Ha.
      * intros H. destruct (IH _ H) as (p & rest & -> & Hp & Ht).
        exists (t0 :: p), rest. repeat split; [|done]. simpl.
        by rewrite Ha.
      * destruct pos as [d|[|d]]; try done. intros [= ->].
        exists [], ts. repeat split.
        simpl in Ha. by case_bool_decide.
  - intros (p & rest & -> & Hp & Ht).
    rewrite (readingEnds_app _ _ _ _ Hp). by apply readingEnds_extra.
Qed.

(* ================================================================== *)
(** * The printer and the parser *)

(** ** Tokens of a rendering *)

Lemma exprToStr_Not_Var n : exprToStr (Not (Var n)) = String "~" n.
Proof. reflexivity. Qed.

Lemma exprToStr_Not e :
  (forall n, e <> Var n) ->
  exprToStr (Not e) = String "~" (String "(" (exprToStr e ++ ")")).
Proof. intros He. destruct e; try done. by destruct (He name). Qed.

Lemma tokensOf_Not e :
  (forall n, e <> Var n) ->
  tokensOf (Not e) = "~" :: "(" :: tokensOf e ++ [")"].
Proof. intros He. destruct e; try done. by destruct (He name). Qed.

Lemma Var_or_not e : (exists n, e = Var n) \/ (forall n, e <> Var n).
Proof. destruct e; eauto. Qed.

Lemma boundary_rparen (s : string) : boundary (String ")" s).
Proof. by right. Qed.

Lemma boundary_space (s : string) : boundary (String " " s).
Proof. by left. Qed.

#[local] Hint Resolve boundary_rparen boundary_space : core.

Lemma tokenize_binary (op : string) (opTok : string) e1 e2 (rest : string) :
  (forall s : string, tokenize (op ++ s) = opTok :: tokenize s) ->
  boundary (op ++ exprToStr e2 ++ String ")" rest) ->
  (forall r, boundary r ->
             tokenize (exprToStr e1 ++ r) = tokensOf e1 ++ tokenize r) ->
  (forall r, boundary r ->
             tokenize (exprToStr e2 ++ r) = tokensOf e2 ++ tokenize r) ->
  tokenize (("(" ++ exprToStr e1 ++ op ++ exprToStr e2 ++ ")") ++ rest) =
  ("(" :: tokensOf e1 ++ opTok :: tokensOf e2 ++ [")"]) ++ tokenize rest.
Proof.
  intros Hop Hb IH1 IH2.
  replace (("(" ++ exprToStr e1 ++ op ++ exprToStr e2 ++ ")") ++ rest)%string
    with (String "(" (exprToStr e1 ++ op ++ exprToStr e2 ++ String ")" rest)).
  2:{ simpl. by rewrite !append_assoc. }
  rewrite tokenize_lparen, IH1, Hop, IH2, tokenize_rparen by auto.
  simpl. rewrite <- !app_assoc. simpl. by rewrite <- !app_assoc.
Qed.

(** ** Tokens that the parser takes for variables *)

Lemma isVarName_token n :
  isVarName n = true -> n <> "(" /\ n <> "~" /\ n <> "".
Proof. intros Hn. repeat split; intros ->; discriminate. Qed.

Lemma isVarName_isOperandToken n :
  isVarName n = true -> isOperandToken n = true.
Proof.
  intros Hn. unfold isOperandToken, isToken. rewrite Hn. simpl.
  destruct (isVarName_token n Hn) as (H1 & H2 & _).
  apply String.eqb_neq in H1, H2. by rewrite H1, H2.
Qed.

(** The expressions of the data model are among them. *)
Lemma wellFormed_operandNames e :
  wellFormed e = true -> operandNames e = true.
Proof.
  induction e as [n|e IH|l IHl r IHr|l IHl r IHr|l IHl r IHr]; simpl;
    rewrite ?andb_true_iff; try tauto.
  apply isVarName_isOperandToken.
Qed.

Lemma isOperandToken_cases t :
  isOperandToken t = true ->
  isVarName t = true \/ t = "->" \/ t = ")" \/ t = "&" \/ t = "|".
Proof.
  unfold isOperandToken, isToken.
  rewrite !andb_true_iff, !negb_true_iff, orb_true_iff, bool_decide_eq_true.
  intros [[[Hv|Hs] H1] H2]; [by left|]. right.
  apply String.eqb_neq in H1, H2. unfold symbols in Hs.
  rewrite !elem_of_cons, elem_of_nil in Hs. tauto.
Qed.

Lemma isOperandToken_primary t :
  isOperandToken t = true -> t <> "(" /\ t <> "~" /\ t <> "".
Proof.
  intros Ht. repeat split; intros ->; discriminate.
Qed.

Lemma tokenize_operand (n rest : string) :
  isOperandToken n = true -> boundary rest ->
  tokenize (n ++ rest) = n :: tokenize rest.
Proof.
  intros Hn Hb.
  destruct (isOperandToken_cases n Hn) as [Hv|[->|[->|[->| ->]]]];
    [by apply tokenize_name|reflexivity..].
Qed.

(** The tokenizer splits a rendering, followed by a space, a closing
    parenthesis or nothing, into [tokensOf]. *)
Lemma tokenize_exprToStr e :
  operandNames e = true ->
  forall rest : string, boundary rest ->
    tokenize (exprToStr e ++ rest) = tokensOf e ++ tokenize rest.
Proof.
  induction e as [n|e IH|l IHl r IHr|l IHl r IHr|l IHl r IHr]; intros Hwf rest Hb.
  - by apply tokenize_operand.
  - destruct (Var_or_not e) as [[n ->]|He].
    + rewrite exprToStr_Not_Var. simpl. rewrite tokenize_tilde.
      by rewrite tokenize_operand.
    + rewrite exprToStr_Not, tokensOf_Not by done.
      change (String "~" (String "(" (exprToStr e ++ ")")) ++ rest)%string
        with (String "~" (String "(" ((exprToStr e ++ ")") ++ rest))).
      rewrite append_assoc. simpl.
      rewrite tokenize_tilde, tokenize_lparen, IH, tokenize_rparen by auto.
      by rewrite <- app_assoc.
  - simpl in Hwf. apply andb_true_iff in Hwf as [Hl Hr].
    apply (tokenize_binary " & " "&"); auto using tokenize_amp. by left.
  - simpl in Hwf. apply andb_true_iff in Hwf as [Hl Hr].
    apply (tokenize_binary " | " "|"); auto using tokenize_bar. by left.
  - simpl in Hwf. apply andb_true_iff in Hwf as [Hl Hr].
    apply (tokenize_binary " -> " "->"); auto using tokenize_arrow. by left.
Qed.

Lemma paren_assoc (t : string) (tl tr : list string) :
  "(" :: tl ++ t :: tr ++ [")"] = "(" :: (tl ++ t :: tr) ++ [")"].
Proof. by rewrite <- app_assoc. Qed.

(** The grammar derives the tokens of a rendering, as a negation, with the
    rendered tree. *)
Lemma tokensOf_negation e :
  operandNames e = true -> negation (tokensOf e) e.
Proof.
  induction e as [n|e IH|l IHl r IHr|l IHl r IHr|l IHl r IHr]; intros Hwf.
  - destruct (isOperandToken_primary n Hwf) as (? & ? & ?).
    by repeat constructor.
  - destruct (Var_or_not e) as [[n ->]|He].
    + simpl. constructor. by apply IH.
    + rewrite tokensOf_Not by done. constructor.
      apply negation_base, primary_paren.
      apply implication_base, disjunction_base, conjunction_base. by apply IH.
  - simpl in Hwf. apply andb_true_iff in Hwf as [Hl Hr]. simpl.
    rewrite paren_assoc. apply negation_base, primary_paren.
    apply implication_base, disjunction_base, conjunction_amp; [|by apply IHr].
    apply conjunction_base. by apply IHl.
  - simpl in Hwf. apply andb_true_iff in Hwf as [Hl Hr]. simpl.
    rewrite paren_assoc. apply negation_base, primary_paren.
    apply implication_base, disjunction_bar.
    + apply disjunction_base, conjunction_base. by apply IHl.
    + apply conjunction_base. by apply IHr.
  - simpl in Hwf. apply andb_true_iff in Hwf as [Hl Hr]. simpl.
    rewrite paren_assoc. apply negation_base, primary_paren.
    apply implication_arrow.
    + apply disjunction_base, conjunction_base. by apply IHl.
    + apply implication_base, disjunction_base, conjunction_base. by apply IHr.
Qed.

(** Parsing the rendering of an expression gives the expression back. *)
Lemma parseFromString_exprToStr e :
  operandNames e = true -> parseFromString (exprToStr e) = Ok e.
Proof.
  intros Hwf. unfold parseFromString.
  pose proof (tokenize_exprToStr e Hwf "" I) as Ht.
  rewrite append_nil_r in Ht. rewrite Ht. change (tokenize "") with (@nil string).
  rewrite app_nil_r. apply parseTokens_Ok.
  apply implication_base, disjunction_base, conjunction_base.
  by apply tokensOf_negation.
Qed.

(** ** Trees returned by the parser *)

(** The variable names of a derived tree are tokens of the list, none of
    them empty, [(] or [~]. *)
Lemma grammar_occurrences :
  (forall ts e, implication ts e ->
     forall n, n ∈ occurrences e ->
               n ∈ ts /\ n <> "(" /\ n <> "~" /\ n <> "") /\
  (forall ts e, disjunction ts e ->
     forall n, n ∈ occurrences e ->
               n ∈ ts /\ n <> "(" /\ n <> "~" /\ n <> "") /\
  (forall ts e, conjunction ts e ->
     forall n, n ∈ occurrences e ->
               n ∈ ts /\ n <> "(" /\ n <> "~" /\ n <> "") /\
  (forall ts e, negation ts e ->
     forall n, n ∈ occurrences e ->
               n ∈ ts /\ n <> "(" /\ n <> "~" /\ n <> "") /\
  (forall ts e, primary ts e ->
     forall n, n ∈ occurrences e ->
               n ∈ ts /\ n <> "(" /\ n <> "~" /\ n <> "").
Proof.
  assert (Hbin : forall (ts1 ts2 : list string) (op : string) l r,
    (forall n, n ∈ occurrences l ->
               n ∈ ts1 /\ n <> "(" /\ n <> "~" /\ n <> "") ->
    (forall n, n ∈ occurrences r ->
               n ∈ ts2 /\ n <> "(" /\ n <> "~" /\ n <> "") ->
    forall n, n ∈ occurrences l ++ occurrences r ->
              n ∈ ts1 ++ op :: ts2 /\ n <> "(" /\ n <> "~" /\ n <> "").
  { intros ts1 ts2 op l r H1 H2 n Hn. rewrite elem_of_app, elem_of_cons.
    apply elem_of_app in Hn as [Hn|Hn].
    - destruct (H1 n Hn) as (? & ?). auto.
    - destruct (H2 n Hn) as (? & ?). auto. }
  apply grammar_ind; simpl; intros; eauto.
  - match goal with IH : forall n, _ -> _ /\ _ |- _ =>
      destruct (IH n) as (? & ?); [done|] end.
    split; [by right|done].
  - match goal with H : _ ∈ [_] |- _ =>
      apply list_elem_of_singleton in H as -> end.
    split; [by left|done].
  - match goal with IH : forall n, _ -> _ /\ _ |- _ =>
      destruct (IH n) as (? & ?); [done|] end.
    split; [|done]. right. apply elem_of_app. by left.
Qed.

Lemma forall_elem_of_app (P : string -> Prop) (l1 l2 : list string) :
  (forall n, n ∈ l1 -> P n) /\ (forall n, n ∈ l2 -> P n) <->
  forall n, n ∈ l1 ++ l2 -> P n.
Proof.
  split.
  - intros [H1 H2] n Hn. apply elem_of_app in Hn as [?|?]; auto.
  - intros H. split; intros n Hn; apply H, elem_of_app; auto.
Qed.

Lemma operandNames_occurrences e :
  operandNames e = true <->
  forall n, n ∈ occurrences e -> isOperandToken n = true.
Proof.
  induction e as [n|e IH|l IHl r IHr|l IHl r IHr|l IHl r IHr]; simpl.
  - split; [by intros H n' ->%list_elem_of_singleton|].
    intros H. apply H. by left.
  - done.
  - rewrite andb_true_iff, IHl, IHr. apply forall_elem_of_app.
  - rewrite andb_true_iff, IHl, IHr. apply forall_elem_of_app.
  - rewrite andb_true_iff, IHl, IHr. apply forall_elem_of_app.
Qed.

(** Every variable name of a tree that the parser returns is a token that
    it has taken for a variable. *)
Lemma parseFromString_operandNames (s : string) e :
  parseFromString s = Ok e -> operandNames e = true.
Proof.
  unfold parseFromString. intros H. apply parseTokens_Ok in H.
  apply operandNames_occurrences. intros n Hn.
  destruct (proj1 grammar_occurrences _ _ H n Hn) as (Hin & H1 & H2 & _).
  unfold isOperandToken. rewrite (tokenize_tokens s n Hin). simpl.
  apply String.eqb_neq in H1, H2. by rewrite H1, H2.
Qed.

(** Printing a tree that the parser has returned and parsing the text
    again gives the same tree. *)
Lemma parse_print_parse (s : string) e :
  parseFromString s = Ok e -> parseFromString (exprToStr e) = Ok e.
Proof.
  intros H. by apply parseFromString_exprToStr, (parseFromString_operandNames s).
Qed.

(** C6.  Parsing round-trips through the printer: for every expression
    whose variable names are tokens (the names of the data model, and the
    symbols that the parser takes for variables), parsing the canonical
    rendering succeeds, and the tree obtained has the same canonical
    rendering. *)
Theorem parse_print_roundtrip e :
  operandNames e = true ->
  exists e', parseFromString (exprToStr e) = Ok e' /\
             exprToStr e' = exprToStr e.
Proof.
  intros Hwf. exists e. split; [|done]. by apply parseFromString_exprToStr.
Qed.

Lemma parse_print_roundtrip_witness :
  operandNames (Imp (Not (And (Var "P") (Not (Var "Q")))) (Or (Var "R") (Var "P")))
    = true /\
  exists e',
    parseFromString
      (exprToStr
         (Imp (Not (And (Var "P") (Not (Var "Q")))) (Or (Var "R") (Var "P"))))
      = Ok e' /\
    exprToStr e' =
    exprToStr
      (Imp (Not (And (Var "P") (Not (Var "Q")))) (Or (Var "R") (Var "P"))).
Proof.
  split; [reflexivity|].
  apply (parse_print_roundtrip
           (Imp (Not (And (Var "P") (Not (Var "Q")))) (Or (Var "R") (Var "P")))).
  reflexivity.
Defined.

(** C7.  The printer is injective on the expressions of the data model:
    two distinct trees have different canonical renderings. *)
Theorem exprToStr_injective e1 e2 :
  wellFormed e1 = true -> wellFormed e2 = true ->
  e1 <> e2 -> exprToStr e1 <> exprToStr e2.
Proof.
  intros H1 H2 Hne Heq. apply Hne.
  pose proof (parseFromString_exprToStr e1 (wellFormed_operandNames e1 H1)) as P1.
  pose proof (parseFromString_exprToStr e2 (wellFormed_operandNames e2 H2)) as P2.
  rewrite Heq, P2 in P1. by inversion P1.
Qed.

Lemma exprToStr_injective_witness :
  wellFormed (And (Var "P") (Or (Var "Q") (Var "R"))) = true /\
  wellFormed (Or (And (Var "P") (Var "Q")) (Var "R")) = true /\
  exprToStr (And (Var "P") (Or (Var "Q") (Var "R"))) <>
  exprToStr (Or (And (Var "P") (Var "Q")) (Var "R")).
Proof.
  split; [reflexivity|]. split; [reflexivity|].
  apply (exprToStr_injective (And (Var "P") (Or (Var "Q") (Var "R")))
           (Or (And (Var "P") (Var "Q")) (Var "R"))).
  - reflexivity.
  - reflexivity.
  - discriminate.
Defined.

(** C9 (amended).  On every text the parser returns a tree or throws one
    of its three errors.  It returns a tree exactly when the grammar, in
    which any token other than [(] and [~] can stand for a variable,
    derives the whole token list, and the tree is the derived one.  It
    throws [Unexpected token: t] exactly when a complete derivation is
    followed by the token [t].  In terms of the reading of the tokens from
    left to right, it throws [Unexpected end of input] exactly when the
    tokens end where an operand is required; [Missing closing )] exactly
    when, after an operand inside an open parenthesis, the tokens end or
    go on with a token that is neither a binary operator nor [)];
    [Unexpected token: t] exactly when, after an operand outside of every
    parenthesis, the tokens go on with a token [t] that is no binary
    operator; and it returns a tree exactly when the tokens end after an
    operand outside of every parenthesis. *)
Theorem parseFromString_contract (str : string) :
  ((exists e, parseFromString str = Ok e) \/
   (exists err, parseFromString str = Throw err)) /\
  (forall e, parseFromString str = Ok e <-> implication (tokenize str) e) /\
  (forall t, parseFromString str = Throw (UnexpectedToken t) <->
             exists p e rest,
               tokenize str = p ++ t :: rest /\ implication p e /\
               t ∉ ["&"; "|"; "->"]) /\
  (parseFromString str = Throw UnexpectedEnd <->
   exists depth, reading (tokenize str) = Some (NeedsOperand depth)) /\
  (parseFromString str = Throw MissingClose <->
   exists p rest depth,
     tokenize str = p ++ rest /\
     reading p = Some (AfterOperand (S depth)) /\
     stopsAt ["&"; "|"; "->"; ")"] rest) /\
  (forall t, parseFromString str = Throw (UnexpectedToken t) <->
             exists p rest,
               tokenize str = p ++ t :: rest /\
               reading p = Some (AfterOperand 0) /\
               t ∉ binaryOperators) /\
  ((exists e, parseFromString str = Ok e) <->
   reading (tokenize str) = Some (AfterOperand 0)) /\
  errorMessage UnexpectedEnd = "Unexpected end of input" /\
  errorMessage MissingClose = "Missing closing )" /\
  (forall t, errorMessage (UnexpectedToken t) = "Unexpected token: " ++ t)%string.
Proof.
  unfold parseFromString, reading.
  pose proof (tokenize_nonempty str) as Hts. split.
  { pose proof (parseTokens_hasFuel (tokenize str)) as H.
    destruct (parseTokens (tokenize str)); [eauto|eauto|done]. }
  split; [intros e; apply parseTokens_Ok|].
  split; [intros t; apply parseTokens_UnexpectedToken|].
  split.
  { rewrite (parseTokens_Throw_reading _ _ Hts).
    apply readingEnds_UnexpectedEnd. }
  split.
  { rewrite (parseTokens_Throw_reading _ _ Hts).
    apply readingEnds_MissingClose. }
  split.
  { intros t. rewrite (parseTokens_Throw_reading _ _ Hts).
    apply readingEnds_UnexpectedToken. }
  split.
  { rewrite (parseTokens_Ok_reading _ Hts). apply readingEnds_Ok. }
  done.
Qed.

(** C3.  The parser implements the four-level grammar: it succeeds exactly
    on the token lists derived by [implication], in which [~] binds
    tightest, then [&], then [|] (both by left recursion), then [->] (by
    right recursion); in particular the two inputs of the claim are parsed
    to the trees it gives. *)
Theorem parser_precedence_and_associativity :
  (forall ts e, parseTokens ts = Ok e <-> implication ts e) /\
  parseFromString "~P & Q | R -> S" =
    Ok (Imp (Or (And (Not (Var "P")) (Var "Q")) (Var "R")) (Var "S")) /\
  parseFromString "A -> B -> C" =
    Ok (Imp (Var "A") (Imp (Var "B") (Var "C"))) /\
  parseFromString "A & B & C" =
    Ok (And (And (Var "A") (Var "B")) (Var "C")) /\
  parseFromString "A | B | C" =
    Ok (Or (Or (Var "A") (Var "B")) (Var "C")).
Proof.
  split; [apply parseTokens_Ok|]. repeat split; vm_compute; reflexivity.
Qed.

(** C9 (as stated) fails: an operator or a closing parenthesis that stands
    where an operand is required is taken for a variable, although it is
    no variable name of the data model; no error is raised. *)
Lemma parser_takes_operator_for_variable :
  parseFromString "P & )" = Ok (And (Var "P") (Var ")")) /\
  parseFromString "&" = Ok (Var "&") /\
  parseFromString "P -> |" = Ok (Imp (Var "P") (Var "|")) /\
  isVarName ")" = false /\ isVarName "&" = false /\ isVarName "|" = false.
Proof. repeat split; vm_compute; reflexivity. Qed.

(** The two errors at the end of the input are told apart by what the
    last token is read as: in [(P &] the [&] is a binary operator and an
    operand is missing, in [( &] it is the operand and the parenthesis is
    left open; with one more [&], or with the closing parenthesis, the
    same beginnings are accepted. *)
Lemma parseFromString_errors_at_the_end :
  parseFromString "(P &" = Throw UnexpectedEnd /\
  reading (tokenize "(P &") = Some (NeedsOperand 1) /\
  parseFromString "( &" = Throw MissingClose /\
  reading (tokenize "( &") = Some (AfterOperand 1) /\
  parseFromString "(P & Q" = Throw MissingClose /\
  parseFromString "(P & Q R)" = Throw MissingClose /\
  parseFromString "P & &" = Ok (And (Var "P") (Var "&")) /\
  parseFromString "(P & Q)" = Ok (And (Var "P") (Var "Q")) /\
  parseFromString "P Q" = Throw (UnexpectedToken "Q") /\
  parseFromString "P )" = Throw (UnexpectedToken ")").
Proof. repeat split; vm_compute; reflexivity. Qed.

(* ================================================================== *)
(** * Properties of the truth-table checker *)

(** ** Truth under a valuation *)

(** The evaluator computes [holds] for the valuation that the assignment
    object induces. *)
Lemma evalExpr_holds e (a : jsobj) : evalExpr e a = holds (objGetTruthy a) e.
Proof.
  induction e as [n|e IH|l IHl r IHr|l IHl r IHr|l IHl r IHr]; simpl;
    rewrite ?IH, ?IHl, ?IHr; try done.
  by destruct (holds _ l), (holds _ r).
Qed.

Lemma holds_ext v v' e :
  (forall x, x ∈ occurrences e -> v x = v' x) -> holds v e = holds v' e.
Proof.
  induction e as [n|e IH|l IHl r IHr|l IHl r IHr|l IHl r IHr]; simpl; intros H.
  - apply H. by left.
  - by rewrite IH.
  - rewrite IHl, IHr; [done| |]; intros x Hx; apply H; set_unfold; tauto.
  - rewrite IHl, IHr; [done| |]; intros x Hx; apply H; set_unfold; tauto.
  - rewrite IHl, IHr; [done| |]; intros x Hx; apply H; set_unfold; tauto.
Qed.

(** ** Variable collection *)

Lemma elem_of_setAdd x y vars : x ∈ setAdd y vars <-> x ∈ vars \/ x = y.
Proof.
  unfold setAdd. case_bool_decide as Hy.
  - split; [auto|]. intros [?| ->]; done.
  - rewrite elem_of_app, list_elem_of_singleton. done.
Qed.

Lemma NoDup_setAdd y vars : NoDup vars -> NoDup (setAdd y vars).
Proof.
  intros Hn. unfold setAdd. case_bool_decide as Hy; [done|].
  apply NoDup_app. split; [done|]. split.
  - intros x Hx ->%list_elem_of_singleton. done.
  - apply NoDup_singleton.
Qed.

Lemma elem_of_collectVars e : forall vars x,
  x ∈ collectVars e vars <-> x ∈ vars \/ x ∈ occurrences e.
Proof.
  induction e as [n|e IH|l IHl r IHr|l IHl r IHr|l IHl r IHr]; intros vars x;
    simpl.
  - rewrite elem_of_setAdd, list_elem_of_singleton. done.
  - apply IH.
  - rewrite IHr, IHl, elem_of_app. tauto.
  - rewrite IHr, IHl, elem_of_app. tauto.
  - rewrite IHr, IHl, elem_of_app. tauto.
Qed.

Lemma NoDup_collectVars e : forall vars,
  NoDup vars -> NoDup (collectVars e vars).
Proof.
  induction e as [n|e IH|l IHl r IHr|l IHl r IHr|l IHl r IHr]; intros vars H;
    simpl; auto using NoDup_setAdd.
Qed.

Lemma elem_of_collect_premises ps : forall vars x,
  x ∈ foldl (fun vars p => collectVars p vars) vars ps <->
  x ∈ vars \/ exists p, p ∈ ps /\ x ∈ occurrences p.
Proof.
  induction ps as [|p ps IH]; intros vars x; simpl.
  - split; [auto|]. intros [?|(p & Hp & _)]; [done|]. by apply elem_of_nil in Hp.
  - rewrite IH, elem_of_collectVars. split.
    + intros [[?|?]|(q & Hq & Hx)]; [auto| |].
      * right. exists p. split; [by left|done].
      * right. exists q. split; [by right|done].
    + intros [?|(q & Hq & Hx)]; [auto|].
      apply elem_of_cons in Hq as [->|Hq]; [auto|]. right. eauto.
Qed.

Lemma NoDup_collect_premises ps : forall vars,
  NoDup vars -> NoDup (foldl (fun vars p => collectVars p vars) vars ps).
Proof.
  induction ps as [|p ps IH]; intros vars H; simpl; [done|].
  by apply IH, NoDup_collectVars.
Qed.

(** The variable list holds every variable of the premises and of the
    conclusion, once. *)
Lemma varListOf_spec ps c :
  NoDup (varListOf ps c) /\
  forall x, x ∈ varListOf ps c <->
            x ∈ occurrences c \/ exists p, p ∈ ps /\ x ∈ occurrences p.
Proof.
  unfold varListOf. split.
  - apply NoDup_collectVars, NoDup_collect_premises, NoDup_nil_2.
  - intros x. rewrite elem_of_collectVars, elem_of_collect_premises.
    rewrite elem_of_nil. tauto.
Qed.

(** ** Bits of the mask *)

Lemma toInt32_small z : (- 2 ^ 31 <= z < 2 ^ 31)%Z -> toInt32 z = z.
Proof.
  intros Hz. unfold toInt32. rewrite Z.mod_small by lia. lia.
Qed.

Lemma shl32_one i : (i <= 30)%nat -> shl32 1 (Z.of_nat i) = (2 ^ Z.of_nat i)%Z.
Proof.
  intros Hi. unfold shl32. rewrite (toInt32_small 1) by lia.
  rewrite Z.mod_small by lia. rewrite Z.shiftl_1_l.
  apply toInt32_small.
  assert (2 ^ Z.of_nat i <= 2 ^ 30)%Z by (apply Z.pow_le_mono_r; lia).
  assert (0 < 2 ^ Z.of_nat i)%Z by (apply Z.pow_pos_nonneg; lia).
  lia.
Qed.

Lemma land_pow2 a n :
  (0 <= n)%Z -> Z.land a (2 ^ n) = if Z.testbit a n then (2 ^ n)%Z else 0%Z.
Proof.
  intros Hn. apply Z.bits_inj'. intros m Hm.
  rewrite Z.land_spec, Z.pow2_bits_eqb by done.
  destruct (Z.eqb_spec n m) as [->|Hne].
  - rewrite andb_true_r. destruct (Z.testbit a m) eqn:E.
    + by rewrite Z.pow2_bits_true.
    + by rewrite Z.bits_0.
  - rewrite andb_false_r. destruct (Z.testbit a n).
    + by rewrite Z.pow2_bits_false.
    + by rewrite Z.bits_0.
Qed.

(** Within the range of the loop, the expression reads bit [i] of the
    mask. *)
Lemma bitAt_testbit mask i :
  (0 <= mask < 2 ^ 31)%Z -> (i <= 30)%nat ->
  bitAt mask i = Z.testbit mask (Z.of_nat i).
Proof.
  intros Hm Hi. unfold bitAt, and32. rewrite shl32_one by done.
  assert (Hp : (0 < 2 ^ Z.of_nat i <= 2 ^ 30)%Z).
  { split; [apply Z.pow_pos_nonneg; lia|apply Z.pow_le_mono_r; lia]. }
  rewrite (toInt32_small mask), (toInt32_small (2 ^ _)) by lia.
  rewrite land_pow2 by lia. unfold truthyZ.
  destruct (Z.testbit mask (Z.of_nat i)).
  - rewrite toInt32_small by lia. destruct (Z.eqb_spec (2 ^ Z.of_nat i) 0); [lia|done].
  - by rewrite toInt32_small by lia.
Qed.

(** ** The assignment object of a mask *)

Lemma assignFrom_notin mask x : forall vars i (a : jsobj),
  x ∉ vars -> assignFrom i vars mask a !! x = a !! x.
Proof.
  induction vars as [|y vars IH]; intros i a Hx; simpl; [done|].
  apply not_elem_of_cons in Hx as [Hxy Hx].
  rewrite IH by done. by apply objSet_lookup_ne.
Qed.

Lemma assignFrom_lookup mask : forall vars i (a : jsobj) j x,
  NoDup vars -> "__proto__" ∉ vars -> vars !! j = Some x ->
  assignFrom i vars mask a !! x = Some (bitAt mask (i + j)).
Proof.
  induction vars as [|y vars IH]; intros i a j x Hnd Hp Hj; [done|].
  apply NoDup_cons in Hnd as [Hy Hnd].
  apply not_elem_of_cons in Hp as [Hpy Hp]. simpl.
  destruct j as [|j]; simpl in Hj.
  - inversion Hj; subst. rewrite assignFrom_notin by done.
    rewrite Nat.add_0_r. by apply objSet_lookup.
  - rewrite (IH (S i) _ j x) by done. do 2 f_equal. lia.
Qed.

Lemma maskOf_range v vars :
  (0 <= maskOf v vars < 2 ^ Z.of_nat (length vars))%Z.
Proof.
  induction vars as [|x vars IH]; [simpl; lia|].
  cbn [maskOf length]. rewrite Nat2Z.inj_succ, Z.pow_succ_r by lia.
  destruct (v x); simpl; lia.
Qed.

Lemma maskOf_testbit v : forall vars j x,
  vars !! j = Some x -> Z.testbit (maskOf v vars) (Z.of_nat j) = v x.
Proof.
  induction vars as [|y vars IH]; intros j x Hj; [done|].
  cbn [maskOf]. rewrite Z.add_comm.
  destruct j as [|j]; simpl in Hj.
  - inversion Hj; subst. apply Z.testbit_0_r.
  - rewrite Nat2Z.inj_succ, Z.testbit_succ_r by lia. by apply IH.
Qed.

Section Assignments.
Variable vars : list string.
Hypothesis Hnd : NoDup vars.
Hypothesis Hproto : "__proto__" ∉ vars.
Hypothesis Hlen : (length vars <= 30)%nat.

Lemma pow2_vars : (0 < 2 ^ Z.of_nat (length vars) <= 2 ^ 30)%Z.
Proof.
  split; [apply Z.pow_pos_nonneg; lia|apply Z.pow_le_mono_r; lia].
Qed.

(** The object built for a mask of the loop gives every variable of the
    list the bit of its position. *)
Lemma assignmentOf_lookup mask j x :
  (0 <= mask < 2 ^ Z.of_nat (length vars))%Z -> vars !! j = Some x ->
  assignmentOf vars mask !! x = Some (Z.testbit mask (Z.of_nat j)).
Proof.
  intros Hm Hj. unfold assignmentOf.
  rewrite (assignFrom_lookup mask vars 0 ∅ j x) by done. simpl.
  pose proof pow2_vars. rewrite bitAt_testbit; [done|lia|].
  apply lookup_lt_Some in Hj. lia.
Qed.

(** Every valuation is met by the object of some mask of the loop. *)
Lemma assignmentOf_maskOf v x :
  x ∈ vars -> objGetTruthy (assignmentOf vars (maskOf v vars)) x = v x.
Proof.
  intros Hx. apply list_elem_of_lookup in Hx as [j Hj].
  unfold objGetTruthy.
  rewrite (assignmentOf_lookup _ j x (maskOf_range v vars) Hj).
  by apply maskOf_testbit.
Qed.
End Assignments.

(** ** The loop over the masks *)

Lemma elem_of_masksFrom m n : forall mask,
  m ∈ masksFrom mask n <-> (mask <= m < mask + Z.of_nat n)%Z.
Proof.
  induction n as [|n IH]; intros mask.
  - simpl. rewrite elem_of_nil. lia.
  - cbn [masksFrom]. rewrite elem_of_cons, IH. lia.
Qed.

Lemma length_masksFrom n : forall mask, length (masksFrom mask n) = n.
Proof. induction n as [|n IH]; intros mask; simpl; [done|]. by rewrite IH. Qed.

(** The loop adds one row per mask and folds the two flags over them. *)
Lemma tableLoop_spec premiseExprs conclusionExpr varList n : forall mask t,
  tableLoop premiseExprs conclusionExpr varList n mask t =
  Table
    (valid t
     && forallb (fun m => implb (premisesAt premiseExprs varList m)
                            (conclusionAt conclusionExpr varList m))
          (masksFrom mask n))
    (consistent t || existsb (premisesAt premiseExprs varList) (masksFrom mask n))
    (truthTable t
     ++ (rowAt premiseExprs conclusionExpr varList <$> masksFrom mask n)).
Proof.
  induction n as [|n IH]; intros mask t.
  - simpl. rewrite andb_true_r, orb_false_r, app_nil_r. by destruct t.
  - cbn [tableLoop masksFrom]. rewrite IH. unfold tableStep.
    fold (premisesAt premiseExprs varList mask)
         (conclusionAt conclusionExpr varList mask).
    cbn [valid consistent truthTable].
    rewrite fmap_cons, <- app_assoc. cbn [forallb existsb app].
    f_equal.
    + by destruct (premisesAt premiseExprs varList mask),
           (conclusionAt conclusionExpr varList mask), (valid t).
    + by destruct (premisesAt premiseExprs varList mask), (consistent t).
Qed.

(** ** Verdicts *)

Lemma forallb_ext_elem {A} (f g : A -> bool) (l : list A) :
  (forall x, x ∈ l -> f x = g x) -> forallb f l = forallb g l.
Proof.
  induction l as [|a l IH]; intros H; simpl; [done|].
  rewrite (H a) by (by left). rewrite IH; [done|].
  intros x Hx. apply H. by right.
Qed.

Section Verdict.
Variables (ps : list expr) (c : expr).

Let vars := varListOf ps c.

Hypothesis Hlen : (length vars <= 30)%nat.
Hypothesis Hproto : "__proto__" ∉ vars.

Lemma vars_NoDup : NoDup vars.
Proof. apply varListOf_spec. Qed.

Lemma total_pow2 :
  shl32 1 (Z.of_nat (length vars)) = (2 ^ Z.of_nat (length vars))%Z.
Proof. by apply shl32_one. Qed.

(** The columns of the row of a mask are the truth values under the
    valuation read off the assignment object. *)
Lemma premisesAt_holds m :
  premisesAt ps vars m =
  forallb (holds (objGetTruthy (assignmentOf vars m))) ps.
Proof.
  unfold premisesAt. apply forallb_ext_elem. intros p _. apply evalExpr_holds.
Qed.

Lemma conclusionAt_holds m :
  conclusionAt c vars m = holds (objGetTruthy (assignmentOf vars m)) c.
Proof. apply evalExpr_holds. Qed.

(** Every valuation has its row. *)
Lemma premisesAt_maskOf v :
  premisesAt ps vars (maskOf v vars) = forallb (holds v) ps.
Proof.
  rewrite premisesAt_holds. apply forallb_ext_elem. intros p Hp.
  apply holds_ext. intros x Hx.
  apply (assignmentOf_maskOf vars vars_NoDup Hproto Hlen).
  apply varListOf_spec. right. by exists p.
Qed.

Lemma conclusionAt_maskOf v :
  conclusionAt c vars (maskOf v vars) = holds v c.
Proof.
  rewrite conclusionAt_holds. apply holds_ext. intros x Hx.
  apply (assignmentOf_maskOf vars vars_NoDup Hproto Hlen).
  apply varListOf_spec. by left.
Qed.

Lemma maskOf_masks v : maskOf v vars ∈ (masks vars).
Proof.
  unfold masks. rewrite total_pow2. apply elem_of_masksFrom.
  pose proof (maskOf_range v vars).
  pose proof (pow2_vars vars Hlen). lia.
Qed.

Lemma solveTable_spec :
  solveTable ps c =
  Table (forallb (fun m => implb (premisesAt ps vars m) (conclusionAt c vars m))
           (masks vars))
        (existsb (premisesAt ps vars) (masks vars))
        (rowAt ps c vars <$> (masks vars)).
Proof. unfold solveTable. by rewrite tableLoop_spec. Qed.

(** [consistent] is set exactly when some valuation satisfies all the
    premises. *)
Lemma consistent_iff :
  consistent (solveTable ps c) = true <->
  exists v, forallb (holds v) ps = true.
Proof.
  rewrite solveTable_spec. cbn [consistent]. rewrite existsb_exists. split.
  - intros (m & _ & Hm). rewrite premisesAt_holds in Hm. eauto.
  - intros [v Hv]. exists (maskOf v vars). split.
    + apply list_elem_of_In, maskOf_masks.
    + by rewrite premisesAt_maskOf.
Qed.

(** [valid] stays set exactly when every valuation that satisfies all the
    premises satisfies the conclusion. *)
Lemma valid_iff :
  valid (solveTable ps c) = true <->
  forall v, forallb (holds v) ps = true -> holds v c = true.
Proof.
  rewrite solveTable_spec. cbn [valid]. rewrite forallb_forall. split.
  - intros H v Hv.
    specialize (H (maskOf v vars) (proj1 (list_elem_of_In _ _) (maskOf_masks v))).
    rewrite premisesAt_maskOf, conclusionAt_maskOf, Hv in H. done.
  - intros H m _. rewrite premisesAt_holds, conclusionAt_holds.
    destruct (forallb _ ps) eqn:E; [|done]. simpl. by apply H.
Qed.

Lemma not_valid_iff :
  valid (solveTable ps c) = false <->
  exists v, forallb (holds v) ps = true /\ holds v c = false.
Proof.
  split.
  - rewrite solveTable_spec. cbn [valid]. intros H.
    apply not_true_iff_false in H. rewrite forallb_forall in H.
    destruct (existsb (fun m => premisesAt ps vars m
                                && negb (conclusionAt c vars m)) (masks vars)) eqn:E.
    + apply existsb_exists in E as (m & _ & Hm).
      apply andb_true_iff in Hm as [Hp Hc]. apply negb_true_iff in Hc.
      rewrite premisesAt_holds in Hp. rewrite conclusionAt_holds in Hc. eauto.
    + destruct H. intros m Hm.
      assert (Hn : premisesAt ps vars m && negb (conclusionAt c vars m) = false).
      { destruct (premisesAt ps vars m && negb (conclusionAt c vars m)) eqn:E';
          [|done].
        rewrite <- E. symmetry. apply existsb_exists. eauto. }
      by destruct (premisesAt ps vars m), (conclusionAt c vars m).
  - intros (v & Hp & Hc). apply not_true_iff_false. intros Hv.
    rewrite valid_iff in Hv. rewrite (Hv v Hp) in Hc. done.
Qed.

(** The table has one row per mask, [2 ^ k] in all, and every valuation
    of the variables is the assignment of one of the rows. *)
Lemma truthTable_rows :
  length (truthTable (solveTable ps c)) = (2 ^ length vars)%nat /\
  forall v : string -> bool,
    exists r, r ∈ truthTable (solveTable ps c) /\
              premisesTrue r = forallb (holds v) ps /\
              conclusionTrue r = holds v c /\
              forall x, x ∈ vars -> assignment r !! x = Some (v x).
Proof.
  rewrite solveTable_spec. cbn [truthTable]. split.
  - rewrite length_fmap. unfold masks. rewrite length_masksFrom, total_pow2.
    rewrite <- (Nat2Z.id (2 ^ length vars)). f_equal.
    rewrite Nat2Z.inj_pow. done.
  - intros v. exists (rowAt ps c vars (maskOf v vars)). split.
    { apply list_elem_of_fmap. eexists. split; [done|apply maskOf_masks]. }
    cbn [rowAt premisesTrue conclusionTrue assignment].
    rewrite premisesAt_maskOf, conclusionAt_maskOf. repeat split.
    intros x Hx. apply list_elem_of_lookup in Hx as [j Hj].
    rewrite (assignmentOf_lookup vars vars_NoDup Hproto Hlen _ j x
               (maskOf_range v vars) Hj).
    f_equal. by apply maskOf_testbit.
Qed.
End Verdict.

(** ** Order of the variable list *)

Lemma collectVars_foldl e : forall vars,
  collectVars e vars = foldl (fun a x => setAdd x a) vars (occurrences e).
Proof.
  induction e as [n|e IH|l IHl r IHr|l IHl r IHr|l IHl r IHr]; intros vars;
    simpl; try done; by rewrite foldl_app, <- IHl, <- IHr.
Qed.

Lemma collect_premises_foldl ps : forall vars,
  foldl (fun vars p => collectVars p vars) vars ps =
  foldl (fun a x => setAdd x a) vars (concat (occurrences <$> ps)).
Proof.
  induction ps as [|p ps IH]; intros vars; simpl; [done|].
  by rewrite foldl_app, IH, collectVars_foldl.
Qed.

Lemma setAdd_foldl occs : forall acc,
  foldl (fun a x => setAdd x a) acc occs =
  acc ++ filter (fun y => y ∉ acc) (firstOccurrences occs).
Proof.
  induction occs as [|x occs IH]; intros acc; simpl.
  - by rewrite app_nil_r.
  - rewrite IH. unfold setAdd. case_bool_decide as Hx.
    + rewrite filter_cons_False by auto. rewrite list_filter_filter.
      f_equal. apply list_filter_iff. intros y. split; [|by intros [? ?]].
      intros Hy. split; [done|]. by intros ->.
    + rewrite filter_cons_True by done. rewrite <- app_assoc. simpl.
      do 2 f_equal. rewrite list_filter_filter. apply list_filter_iff.
      intros y. rewrite not_elem_of_app, list_elem_of_singleton.
      split; intros [? ?]; by split.
Qed.

Lemma filter_notin_nil (l : list string) : filter (fun y => y ∉ []) l = l.
Proof.
  induction l as [|x l IH]; [done|].
  rewrite filter_cons_True by apply not_elem_of_nil. by rewrite IH.
Qed.

(** The variable list is in the order of first appearance, premises
    first. *)
Lemma varListOf_first_appearance ps c :
  varListOf ps c =
  firstOccurrences (concat (occurrences <$> ps) ++ occurrences c).
Proof.
  unfold varListOf.
  rewrite collectVars_foldl, collect_premises_foldl, <- foldl_app.
  rewrite setAdd_foldl. simpl. apply filter_notin_nil.
Qed.

(** C1 (amended).  For premises and a conclusion with at most 30 distinct
    variables, none of them named [__proto__], the checker collects the
    variables in order of first appearance, without repetition, builds a
    table of [2 ^ k] rows that holds a row for every valuation of the
    variables, and its verdict is [Inconsistent] exactly when no valuation
    satisfies all the premises, [Valid] exactly when some valuation does
    and every one that does satisfies the conclusion, and [Invalid]
    exactly when some valuation satisfies all the premises and not the
    conclusion. *)
Theorem solveVerdict_correct ps c :
  (length (varListOf ps c) <= 30)%nat ->
  "__proto__" ∉ varListOf ps c ->
  varListOf ps c =
    firstOccurrences (concat (occurrences <$> ps) ++ occurrences c) /\
  length (truthTable (solveTable ps c)) = (2 ^ length (varListOf ps c))%nat /\
  (forall v : string -> bool,
     exists r, r ∈ truthTable (solveTable ps c) /\
               premisesTrue r = forallb (holds v) ps /\
               conclusionTrue r = holds v c /\
               forall x, x ∈ varListOf ps c -> assignment r !! x = Some (v x)) /\
  (solveVerdict ps c = Inconsistent <->
   forall v, forallb (holds v) ps = false) /\
  (solveVerdict ps c = Valid <->
   (exists v, forallb (holds v) ps = true) /\
   forall v, forallb (holds v) ps = true -> holds v c = true) /\
  (solveVerdict ps c = Invalid <->
   exists v, forallb (holds v) ps = true /\ holds v c = false).
Proof.
  intros Hlen Hproto.
  pose proof (consistent_iff ps c Hlen Hproto) as Hc.
  pose proof (valid_iff ps c Hlen Hproto) as Hv.
  pose proof (not_valid_iff ps c Hlen Hproto) as Hnv.
  destruct (truthTable_rows ps c Hlen Hproto) as [Hrows Hall].
  split; [apply varListOf_first_appearance|].
  split; [done|]. split; [done|].
  unfold solveVerdict, verdictOf.
  destruct (consistent (solveTable ps c)) eqn:Ec;
    destruct (valid (solveTable ps c)) eqn:Ev; cbn [negb].
  - (* consistent, valid *)
    split; [|split].
    + split; [done|]. intros H. destruct (proj1 Hc eq_refl) as [v Hsat].
      by rewrite H in Hsat.
    + split; [|done]. intros _. split; [by apply Hc|by apply Hv].
    + split; [done|]. intros H. apply Hnv in H. done.
  - (* consistent, not valid *)
    split; [|split].
    + split; [done|]. intros H. destruct (proj1 Hc eq_refl) as [v Hsat].
      by rewrite H in Hsat.
    + split; [done|]. intros [_ H]. apply Hv in H. done.
    + split; [|done]. intros _. by apply Hnv.
  - (* not consistent *)
    split; [|split].
    + split; [|done]. intros _ v. destruct (forallb (holds v) ps) eqn:E; [|done].
      assert (false = true) by (apply Hc; eauto). done.
    + split; [done|]. intros [H _]. apply Hc in H. done.
    + split; [done|]. intros (v & H & _).
      assert (false = true) by (apply Hc; eauto). done.
  - split; [|split].
    + split; [|done]. intros _ v. destruct (forallb (holds v) ps) eqn:E; [|done].
      assert (false = true) by (apply Hc; eauto). done.
    + split; [done|]. intros [H _]. apply Hc in H. done.
    + split; [done|]. intros (v & H & _).
      assert (false = true) by (apply Hc; eauto). done.
Qed.

Lemma solveVerdict_correct_witness :
  (length (varListOf [Imp (Var "P") (Var "Q"); Var "P"] (Var "Q")) <= 30)%nat /\
  ("__proto__" ∉ varListOf [Imp (Var "P") (Var "Q"); Var "P"] (Var "Q")) /\
  solveVerdict [Imp (Var "P") (Var "Q"); Var "P"] (Var "Q") = Valid /\
  forall v, forallb (holds v) [Imp (Var "P") (Var "Q"); Var "P"] = true ->
            holds v (Var "Q") = true.
Proof.
  assert (Hlen :
    (length (varListOf [Imp (Var "P") (Var "Q"); Var "P"] (Var "Q")) <= 30)%nat)
    by (vm_compute; lia).
  assert (Hproto :
    "__proto__" ∉ varListOf [Imp (Var "P") (Var "Q"); Var "P"] (Var "Q")).
  { apply (bool_decide_eq_false_1
             ("__proto__" ∈
              varListOf [Imp (Var "P") (Var "Q"); Var "P"] (Var "Q"))).
    vm_compute. reflexivity. }
  assert (Hv : solveVerdict [Imp (Var "P") (Var "Q"); Var "P"] (Var "Q") = Valid)
    by (vm_compute; reflexivity).
  split; [exact Hlen|]. split; [exact Hproto|]. split; [exact Hv|].
  destruct (solveVerdict_correct [Imp (Var "P") (Var "Q"); Var "P"] (Var "Q")
              Hlen Hproto) as (_ & _ & _ & _ & Hvalid & _).
  exact (proj2 (proj1 Hvalid Hv)).
Defined.

(** C1 (as stated) fails: with 31 distinct variables [1 << 31] is
    negative, the loop body never runs and the verdict is [Inconsistent],
    although the valuation that makes every variable true satisfies all
    the premises, and the conclusion, which is the first premise. *)
Lemma truth_table_31_variables :
  length (varListOf thirtyOneVars (Var "x0")) = 31%nat /\
  shl32 1 31 = (- 2147483648)%Z /\
  truthTable (solveTable thirtyOneVars (Var "x0")) = [] /\
  solveVerdict thirtyOneVars (Var "x0") = Inconsistent /\
  forallb (holds (fun _ => true)) thirtyOneVars = true /\
  holds (fun _ => true) (Var "x0") = true.
Proof. repeat split; vm_compute; reflexivity. Qed.

(** The second way in which the verdict departs from the valuations: a
    variable named [__proto__] is true in every row, so that the
    satisfiable premise [~__proto__] is reported as inconsistent. *)
Lemma truth_table_proto_variable :
  solveVerdict [Not (Var "__proto__")] (Var "__proto__") = Inconsistent /\
  forallb (holds (fun _ => false)) [Not (Var "__proto__")] = true.
Proof. split; vm_compute; reflexivity. Qed.

(* ================================================================== *)
(** * Properties of the forward-chaining engine *)

(** ** Invariants of the store *)

Lemma grows_refl st : grows st st.
Proof. split; [done|]. exists []. by rewrite app_nil_r. Qed.

Lemma grows_trans st1 st2 st3 : grows st1 st2 -> grows st2 st3 -> grows st1 st3.
Proof.
  intros [H1 [l1 E1]] [H2 [l2 E2]]. split; [auto|].
  exists (l1 ++ l2). by rewrite E2, E1, app_assoc.
Qed.

#[local] Hint Resolve grows_refl : core.

Lemma wfStore_empty : wfStore (Store ∅ []).
Proof.
  intros s. unfold hasKey. simpl. rewrite lookup_empty. split.
  - intros H. by apply elem_of_nil in H.
  - intros [x Hx]. discriminate.
Qed.

Section EngineSpec.
Variable goalStr : string.
Variable keys : list string.

Lemma okM_ret {A} (a : A) : okM goalStr keys (mret a).
Proof. intros st Hwf Hk Hg. simpl. unfold M_ret. auto. Qed.

Lemma okM_bind {A B} (m : M A) (k : A -> M B) :
  okM goalStr keys m -> (forall a, okM goalStr keys (k a)) ->
  okM goalStr keys (m ≫= k).
Proof.
  intros Hm Hk st Hwf Hc Hg. unfold mbind, M_bind.
  specialize (Hm st Hwf Hc Hg). destruct (m st) as [a st'|e st']; [|done].
  destruct Hm as (Hwf' & Hgr & Hg').
  assert (Hc' : forall s, s ∈ keys -> hasKey st' s) by (intros; apply Hgr; auto).
  specialize (Hk a st' Hwf' Hc' Hg'). destruct (k a st') as [b st''|e st''].
  - destruct Hk as (? & ? & ?). eauto using grows_trans.
  - destruct Hk as (? & ? & ? & ? & ?). eauto 10 using grows_trans.
Qed.

Lemma okM_if {A} (b : bool) (m1 m2 : M A) :
  okM goalStr keys m1 -> okM goalStr keys m2 ->
  okM goalStr keys (if b then m1 else m2).
Proof. by destruct b. Qed.

Lemma okM_mapHas s : okM goalStr keys (mapHas s).
Proof. intros st Hwf Hk Hg. simpl. auto. Qed.

Lemma okM_mapGetExpr s : s ∈ keys -> okM goalStr keys (mapGetExpr s).
Proof.
  intros Hs st Hwf Hk Hg. unfold mapGetExpr.
  destruct (Hk s Hs) as [ent Hent]. rewrite Hent. auto.
Qed.

Lemma okM_addExpr e why from : okM goalStr keys (addExpr goalStr e why from).
Proof.
  intros st Hwf Hk Hg. unfold addExpr.
  case_bool_decide as Hin; [auto|].
  set (s := exprToStr e) in *.
  set (st' := Store _ _).
  assert (Hwf' : wfStore st').
  { intros s'. unfold hasKey, st'. simpl. rewrite elem_of_app, list_elem_of_singleton.
    destruct (decide (s = s')) as [<-|Hne].
    - rewrite lookup_insert_eq. split; [eauto|auto].
    - rewrite lookup_insert_ne by done. rewrite (Hwf s'). unfold hasKey.
      split; [intros [?|?]; [done|congruence]|auto]. }
  assert (Hgr : grows st st').
  { split; [|by exists [s]]. intros s' Hs'. unfold hasKey, st'. simpl.
    destruct (decide (s = s')) as [<-|Hne]; [by rewrite lookup_insert_eq|].
    by rewrite lookup_insert_ne. }
  destruct (String.eqb_spec s goalStr) as [Heq|Hne].
  - split; [done|]. split; [done|]. split; [done|]. split.
    + change (last (order st ++ [s]) = Some goalStr). by rewrite last_snoc, Heq.
    + unfold hasKey, st'. simpl. rewrite <- Heq. by rewrite lookup_insert_eq.
  - split; [done|]. split; [done|]. unfold hasKey, st'. simpl.
    by rewrite lookup_insert_ne.
Qed.

Lemma okM_tryAdd e why from changed :
  okM goalStr keys (tryAdd goalStr e why from changed).
Proof.
  unfold tryAdd. apply okM_bind; [apply okM_addExpr|]. intros a. apply okM_ret.
Qed.

Lemma okM_forOf {A} (body : string -> A -> M A) xs :
  (forall x a, x ∈ xs -> okM goalStr keys (body x a)) ->
  forall a, okM goalStr keys (forOf body xs a).
Proof.
  induction xs as [|x xs IH]; intros Hb a; simpl.
  - apply okM_ret.
  - apply okM_bind.
    + apply Hb. by left.
    + intros a'. apply IH. intros y b Hy. apply Hb. by right.
Qed.

Lemma okM_addPremises idx exs : okM goalStr keys (addPremises goalStr idx exs).
Proof.
  revert idx. induction exs as [|ex exs IH]; intros idx; simpl.
  - apply okM_ret.
  - apply okM_bind; [apply okM_addExpr|]. intros _. apply IH.
Qed.

Lemma okM_addAssumptions exs : okM goalStr keys (addAssumptions goalStr exs).
Proof.
  induction exs as [|ex exs IH]; simpl.
  - apply okM_ret.
  - apply okM_bind; [apply okM_addExpr|]. intros _. apply IH.
Qed.
End EngineSpec.

Section RulesSpec.
Variable goalExpr : expr.
Variable keys : list string.

Let goalStr := exprToStr goalExpr.

Ltac okM_step :=
  first
    [ apply okM_ret
    | apply okM_tryAdd
    | apply okM_mapHas
    | apply okM_bind; [|intros ?]
    | apply okM_if ].

Lemma okM_implicationRules s t l r f changed :
  okM goalStr keys (implicationRules goalExpr s t l r f changed).
Proof.
  unfold implicationRules. repeat okM_step.
  destruct f; try apply okM_ret. case_bool_decide; okM_step.
Qed.

Lemma okM_disjunctionRules s l r changed :
  okM goalStr keys (disjunctionRules goalExpr s l r changed).
Proof. unfold disjunctionRules. repeat okM_step. Qed.

Lemma okM_conjunctionRule e f changed :
  okM goalStr keys (conjunctionRule goalExpr e f changed).
Proof.
  unfold conjunctionRule. destruct goalExpr; try apply okM_ret.
  repeat okM_step.
Qed.

Lemma okM_pairRules s e t changed :
  t ∈ keys -> okM goalStr keys (pairRules goalExpr s e t changed).
Proof.
  intros Ht. unfold pairRules. destruct (String.eqb s t); [apply okM_ret|].
  apply okM_bind; [by apply okM_mapGetExpr|]. intros f.
  apply okM_bind.
  { destruct e; try apply okM_ret. apply okM_implicationRules. }
  intros c1. apply okM_bind.
  { destruct e; try apply okM_ret. apply okM_disjunctionRules. }
  intros c2. apply okM_conjunctionRule.
Qed.

Lemma okM_factRules s changed :
  s ∈ keys -> okM goalStr keys (factRules goalExpr keys s changed).
Proof.
  intros Hs. unfold factRules.
  apply okM_bind; [by apply okM_mapGetExpr|]. intros e.
  apply okM_bind.
  { destruct e; try apply okM_ret. repeat okM_step. }
  intros c. apply okM_forOf. intros t c' Ht. by apply okM_pairRules.
Qed.
End RulesSpec.

(** A pass started in a well-formed store without the goal either ends
    normally, the goal still absent, or throws [FoundSignal] right after
    adding the goal. *)
Lemma pass_spec goalExpr st :
  wfStore st -> ~ hasKey st (exprToStr goalExpr) ->
  match pass goalExpr st with
  | Val _ st' => wfStore st' /\ grows st st' /\ ~ hasKey st' (exprToStr goalExpr)
  | Exc e st' =>
      e = FoundSignal /\ wfStore st' /\ grows st st' /\
      last (order st') = Some (exprToStr goalExpr) /\
      hasKey st' (exprToStr goalExpr)
  end.
Proof.
  intros Hwf Hg. unfold pass.
  apply (okM_forOf (exprToStr goalExpr) (order st)
           (factRules goalExpr (order st)) (order st)); auto.
  - intros s c Hs. by apply okM_factRules.
  - intros s Hs. by apply Hwf.
Qed.

(** ** The flag [changed] *)

Lemma keepsM_ret c : keepsM c (mret c).
Proof. intros st. simpl. unfold M_ret. auto. Qed.

Lemma keepsM_bind c (m : M bool) (k : bool -> M bool) :
  keepsM c m -> (forall c', keepsM c' (k c')) -> keepsM c (m ≫= k).
Proof.
  intros Hm Hk st. unfold mbind, M_bind. specialize (Hm st).
  destruct (m st) as [c' st'|]; [|done].
  specialize (Hk c' st'). destruct (k c' st') as [c'' st''|]; [|done].
  intros Hc. destruct (Hk Hc) as [-> ->]. auto.
Qed.

Lemma keepsM_bind_pure {A} c (m : M A) (k : A -> M bool) :
  pureM m -> (forall a, keepsM c (k a)) -> keepsM c (m ≫= k).
Proof.
  intros Hm Hk st. unfold mbind, M_bind. specialize (Hm st).
  destruct (m st) as [a st'|]; [|done]. subst st'. apply Hk.
Qed.

Lemma keepsM_if c (b : bool) (m1 m2 : M bool) :
  keepsM c m1 -> keepsM c m2 -> keepsM c (if b then m1 else m2).
Proof. by destruct b. Qed.

Lemma pureM_mapHas s : pureM (mapHas s).
Proof. by intros st. Qed.

Lemma pureM_mapGetExpr s : pureM (mapGetExpr s).
Proof. intros st. unfold mapGetExpr. by destruct (map st !! s). Qed.

Lemma keepsM_tryAdd goalStr e why from c :
  keepsM c (tryAdd goalStr e why from c).
Proof.
  intros st. unfold tryAdd, mbind, M_bind, addExpr.
  case_bool_decide; simpl.
  - unfold M_ret. auto.
  - destruct (String.eqb (exprToStr e) goalStr); simpl; [done|].
    unfold M_ret. discriminate.
Qed.

Lemma keepsM_forOf (body : string -> bool -> M bool) xs :
  (forall x c, keepsM c (body x c)) -> forall c, keepsM c (forOf body xs c).
Proof.
  intros Hb. induction xs as [|x xs IH]; intros c; simpl.
  - apply keepsM_ret.
  - apply keepsM_bind; auto.
Qed.

Ltac keepsM_step :=
  first
    [ apply keepsM_ret
    | apply keepsM_tryAdd
    | apply keepsM_bind_pure;
      [first [apply pureM_mapHas | apply pureM_mapGetExpr]|intros ?]
    | apply keepsM_bind; [|intros ?]
    | apply keepsM_if ].

Lemma keepsM_pairRules goalExpr s e t c :
  keepsM c (pairRules goalExpr s e t c).
Proof.
  unfold pairRules. destruct (String.eqb s t); [apply keepsM_ret|].
  apply keepsM_bind_pure; [apply pureM_mapGetExpr|]. intros f.
  apply keepsM_bind.
  { destruct e; try apply keepsM_ret. unfold implicationRules.
    repeat keepsM_step. destruct f; try apply keepsM_ret.
    case_bool_decide; keepsM_step. }
  intros c1. apply keepsM_bind.
  { destruct e; try apply keepsM_ret. unfold disjunctionRules.
    repeat keepsM_step. }
  intros c2. unfold conjunctionRule.
  destruct goalExpr; try apply keepsM_ret. repeat keepsM_step.
Qed.

Lemma keepsM_factRules goalExpr keys s c :
  keepsM c (factRules goalExpr keys s c).
Proof.
  unfold factRules. apply keepsM_bind_pure; [apply pureM_mapGetExpr|].
  intros e. apply keepsM_bind.
  { destruct e; try apply keepsM_ret. repeat keepsM_step. }
  intros c'. apply keepsM_forOf. intros t c''. apply keepsM_pairRules.
Qed.

(** A pass that ends with [changed] still false has added no fact. *)
Lemma pass_quiet goalExpr st st' :
  pass goalExpr st = Val false st' -> st' = st.
Proof.
  unfold pass. intros H.
  pose proof (keepsM_forOf (factRules goalExpr (order st)) (order st)
                (fun x c => keepsM_factRules goalExpr (order st) x c) false st)
    as Hk.
  rewrite H in Hk. by destruct Hk.
Qed.

Lemma loopExit_grows goalExpr st0 st r :
  grows st0 st -> loopExit goalExpr st r -> loopExit goalExpr st0 r.
Proof.
  intros Hg H. destruct H.
  - apply exit_fixed_point; eauto using grows_trans.
  - apply exit_safety_bound; eauto using grows_trans.
  - apply exit_goal_found; eauto using grows_trans.
Qed.

(** With at least [safetyBound - safety + 1] iterations granted, the loop
    is left in one of the three ways of [loopExit]. *)
Lemma whileLoop_exit goalExpr fuel :
  forall changed safety st,
    (safetyBound < fuel + safety)%nat -> (safety <= safetyBound)%nat ->
    wfStore st -> ~ hasKey st (exprToStr goalExpr) ->
    (changed = false -> pass goalExpr st = Val false st) ->
    exists r, whileLoop goalExpr fuel changed safety st = Some r /\
              loopExit goalExpr st r.
Proof.
  induction fuel as [|fuel IH]; intros changed safety st Hf Hs Hwf Hg Hc.
  - lia.
  - cbn [whileLoop]. destruct changed; cbn [andb].
    + destruct (Nat.ltb_spec safety safetyBound) as [Hlt|Hge].
      * pose proof (pass_spec goalExpr st Hwf Hg) as Hp.
        destruct (pass goalExpr st) as [c st'|e st'] eqn:Hpass.
        -- destruct Hp as (Hwf' & Hgr & Hg').
           destruct (IH c (S safety) st') as (r & Hr & Hex);
             [lia|lia|done|done| |].
           { intros ->. pose proof (pass_quiet _ _ _ Hpass) as Hq. by subst st'. }
           exists r. split; [done|]. by apply (loopExit_grows _ _ st').
        -- destruct Hp as (-> & Hwf' & Hgr & Hl & Hk).
           eexists. split; [done|]. by apply exit_goal_found.
      * eexists. split; [done|].
        replace safety with safetyBound by lia. by apply exit_safety_bound.
    + eexists. split; [done|]. apply exit_fixed_point; auto.
Qed.

(** More iterations granted than needed do not change the result. *)
Lemma whileLoop_fuel_mono goalExpr fuel :
  forall fuel' changed safety st r,
    (fuel <= fuel')%nat ->
    whileLoop goalExpr fuel changed safety st = Some r ->
    whileLoop goalExpr fuel' changed safety st = Some r.
Proof.
  induction fuel as [|fuel IH]; intros fuel' changed safety st r Hle H.
  - discriminate.
  - destruct fuel' as [|fuel']; [lia|]. cbn [whileLoop] in *.
    destruct (changed && (safety <? safetyBound)%nat); [|done].
    destruct (pass goalExpr st); [|done]. apply IH; [lia|done].
Qed.

(** ** Initialization *)

Lemma addExpr_throws_iff goalStr e why from st :
  ~ hasKey st goalStr ->
  match addExpr goalStr e why from st with
  | Val _ _ => exprToStr e <> goalStr
  | Exc _ _ => exprToStr e = goalStr
  end.
Proof.
  intros Hg. unfold addExpr. case_bool_decide as Hin.
  - intros Heq. apply Hg. by rewrite <- Heq.
  - by destruct (String.eqb_spec (exprToStr e) goalStr).
Qed.

Lemma addPremises_throws_iff goalStr exs :
  forall idx st,
    wfStore st -> ~ hasKey st goalStr ->
    match addPremises goalStr idx exs st with
    | Val _ _ => goalStr ∉ (exprToStr <$> exs)
    | Exc _ _ => goalStr ∈ (exprToStr <$> exs)
    end.
Proof.
  induction exs as [|ex exs IH]; intros idx st Hwf Hg; simpl.
  - apply not_elem_of_nil.
  - unfold mbind, M_bind.
    pose proof (addExpr_throws_iff goalStr ex
                  ("Premise " ++ pretty (idx + 1)) [] st Hg) as Ha.
    pose proof (okM_addExpr goalStr [] ex ("Premise " ++ pretty (idx + 1)) []
                  st Hwf) as Ho.
    destruct (addExpr _ _ _ _ st) as [b st'|e st'].
    + destruct Ho as (Hwf' & _ & Hg'); [by intros ? ?%elem_of_nil|done|].
      specialize (IH (S idx) st' Hwf' Hg').
      destruct (addPremises goalStr (S idx) exs st').
      * rewrite not_elem_of_cons. auto.
      * by right.
    + rewrite Ha. by left.
Qed.

Lemma addAssumptions_throws_iff goalStr exs :
  forall st,
    wfStore st -> ~ hasKey st goalStr ->
    match addAssumptions goalStr exs st with
    | Val _ _ => goalStr ∉ (exprToStr <$> exs)
    | Exc _ _ => goalStr ∈ (exprToStr <$> exs)
    end.
Proof.
  induction exs as [|ex exs IH]; intros st Hwf Hg; simpl.
  - apply not_elem_of_nil.
  - unfold mbind, M_bind.
    pose proof (addExpr_throws_iff goalStr ex "Assumption" [] st Hg) as Ha.
    pose proof (okM_addExpr goalStr [] ex "Assumption" [] st Hwf) as Ho.
    destruct (addExpr _ _ _ _ st) as [b st'|e st'].
    + destruct Ho as (Hwf' & _ & Hg'); [by intros ? ?%elem_of_nil|done|].
      specialize (IH st' Hwf' Hg').
      destruct (addAssumptions goalStr exs st').
      * rewrite not_elem_of_cons. auto.
      * by right.
    + rewrite Ha. by left.
Qed.

Lemma not_hasKey_empty s : ~ hasKey (Store ∅ []) s.
Proof. unfold hasKey. simpl. rewrite lookup_empty. by intros [? ?]. Qed.

(** The initialization throws exactly when the goal is rendered like one
    of the premises or assumptions; otherwise it leaves a well-formed store
    without the goal. *)
Lemma initialize_spec goalStr premiseExprs extraAssumptions :
  match initialize goalStr premiseExprs extraAssumptions (Store ∅ []) with
  | Val _ st =>
      (goalStr ∉ exprToStr <$> premiseExprs ++ extraAssumptions) /\
      wfStore st /\ ~ hasKey st goalStr
  | Exc e _ =>
      e = FoundSignal /\
      goalStr ∈ (exprToStr <$> premiseExprs ++ extraAssumptions)
  end.
Proof.
  unfold initialize, mbind, M_bind. rewrite fmap_app.
  pose proof (addPremises_throws_iff goalStr premiseExprs 0 _ wfStore_empty
                (not_hasKey_empty goalStr)) as Hp.
  pose proof (okM_addPremises goalStr [] 0 premiseExprs _ wfStore_empty) as Ho.
  destruct (addPremises goalStr 0 premiseExprs (Store ∅ [])) as [[] st|e st].
  - destruct Ho as (Hwf & _ & Hg);
      [by intros ? ?%elem_of_nil|apply not_hasKey_empty|].
    pose proof (addAssumptions_throws_iff goalStr extraAssumptions st Hwf Hg)
      as Ha.
    pose proof (okM_addAssumptions goalStr [] extraAssumptions st Hwf) as Ho'.
    destruct (addAssumptions goalStr extraAssumptions st) as [[] st'|e st'].
    + destruct Ho' as (Hwf' & _ & Hg'); [by intros ? ?%elem_of_nil|done|].
      rewrite not_elem_of_app. auto.
    + destruct Ho' as (-> & _); [by intros ? ?%elem_of_nil|done|].
      rewrite elem_of_app. auto.
  - destruct Ho as (-> & _);
      [by intros ? ?%elem_of_nil|apply not_hasKey_empty|].
    rewrite elem_of_app. auto.
Qed.

(** ** The result of [forwardChain] *)

(** [forwardChain] returns when the goal is rendered like none of the
    premises and assumptions, and throws the early-exit object otherwise. *)
Lemma forwardChain_spec premiseExprs goalExpr extraAssumptions fuel :
  (passFuel <= fuel)%nat ->
  match forwardChainFuel fuel premiseExprs goalExpr extraAssumptions with
  | Returned run =>
      (exprToStr goalExpr ∉ exprToStr <$> premiseExprs ++ extraAssumptions) /\
      wfStore (runStore run) /\
      (goalFound run = true <-> hasKey (runStore run) (exprToStr goalExpr)) /\
      (goalFound run = true ->
       last (runOrder run) = Some (exprToStr goalExpr))
  | Thrown e =>
      e = FoundSignal /\
      exprToStr goalExpr ∈ (exprToStr <$> premiseExprs ++ extraAssumptions)
  | Diverged => False
  end.
Proof.
  intros Hfuel. unfold forwardChainFuel.
  pose proof (initialize_spec (exprToStr goalExpr) premiseExprs
                extraAssumptions) as Hi.
  destruct (initialize _ _ _ _) as [[] st|e st]; [|done].
  destruct Hi as (Hnot & Hwf & Hg).
  destruct (whileLoop_exit goalExpr passFuel true 0 st) as (r & Hr & Hex);
    [unfold passFuel; lia|lia|done|done|done|].
  rewrite (whileLoop_fuel_mono _ _ _ _ _ _ _ Hfuel Hr).
  destruct Hex as [safety st' ? Hwf' ? Hg' ?|st' Hwf' ? Hg'|st' Hwf' ? Hl Hk].
  - split; [done|]. split; [by destruct st'|]. simpl.
    rewrite bool_decide_eq_true. unfold runStore, hasKey. simpl.
    split; [done|]. intros ?. by exfalso.
  - split; [done|]. split; [by destruct st'|]. simpl.
    rewrite bool_decide_eq_true. unfold runStore, hasKey. simpl.
    split; [done|]. intros ?. by exfalso.
  - split; [done|]. split; [by destruct st'|]. simpl. split; [|done].
    split; [|done]. intros _. apply Hk.
Qed.

Lemma forwardChainFuel_enough premiseExprs goalExpr extraAssumptions fuel :
  (passFuel <= fuel)%nat ->
  forwardChainFuel fuel premiseExprs goalExpr extraAssumptions =
  forwardChain premiseExprs goalExpr extraAssumptions.
Proof.
  intros Hfuel. unfold forwardChain, forwardChainFuel.
  pose proof (initialize_spec (exprToStr goalExpr) premiseExprs
                extraAssumptions) as Hi.
  destruct (initialize _ _ _ _) as [[] st|e st]; [|done].
  destruct Hi as (_ & Hwf & Hg).
  destruct (whileLoop_exit goalExpr passFuel true 0 st) as (r & Hr & _);
    [unfold passFuel; lia|lia|done|done|done|].
  by rewrite Hr, (whileLoop_fuel_mono _ _ _ _ _ _ _ Hfuel Hr).
Qed.

(** C10.  The engine terminates on every input: the call ends by a return
    or a throw, granting the loop more than [safetyBound + 1] = 5001
    iterations changes nothing, and when the initialization has not thrown,
    the [while] loop is left after at most 5000 passes in one of three
    ways: a pass has added no fact, the safety bound is reached, or the
    goal has been added. *)
Theorem forwardChain_terminates premiseExprs goalExpr extraAssumptions :
  terminated (forwardChain premiseExprs goalExpr extraAssumptions) = true /\
  safetyBound = 5000%nat /\
  (forall fuel, (passFuel <= fuel)%nat ->
     forwardChainFuel fuel premiseExprs goalExpr extraAssumptions =
     forwardChain premiseExprs goalExpr extraAssumptions) /\
  match initialize (exprToStr goalExpr) premiseExprs extraAssumptions
          (Store ∅ []) with
  | Val _ st =>
      exists r, whileLoop goalExpr passFuel true 0 st = Some r /\
                loopExit goalExpr st r
  | Exc e _ =>
      forwardChain premiseExprs goalExpr extraAssumptions = Thrown FoundSignal
  end.
Proof.
  split; [|split; [reflexivity|split]].
  - pose proof (forwardChain_spec premiseExprs goalExpr extraAssumptions
                  passFuel (le_n _)) as H.
    unfold forwardChain. by destruct (forwardChainFuel _ _ _ _).
  - intros fuel. apply forwardChainFuel_enough.
  - pose proof (initialize_spec (exprToStr goalExpr) premiseExprs
                  extraAssumptions) as Hi.
    unfold forwardChain, forwardChainFuel.
    destruct (initialize _ _ _ _) as [[] st|e st].
    + destruct Hi as (_ & Hwf & Hg).
      apply whileLoop_exit; [unfold passFuel; lia|lia|done|done|done].
    + by destruct Hi as [-> _].
Qed.

(** [forwardChain] throws to its caller exactly when the goal is rendered
    like one of the premises or assumptions. *)
Lemma forwardChain_throws_iff premiseExprs goalExpr extraAssumptions :
  forwardChain premiseExprs goalExpr extraAssumptions = Thrown FoundSignal <->
  exprToStr goalExpr ∈ (exprToStr <$> premiseExprs ++ extraAssumptions).
Proof.
  pose proof (forwardChain_spec premiseExprs goalExpr extraAssumptions
                passFuel (le_n _)) as H.
  unfold forwardChain. destruct (forwardChainFuel _ _ _ _) as [run|e|].
  - destruct H as [Hn _]. split; [discriminate|done].
  - destruct H as [-> Hin]. done.
  - done.
Qed.

(** In every other case it returns, and reports the goal as found exactly
    when the goal is the fact added last. *)
Lemma forwardChain_returns premiseExprs goalExpr extraAssumptions :
  exprToStr goalExpr ∉ (exprToStr <$> premiseExprs ++ extraAssumptions) ->
  exists run,
    forwardChain premiseExprs goalExpr extraAssumptions = Returned run /\
    wfStore (runStore run) /\
    (goalFound run = true <-> hasKey (runStore run) (exprToStr goalExpr)) /\
    (goalFound run = true -> last (runOrder run) = Some (exprToStr goalExpr)).
Proof.
  intros Hn.
  pose proof (forwardChain_spec premiseExprs goalExpr extraAssumptions
                passFuel (le_n _)) as H.
  unfold forwardChain. destruct (forwardChainFuel _ _ _ _) as [run|e|].
  - destruct H as (_ & ? & ? & ?). eauto.
  - by destruct H as [_ ?].
  - done.
Qed.

(** C4.  With the goal among the premises, or equal to the temporary
    assumption, the call of [addExpr] that adds the goal is made during
    the initialization, outside the [try] block: the early-exit object
    reaches the caller of [forwardChain]. *)
Theorem forwardChain_goal_is_premise :
  forwardChain [Var "P"] (Var "P") [] = Thrown FoundSignal /\
  forwardChain [] (Var "P") [Var "P"] = Thrown FoundSignal /\
  forwardChain [Imp (Var "P") (Var "Q"); Var "Q"] (Var "Q") [] =
    Thrown FoundSignal.
Proof. repeat split; vm_compute; reflexivity. Qed.

(* ================================================================== *)
(** * Properties of the proof orchestrator *)

Lemma buildLines_ok (m : gmap string entry) (keys : list string) :
  forall idx,
    (forall s, s ∈ keys -> is_Some (m !! s)) ->
    exists ls,
      buildLines m idx keys = Returned (ls, idx + length keys) /\
      stepText <$> ls = keys /\
      stepNo <$> ls = seq idx (length keys).
Proof.
  induction keys as [|s keys IH]; intros idx Hk; simpl.
  - exists []. by rewrite Nat.add_0_r.
  - destruct (Hk s) as [ent Hent]; [by left|]. rewrite Hent.
    destruct (IH (S idx)) as (ls & Hls & Ht & Hn).
    { intros s' Hs'. apply Hk. by right. }
    rewrite Hls. simpl. eexists. split.
    + unfold mret, outcome_ret. do 2 f_equal. lia.
    + by rewrite !fmap_cons, Ht, Hn.
Qed.

(** Listing of a run: one line per fact, in the order of derivation. *)
Lemma buildSteps_ok run title isAssumptionRun assumptionStr derivedStr :
  wfStore (runStore run) ->
  exists ls,
    buildStepsHtmlFromMap run title isAssumptionRun assumptionStr derivedStr =
    Returned
      (Listing title
         (if isAssumptionRun then
            ls ++ [Step (S (length (runOrder run)))
                     (assumptionStr ++ " -> " ++ derivedStr) Discharge]
          else ls)) /\
    stepText <$> ls = runOrder run /\
    stepNo <$> ls = seq 1 (length (runOrder run)).
Proof.
  intros Hwf. unfold buildStepsHtmlFromMap.
  destruct (buildLines_ok (runMap run) (runOrder run) 1) as (ls & -> & Ht & Hn).
  { intros s Hs. by apply (Hwf s). }
  exists ls. simpl. by split.
Qed.

(** A goal found by the direct run gives a direct derivation. *)
Lemma attemptDeduction_direct premises goalExpr run :
  forwardChain premises goalExpr [] = Returned run ->
  goalFound run = true ->
  exists ls,
    attemptDeductionWithProof premises goalExpr =
    Returned (Deduction true (Some (Listing DirectDerivation ls))) /\
    stepText <$> ls = runOrder run.
Proof.
  intros Hrun Hfound. unfold attemptDeductionWithProof. rewrite Hrun. simpl.
  rewrite Hfound.
  pose proof (forwardChain_spec premises goalExpr [] passFuel (le_n _)) as Hs.
  unfold forwardChain in Hrun. rewrite Hrun in Hs. destruct Hs as (_ & Hwf & _).
  destruct (buildSteps_ok run DirectDerivation false "" "" Hwf)
    as (ls & -> & Ht & _).
  exists ls. by split.
Qed.

(** When the direct run does not find the goal [A -> B] and the run on the
    goal [B] under the assumption [A] finds [B], the result is a
    conditional proof: the facts of the second run in order, then the line
    that discharges the assumption. *)
Lemma attemptDeduction_conditional premises A B run run2 :
  forwardChain premises (Imp A B) [] = Returned run ->
  goalFound run = false ->
  forwardChain premises B [A] = Returned run2 ->
  goalFound run2 = true ->
  exists ls,
    attemptDeductionWithProof premises (Imp A B) =
    Returned
      (Deduction true
         (Some (Listing ImplicationIntro
                  (ls ++ [Step (S (length ls))
                            (exprToStr A ++ " -> " ++ exprToStr B)
                            Discharge])))) /\
    stepText <$> ls = runOrder run2.
Proof.
  intros Hrun Hnot Hrun2 Hfound. unfold attemptDeductionWithProof.
  rewrite Hrun. simpl. rewrite Hnot, Hrun2. simpl. rewrite Hfound.
  pose proof (forwardChain_spec premises B [A] passFuel (le_n _)) as Hs.
  unfold forwardChain in Hrun2. rewrite Hrun2 in Hs.
  destruct Hs as (_ & Hwf & _).
  destruct (buildSteps_ok run2 ImplicationIntro true (exprToStr A)
              (exprToStr B) Hwf) as (ls & -> & Ht & _).
  exists ls. split; [|done]. simpl.
  assert (length (runOrder run2) = length ls) as ->; [|done].
  by rewrite <- Ht, length_fmap.
Qed.

(** A throw of either run reaches the caller of the orchestrator. *)
Lemma attemptDeduction_throws premises A B :
  exprToStr (Imp A B) ∉ (exprToStr <$> premises) ->
  exprToStr B ∈ (exprToStr <$> premises ++ [A]) ->
  (forall run, forwardChain premises (Imp A B) [] = Returned run ->
               goalFound run = false) ->
  attemptDeductionWithProof premises (Imp A B) = Thrown FoundSignal.
Proof.
  intros Hn Hin Hnf. unfold attemptDeductionWithProof.
  destruct (forwardChain_returns premises (Imp A B) []) as (run & Hrun & _).
  { by rewrite app_nil_r. }
  rewrite Hrun. simpl. rewrite (Hnf run Hrun).
  apply forwardChain_throws_iff in Hin. by rewrite Hin.
Qed.

(** C5.  For the goal [P -> P] the direct run finds nothing, and the second
    run, on the goal [P] under the assumption [P], adds the goal during its
    initialization: the early-exit object leaves [forwardChain] and then
    [attemptDeductionWithProof]; no conditional proof is returned.  The
    same happens with a premise present. *)
Theorem attemptDeduction_P_implies_P :
  forwardChain [] (Imp (Var "P") (Var "P")) [] =
    Returned (ProofRun ∅ [] false) /\
  forwardChain [] (Var "P") [Var "P"] = Thrown FoundSignal /\
  attemptDeductionWithProof [] (Imp (Var "P") (Var "P")) =
    Thrown FoundSignal /\
  attemptDeductionWithProof [Var "Q"] (Imp (Var "P") (Var "P")) =
    Thrown FoundSignal.
Proof. repeat split; vm_compute; reflexivity. Qed.

(* ================================================================== *)
(** * Conjunction Introduction *)

Lemma addExpr_fresh goalStr e why from st :
  ~ hasKey st (exprToStr e) ->
  addExpr goalStr e why from st =
  if String.eqb (exprToStr e) goalStr
  then Exc FoundSignal (added e why from st)
  else Val true (added e why from st).
Proof.
  intros Hn. unfold addExpr. by rewrite bool_decide_eq_false_2.
Qed.

Lemma mapHas_true s st : hasKey st s -> mapHas s st = Val true st.
Proof. intros H. unfold mapHas. by rewrite bool_decide_eq_true_2. Qed.

(** Rendering of a conjunction from the renderings of its operands. *)
Lemma exprToStr_And_congr e f l r :
  exprToStr e = exprToStr l -> exprToStr f = exprToStr r ->
  exprToStr (And e f) = exprToStr (And l r).
Proof. simpl. by intros -> ->. Qed.

(** The rule does nothing unless the goal is a conjunction. *)
Lemma conjunctionRule_other_goal goalExpr e f changed st :
  (forall l r, goalExpr <> And l r) ->
  conjunctionRule goalExpr e f changed st = Val changed st.
Proof.
  intros Hg. unfold conjunctionRule.
  destruct goalExpr; try done. by destruct (Hg goalExpr1 goalExpr2).
Qed.

(** C8 (amended).  Conjunction Introduction is attempted only when the
    goal is a conjunction.  For two facts [e], [f] rendered differently
    whose conjunction is not yet a fact: when [e] is rendered like the
    left and [f] like the right operand of the goal, the fact added is
    [And e f], rendered like the goal, and the search stops; when [e] is
    rendered like the right and [f] like the left operand, the fact added
    is again [And e f], in the order of the pair: it is rendered like the
    goal with its operands exchanged; a pair that matches in neither order
    adds nothing. *)
Theorem conjunctionRule_pair_order goalExpr e f changed st :
  hasKey st (exprToStr e) -> hasKey st (exprToStr f) ->
  exprToStr e <> exprToStr f ->
  ~ hasKey st (exprToStr (And e f)) ->
  let st' :=
    added (And e f)
      ("Conjunction Introduction from " ++ exprToStr e ++ " and "
       ++ exprToStr f)
      [exprToStr e; exprToStr f] st in
  match goalExpr with
  | And goalLeft goalRight =>
      (exprToStr e = exprToStr goalLeft ->
       exprToStr f = exprToStr goalRight ->
       exprToStr (And e f) = exprToStr goalExpr /\
       conjunctionRule goalExpr e f changed st = Exc FoundSignal st') /\
      (exprToStr f = exprToStr goalLeft ->
       exprToStr e = exprToStr goalRight ->
       exprToStr (And e f) = exprToStr (And goalRight goalLeft) /\
       conjunctionRule goalExpr e f changed st =
       if String.eqb (exprToStr (And goalRight goalLeft)) (exprToStr goalExpr)
       then Exc FoundSignal st' else Val true st') /\
      (~ (exprToStr e = exprToStr goalLeft /\
          exprToStr f = exprToStr goalRight) ->
       ~ (exprToStr f = exprToStr goalLeft /\
          exprToStr e = exprToStr goalRight) ->
       conjunctionRule goalExpr e f changed st = Val changed st)
  | _ => conjunctionRule goalExpr e f changed st = Val changed st
  end.
Proof.
  intros Ha Hb Hne Hfresh st'.
  destruct goalExpr as [n|g|goalLeft goalRight|l r|l r]; try reflexivity.
  assert (Hrule :
    conjunctionRule (And goalLeft goalRight) e f changed st =
    if (String.eqb (exprToStr e) (exprToStr goalLeft)
        && String.eqb (exprToStr f) (exprToStr goalRight))
       || (String.eqb (exprToStr f) (exprToStr goalLeft)
           && String.eqb (exprToStr e) (exprToStr goalRight))
    then tryAdd (exprToStr (And goalLeft goalRight)) (And e f)
           ("Conjunction Introduction from " ++ exprToStr e ++ " and "
            ++ exprToStr f)
           [exprToStr e; exprToStr f] changed st
    else Val changed st).
  { unfold conjunctionRule, mbind, M_bind.
    rewrite (mapHas_true _ _ Ha), (mapHas_true _ _ Hb).
    destruct (String.eqb_spec (exprToStr e) (exprToStr f)); [done|].
    cbn [negb andb]. by destruct (_ || _). }
  assert (Hadd : forall goalStr,
    tryAdd goalStr (And e f)
      ("Conjunction Introduction from " ++ exprToStr e ++ " and "
       ++ exprToStr f)
      [exprToStr e; exprToStr f] changed st =
    if String.eqb (exprToStr (And e f)) goalStr
    then Exc FoundSignal st' else Val true st').
  { intros goalStr. unfold tryAdd, mbind, M_bind.
    rewrite (addExpr_fresh _ _ _ _ _ Hfresh).
    by destruct (String.eqb _ goalStr). }
  rewrite Hrule, Hadd. split; [|split].
  - intros He Hf.
    pose proof (exprToStr_And_congr e f goalLeft goalRight He Hf) as Hs.
    split; [done|]. rewrite Hs, String.eqb_refl.
    apply String.eqb_eq in He, Hf. by rewrite He, Hf.
  - intros Hf He.
    pose proof (exprToStr_And_congr e f goalRight goalLeft He Hf) as Hs.
    split; [done|]. rewrite Hs.
    apply String.eqb_eq in He, Hf. rewrite He, Hf. by rewrite orb_true_r.
  - intros H1 H2.
    destruct (String.eqb_spec (exprToStr e) (exprToStr goalLeft));
      destruct (String.eqb_spec (exprToStr f) (exprToStr goalRight));
      destruct (String.eqb_spec (exprToStr f) (exprToStr goalLeft));
      destruct (String.eqb_spec (exprToStr e) (exprToStr goalRight));
      simpl; try done; by (exfalso; auto).
Qed.

Lemma conjunctionRule_pair_order_witness :
  exprToStr (And (Var "Q") (Var "P")) = "(Q & P)" /\
  conjunctionRule (And (Var "P") (Var "Q")) (Var "Q") (Var "P") false storeQP =
  Val true
    (added (And (Var "Q") (Var "P")) "Conjunction Introduction from Q and P"
       ["Q"; "P"] storeQP).
Proof.
  assert (Ha : hasKey storeQP (exprToStr (Var "Q"))) by (eexists; reflexivity).
  assert (Hb : hasKey storeQP (exprToStr (Var "P"))) by (eexists; reflexivity).
  assert (Hne : exprToStr (Var "Q") <> exprToStr (Var "P")) by discriminate.
  assert (Hfresh : ~ hasKey storeQP (exprToStr (And (Var "Q") (Var "P")))).
  { intros [x Hx]. vm_compute in Hx. discriminate. }
  destruct (conjunctionRule_pair_order (And (Var "P") (Var "Q")) (Var "Q")
              (Var "P") false storeQP Ha Hb Hne Hfresh) as (_ & Hrev & _).
  destruct (Hrev eq_refl eq_refl) as [Hs Hr].
  split; [reflexivity|exact Hr].
Defined.

(** C8 (as stated) fails: with the premises [Q], [P] and the goal [P & Q],
    the first fact added by Conjunction Introduction is [(Q & P)], which
    is not rendered like the goal; the goal is added after it. *)
Lemma conjunction_intro_swapped_fact :
  exists run,
    forwardChain [Var "Q"; Var "P"] (And (Var "P") (Var "Q")) [] =
      Returned run /\
    runOrder run = ["Q"; "P"; "(Q & P)"; "(P & Q)"] /\
    reason <$> (runMap run !! "(Q & P)") =
      Some "Conjunction Introduction from Q and P" /\
    exprToStr (And (Var "P") (Var "Q")) = "(P & Q)" /\
    String.eqb "(Q & P)" (exprToStr (And (Var "P") (Var "Q"))) = false.
Proof. eexists. split; [vm_compute; reflexivity|]. repeat split. Qed.

(* ================================================================== *)
(** * Further properties of the tokenizer *)

(** ** Separators *)

Lemma app_cons_string c (s1 s2 : string) :
  (String c s1 ++ s2)%string = String c (s1 ++ s2).
Proof. reflexivity. Qed.

Lemma isSeparator_not_gt c : isSeparator c = true -> c <> ">"%char.
Proof. intros H ->. done. Qed.

Lemma scanFrom_separator c (s2 : string) cur :
  isSeparator c = true ->
  scanFrom cur (String c s2) = flush cur ++ separatorToken c ++ scanFrom "" s2.
Proof.
  intros Hc. rewrite scanFrom_cons.
  - unfold separatorToken. destruct (isSpace c) eqn:Es; [done|].
    unfold isSeparator in Hc. rewrite Es in Hc. simpl in Hc. by rewrite Hc.
  - intros ->. done.
Qed.

(** The scanner cuts at a separator whatever precedes and follows it. *)
Lemma scanFrom_split c (s2 : string) (s1 : string) : forall cur,
  isSeparator c = true ->
  scanFrom cur (s1 ++ String c s2) =
  scanFrom cur s1 ++ separatorToken c ++ scanFrom "" s2.
Proof.
  induction s1 as [s1 IH] using string_length_ind. intros cur Hc.
  destruct s1 as [|d r].
  - simpl. by apply scanFrom_separator.
  - rewrite app_cons_string.
    destruct (ascii_dec d "-") as [->|Hd].
    + destruct r as [|g r'].
      * simpl (_ ++ _)%string.
        rewrite scanFrom_cons.
        2:{ intros _. simpl. pose proof (isSeparator_not_gt c Hc).
            destruct c as [[] [] [] [] [] [] [] []]; done. }
        change (isSpace "-") with false. change (isSpecial "-") with false.
        cbn iota. rewrite scanFrom_separator by done.
        change (scanFrom cur "-") with (scanFrom (cur ++ "-") "").
        done.
      * destruct (ascii_dec g ">") as [->|Hg].
        -- rewrite app_cons_string, !scanFrom_arrow.
           rewrite IH by (simpl; lia || done). by rewrite <- !app_assoc.
        -- assert (Hn : notGt (String g r')).
           { simpl. destruct g as [[] [] [] [] [] [] [] []]; done. }
           rewrite scanFrom_cons by (intros _; by rewrite app_cons_string).
           rewrite (scanFrom_cons cur "-" (String g r')) by done.
           change (isSpace "-") with false. change (isSpecial "-") with false.
           cbn iota. apply IH; [simpl; lia|done].
    + rewrite scanFrom_cons by done. rewrite (scanFrom_cons cur d r) by done.
      destruct (isSpace d).
      * rewrite IH by (simpl; lia || done). by rewrite <- app_assoc.
      * destruct (isSpecial d).
        -- rewrite IH by (simpl; lia || done).
           by rewrite <- app_assoc.
        -- apply IH; [simpl; lia|done].
Qed.

Lemma scanFrom_split_arrow (s2 : string) (s1 : string) : forall cur,
  scanFrom cur (s1 ++ "->" ++ s2) = scanFrom cur s1 ++ "->" :: scanFrom "" s2.
Proof.
  induction s1 as [s1 IH] using string_length_ind. intros cur.
  destruct s1 as [|d r].
  - simpl (_ ++ _)%string. by rewrite scanFrom_arrow.
  - rewrite app_cons_string.
    destruct (ascii_dec d "-") as [->|Hd].
    + destruct r as [|g r'].
      * simpl (_ ++ _)%string.
        rewrite scanFrom_cons by done.
        change (isSpace "-") with false. change (isSpecial "-") with false.
        cbn iota. rewrite scanFrom_arrow.
        change (scanFrom cur "-") with (scanFrom (cur ++ "-") "").
        done.
      * destruct (ascii_dec g ">") as [->|Hg].
        -- rewrite app_cons_string, !scanFrom_arrow.
           rewrite IH by (simpl; lia). by rewrite <- !app_assoc.
        -- assert (Hn : notGt (String g r')).
           { simpl. destruct g as [[] [] [] [] [] [] [] []]; done. }
           rewrite scanFrom_cons by (intros _; by rewrite app_cons_string).
           rewrite (scanFrom_cons cur "-" (String g r')) by done.
           change (isSpace "-") with false. change (isSpecial "-") with false.
           cbn iota. apply IH. simpl. lia.
    + rewrite scanFrom_cons by done. rewrite (scanFrom_cons cur d r) by done.
      destruct (isSpace d).
      * rewrite IH by (simpl; lia). by rewrite <- app_assoc.
      * destruct (isSpecial d).
        -- rewrite IH by (simpl; lia). by rewrite <- app_assoc.
        -- apply IH. simpl. lia.
Qed.

Lemma tokenize_cut_space (s1 s2 : string) c :
  isSpace c = true ->
  tokenize (s1 ++ String c s2) = tokenize s1 ++ tokenize s2.
Proof.
  intros Hc. rewrite !tokenize_scan, scanFrom_split.
  - unfold separatorToken. by rewrite Hc.
  - unfold isSeparator. by rewrite Hc.
Qed.

Lemma tokenize_cut_special (s1 s2 : string) c :
  isSpecial c = true ->
  tokenize (s1 ++ String c s2) = tokenize s1 ++ String c "" :: tokenize s2.
Proof.
  intros Hc. rewrite !tokenize_scan, scanFrom_split.
  - unfold separatorToken. by rewrite (isSpecial_not_space c Hc).
  - unfold isSeparator. rewrite Hc. apply orb_true_r.
Qed.

(** X1.  Whitespace, the five special characters and the digraph [->]
    always separate tokens: the tokens of a text cut at one of them are the
    tokens of what precedes it, then the token of the separator (none for
    whitespace), then the tokens of what follows. *)
Theorem tokenize_separators (s1 s2 : string) :
  (forall c, isSpace c = true ->
     tokenize (s1 ++ String c s2) = tokenize s1 ++ tokenize s2) /\
  (forall c, isSpecial c = true ->
     tokenize (s1 ++ String c s2) = tokenize s1 ++ String c "" :: tokenize s2) /\
  tokenize (s1 ++ "->" ++ s2) = tokenize s1 ++ "->" :: tokenize s2.
Proof.
  split; [|split].
  - intros c Hc. by apply tokenize_cut_space.
  - intros c Hc. by apply tokenize_cut_special.
  - rewrite !tokenize_scan. apply scanFrom_split_arrow.
Qed.

(** ** Nothing lost, nothing invented *)

Lemma glue_app l1 l2 : glue (l1 ++ l2) = (glue l1 ++ glue l2)%string.
Proof.
  induction l1 as [|t l1 IH]; simpl; [done|]. by rewrite IH, append_assoc.
Qed.

Lemma glue_flush cur : glue (flush cur) = cur.
Proof. destruct cur; simpl; [done|]. by rewrite append_nil_r. Qed.

Lemma unspaced_not_space c (s : string) :
  isSpace c = false -> unspaced (String c s) = String c (unspaced s).
Proof. intros H. simpl. by rewrite H. Qed.

Lemma scanFrom_glue (s : string) : forall cur,
  glue (scanFrom cur s) = (cur ++ unspaced s)%string.
Proof.
  induction s as [s IH] using string_length_ind. intros cur.
  destruct s as [|c r].
  { change (scanFrom cur "") with (flush cur).
    by rewrite glue_flush, append_nil_r. }
  destruct (ascii_dec c "-") as [->|Hc].
  - destruct r as [|d r'].
    { change (scanFrom cur "-") with (flush (cur ++ "-")).
      by rewrite glue_flush. }
    destruct (ascii_dec d ">") as [->|Hd].
    + rewrite scanFrom_arrow, glue_app, glue_flush. simpl.
      rewrite IH by (simpl; lia). done.
    + rewrite scanFrom_cons.
      2:{ intros _. simpl. destruct d as [[] [] [] [] [] [] [] []]; done. }
      change (isSpace "-") with false. change (isSpecial "-") with false.
      cbn iota. rewrite IH by (simpl; lia).
      rewrite (unspaced_not_space "-") by done. by rewrite append_assoc.
  - rewrite scanFrom_cons by done. destruct (isSpace c) eqn:Es.
    + rewrite glue_app, glue_flush, IH by (simpl; lia). simpl. by rewrite Es.
    + rewrite unspaced_not_space by done. destruct (isSpecial c).
      * rewrite glue_app, glue_flush. simpl. rewrite IH by (simpl; lia). done.
      * rewrite IH by (simpl; lia). by rewrite append_assoc.
Qed.

(** X2.  The tokenizer loses nothing and invents nothing: its tokens,
    written one after the other, are the text without its whitespace. *)
Theorem tokenize_glue (s : string) : glue (tokenize s) = unspaced s.
Proof. rewrite tokenize_scan. apply scanFrom_glue. Qed.

Lemma glue_nil ts : "" ∉ ts -> glue ts = "" -> ts = [].
Proof.
  destruct ts as [|t ts]; [done|]. intros Hn. simpl.
  destruct t; [|done]. destruct Hn. by left.
Qed.

Lemma tokenize_nil (s : string) : tokenize s = [] <-> unspaced s = "".
Proof.
  assert (Hg : glue (tokenize s) = unspaced s)
    by (rewrite tokenize_scan; apply (scanFrom_glue s "")).
  rewrite <- Hg. split; [by intros ->|].
  apply glue_nil, tokenize_nonempty.
Qed.

(** X4.  A text of whitespace only, the empty text included, has no token,
    and the parser throws [Unexpected end of input] on it. *)
Theorem parseFromString_blank (s : string) :
  unspaced s = "" ->
  tokenize s = [] /\ parseFromString s = Throw UnexpectedEnd.
Proof.
  intros H. apply tokenize_nil in H. unfold parseFromString. by rewrite H.
Qed.

Lemma parseFromString_blank_witness :
  unspaced (String " " (String "009" (String "010" ""))) = "" /\
  parseFromString (String " " (String "009" (String "010" ""))) =
    Throw UnexpectedEnd.
Proof.
  split; [reflexivity|].
  apply (parseFromString_blank (String " " (String "009" (String "010" "")))).
  reflexivity.
Defined.

(** ** The tokens of the tokens *)

Lemma tokenize_space (t rest : string) :
  tokenize (t ++ String " " rest) = tokenize t ++ tokenize rest.
Proof. by apply tokenize_cut_space. Qed.

Lemma concat_cons (sep t : string) ts :
  ts <> [] -> String.concat sep (t :: ts) = (t ++ sep ++ String.concat sep ts)%string.
Proof. by destruct ts. Qed.

Lemma tokenize_concat ts :
  (forall t, t ∈ ts -> isToken t = true) ->
  tokenize (String.concat " " ts) = ts.
Proof.
  induction ts as [|t ts IH]; intros Hall; [done|].
  assert (Ht : tokenize t = [t]).
  { apply isToken_tokenize, Hall. by left. }
  destruct ts as [|t' ts]; [done|].
  rewrite concat_cons by done.
  change (" " ++ ?r)%string with (String " " r).
  rewrite tokenize_space, Ht, IH; [done|].
  intros x Hx. apply Hall. by right.
Qed.

(** X3.  The tokens are stable: joined by single spaces and tokenized
    again, they give the same tokens. *)
Theorem tokenize_idempotent (s : string) :
  tokenize (String.concat " " (tokenize s)) = tokenize s.
Proof. apply tokenize_concat. intros t. apply tokenize_tokens. Qed.

(* ================================================================== *)
(** * Further properties of the parser *)

(** ** Parenthesised formulas *)

Lemma tokenize_parens (s : string) :
  tokenize ("(" ++ s ++ ")") = "(" :: tokenize s ++ [")"].
Proof.
  change ("(" ++ s ++ ")")%string with (String "(" (s ++ String ")" "")).
  rewrite tokenize_lparen.
  by rewrite tokenize_cut_special.
Qed.

Lemma tokenize_parens_then (s rest : string) :
  tokenize ("(" ++ s ++ ")" ++ rest) = "(" :: tokenize s ++ ")" :: tokenize rest.
Proof.
  change ("(" ++ s ++ ")" ++ rest)%string with (String "(" (s ++ String ")" rest)).
  rewrite tokenize_lparen.
  by rewrite tokenize_cut_special.
Qed.

Lemma parenthesised_negation ts e :
  implication ts e -> negation ("(" :: ts ++ [")"]) e.
Proof. intros H. by apply negation_base, primary_paren. Qed.

Lemma cons_middle_snoc (ts1 ts2 : list string) (op : string) :
  "(" :: ts1 ++ ")" :: op :: "(" :: ts2 ++ [")"] =
  ("(" :: ts1 ++ [")"]) ++ op :: ("(" :: ts2 ++ [")"]).
Proof. simpl. by rewrite <- app_assoc. Qed.

(** X5.  Parenthesised formulas compose: when the texts [s1] and [s2] are
    parsed to [e1] and [e2], the texts [(s1)], [~(s1)], [(s1) & (s2)],
    [(s1) | (s2)] and [(s1) -> (s2)] are parsed to [e1], [Not e1],
    [And e1 e2], [Or e1 e2] and [Imp e1 e2]. *)
Theorem parseFromString_compose (s1 s2 : string) e1 e2 :
  parseFromString s1 = Ok e1 -> parseFromString s2 = Ok e2 ->
  parseFromString ("(" ++ s1 ++ ")") = Ok e1 /\
  parseFromString ("~(" ++ s1 ++ ")") = Ok (Not e1) /\
  parseFromString ("(" ++ s1 ++ ") & (" ++ s2 ++ ")") = Ok (And e1 e2) /\
  parseFromString ("(" ++ s1 ++ ") | (" ++ s2 ++ ")") = Ok (Or e1 e2) /\
  parseFromString ("(" ++ s1 ++ ") -> (" ++ s2 ++ ")") = Ok (Imp e1 e2).
Proof.
  unfold parseFromString. rewrite !parseTokens_Ok. intros H1 H2.
  pose proof (parenthesised_negation _ _ H1) as N1.
  pose proof (parenthesised_negation _ _ H2) as N2.
  split; [|split; [|split; [|split]]].
  - rewrite tokenize_parens.
    by apply implication_base, disjunction_base, conjunction_base.
  - change ("~(" ++ s1 ++ ")")%string with (String "~" ("(" ++ s1 ++ ")")).
    rewrite tokenize_tilde, tokenize_parens.
    by apply implication_base, disjunction_base, conjunction_base,
      negation_tilde.
  - change ("(" ++ s1 ++ ") & (" ++ s2 ++ ")")%string
      with ("(" ++ s1 ++ ")" ++ " & " ++ "(" ++ s2 ++ ")")%string.
    rewrite tokenize_parens_then, tokenize_amp, tokenize_parens, cons_middle_snoc.
    apply implication_base, disjunction_base, conjunction_amp; [|done].
    by apply conjunction_base.
  - change ("(" ++ s1 ++ ") | (" ++ s2 ++ ")")%string
      with ("(" ++ s1 ++ ")" ++ " | " ++ "(" ++ s2 ++ ")")%string.
    rewrite tokenize_parens_then, tokenize_bar, tokenize_parens, cons_middle_snoc.
    apply implication_base, disjunction_bar.
    + by apply disjunction_base, conjunction_base.
    + by apply conjunction_base.
  - change ("(" ++ s1 ++ ") -> (" ++ s2 ++ ")")%string
      with ("(" ++ s1 ++ ")" ++ " -> " ++ "(" ++ s2 ++ ")")%string.
    rewrite tokenize_parens_then, tokenize_arrow, tokenize_parens, cons_middle_snoc.
    apply implication_arrow.
    + by apply disjunction_base, conjunction_base.
    + by apply implication_base, disjunction_base, conjunction_base.
Qed.

Lemma parseFromString_compose_witness :
  parseFromString "P | Q" = Ok (Or (Var "P") (Var "Q")) /\
  parseFromString "~R" = Ok (Not (Var "R")) /\
  parseFromString ("(" ++ "P | Q" ++ ") -> (" ++ "~R" ++ ")") =
    Ok (Imp (Or (Var "P") (Var "Q")) (Not (Var "R"))).
Proof.
  split; [reflexivity|]. split; [reflexivity|].
  apply (parseFromString_compose "P | Q" "~R" (Or (Var "P") (Var "Q"))
           (Not (Var "R"))); reflexivity.
Defined.

(** ** Unbalanced parentheses *)

Lemma parseTokens_unclosed ts e :
  implication ts e -> parseTokens ("(" :: ts) = Throw MissingClose.
Proof.
  intros Hd.
  pose proof (parseImplication_prefix ts e [] Hd (stopsAt_nil _)) as Hp.
  rewrite app_nil_r in Hp.
  set (pf := parseFuel ts) in *.
  assert (H : parseImplication (5 + pf) ("(" :: ts) = Throw MissingClose).
  { cbn [Nat.add parseImplication parseOr parseAnd parseNot parsePrimary].
    change (String.eqb "(" "~") with false. change (String.eqb "(" "(") with true.
    cbn iota. rewrite (parseImplication_mono pf pf (le_n _) ts _ Hp) by done.
    done. }
  unfold parseTokens.
  rewrite (parseImplication_mono (5 + pf) (parseFuel ("(" :: ts)) ltac:(unfold pf, parseFuel; simpl; lia)
             _ _ H) by done.
  done.
Qed.

(** X6.  Unbalanced parentheses around a text that is parsed: with an
    opening parenthesis in front of it the parser throws
    [Missing closing )], with a closing parenthesis behind it the parser
    throws [Unexpected token: )]. *)
Theorem parseFromString_unbalanced (s : string) e :
  parseFromString s = Ok e ->
  parseFromString ("(" ++ s) = Throw MissingClose /\
  parseFromString (s ++ ")") = Throw (UnexpectedToken ")").
Proof.
  unfold parseFromString. rewrite parseTokens_Ok. intros Hd. split.
  - change ("(" ++ s)%string with (String "(" s). rewrite tokenize_lparen.
    by apply (parseTokens_unclosed _ e).
  - rewrite tokenize_cut_special by done.
    apply parseTokens_UnexpectedToken. exists (tokenize s), e, [].
    split; [done|]. split; [done|]. solve_notin.
Qed.

Lemma parseFromString_unbalanced_witness :
  parseFromString "P & Q" = Ok (And (Var "P") (Var "Q")) /\
  parseFromString ("(" ++ "P & Q") = Throw MissingClose /\
  parseFromString ("P & Q" ++ ")") = Throw (UnexpectedToken ")").
Proof.
  split; [reflexivity|].
  apply (parseFromString_unbalanced "P & Q" (And (Var "P") (Var "Q"))).
  reflexivity.
Defined.

(** ** Trees of the parser and their renderings *)

(** The printer is injective on the trees whose variable names are
    tokens. *)
Lemma exprToStr_operand_inj e1 e2 :
  operandNames e1 = true -> operandNames e2 = true ->
  exprToStr e1 = exprToStr e2 -> e1 = e2.
Proof.
  intros H1 H2 Heq.
  pose proof (parseFromString_exprToStr e1 H1) as P1.
  pose proof (parseFromString_exprToStr e2 H2) as P2.
  rewrite Heq, P2 in P1. by injection P1.
Qed.

(** X21.  The canonical rendering is faithful on the trees that the
    parser returns: the rendering of such a tree is parsed to the tree
    itself, and two such trees with the same rendering are equal. *)
Theorem parsed_expressions_canonical (s1 s2 : string) e1 e2 :
  parseFromString s1 = Ok e1 -> parseFromString s2 = Ok e2 ->
  parseFromString (exprToStr e1) = Ok e1 /\
  (exprToStr e1 = exprToStr e2 <-> e1 = e2).
Proof.
  intros H1 H2.
  pose proof (parseFromString_operandNames s1 e1 H1) as O1.
  pose proof (parseFromString_operandNames s2 e2 H2) as O2.
  split; [by apply parseFromString_exprToStr|].
  split; [|by intros ->].
  by apply exprToStr_operand_inj.
Qed.

Lemma parsed_expressions_canonical_witness :
  parseFromString "P&Q" = Ok (And (Var "P") (Var "Q")) /\
  parseFromString "~( P & Q )" = Ok (Not (And (Var "P") (Var "Q"))) /\
  parseFromString (exprToStr (And (Var "P") (Var "Q"))) =
    Ok (And (Var "P") (Var "Q")).
Proof.
  split; [reflexivity|]. split; [reflexivity|].
  apply (parsed_expressions_canonical "P&Q" "~( P & Q )"
           (And (Var "P") (Var "Q")) (Not (And (Var "P") (Var "Q"))));
    reflexivity.
Defined.

Lemma grammar_sublist :
  (forall ts e, implication ts e -> occurrences e `sublist_of` ts) /\
  (forall ts e, disjunction ts e -> occurrences e `sublist_of` ts) /\
  (forall ts e, conjunction ts e -> occurrences e `sublist_of` ts) /\
  (forall ts e, negation ts e -> occurrences e `sublist_of` ts) /\
  (forall ts e, primary ts e -> occurrences e `sublist_of` ts).
Proof.
  apply grammar_ind; simpl; intros; auto.
  - apply sublist_app; [done|]. by apply sublist_cons.
  - apply sublist_app; [done|]. by apply sublist_cons.
  - apply sublist_app; [done|]. by apply sublist_cons.
  - by apply sublist_cons.
  - by apply sublist_cons, sublist_inserts_r.
Qed.

(** X24.  The variables of a tree that the parser returns, read from left
    to right, are tokens of the text, in the order of the text; none of
    them is [(] or [~]. *)
Theorem parsed_variables_in_order (s : string) e :
  parseFromString s = Ok e ->
  occurrences e `sublist_of` tokenize s /\
  forall n, n ∈ occurrences e -> isOperandToken n = true.
Proof.
  intros H. split.
  - unfold parseFromString in H. apply parseTokens_Ok in H.
    by apply (proj1 grammar_sublist).
  - apply operandNames_occurrences. by apply (parseFromString_operandNames s).
Qed.

Lemma parsed_variables_in_order_witness :
  parseFromString "(P -> Q) & ~R" =
    Ok (And (Imp (Var "P") (Var "Q")) (Not (Var "R"))) /\
  ["P"; "Q"; "R"] `sublist_of` ["("; "P"; "->"; "Q"; ")"; "&"; "~"; "R"].
Proof.
  split; [reflexivity|].
  apply (parsed_variables_in_order "(P -> Q) & ~R"
           (And (Imp (Var "P") (Var "Q")) (Not (Var "R")))).
  reflexivity.
Defined.

(* ================================================================== *)
(** * Further properties of the evaluator and of the truth table *)

(** X7.  The evaluator reads only the variables of the expression: two
    assignment objects in which every variable that occurs in it is equally
    truthy give it the same value. *)
Theorem evalExpr_coincidence e (a a' : jsobj) :
  (forall x, x ∈ occurrences e -> objGetTruthy a x = objGetTruthy a' x) ->
  evalExpr e a = evalExpr e a'.
Proof. intros H. rewrite !evalExpr_holds. by apply holds_ext. Qed.

Lemma evalExpr_coincidence_witness :
  evalExpr (Imp (Var "P") (Var "Q")) (<["P" := true]> (<["Q" := false]> ∅)) =
  evalExpr (Imp (Var "P") (Var "Q"))
    (<["R" := true]> (<["P" := true]> (<["Q" := false]> ∅))).
Proof.
  apply (evalExpr_coincidence (Imp (Var "P") (Var "Q"))).
  intros x Hx. simpl in Hx.
  rewrite !elem_of_cons, elem_of_nil in Hx.
  destruct Hx as [->|[->|[]]]; vm_compute; reflexivity.
Defined.

(** ** The number of rows *)

Lemma shl32_one_mod (k : nat) :
  shl32 1 (Z.of_nat k) =
  if (k mod 32 =? 31)%nat then (- 2 ^ 31)%Z else (2 ^ Z.of_nat (k mod 32))%Z.
Proof.
  unfold shl32. change (toInt32 1) with 1%Z.
  assert (Hm : (Z.of_nat k mod 32 = Z.of_nat (k mod 32))%Z).
  { by rewrite Nat2Z.inj_mod. }
  rewrite Hm, Z.shiftl_1_l.
  pose proof (Nat.mod_upper_bound k 32 ltac:(done)) as Hb.
  destruct (Nat.eqb_spec (k mod 32) 31) as [->|Hne]; [done|].
  apply toInt32_small. split.
  - etrans; [|apply Z.pow_nonneg]; lia.
  - apply Z.pow_lt_mono_r; lia.
Qed.

(** X8.  The number of rows of the truth table, for any number [k] of
    variables: [1 << k] takes the shift count modulo 32 and is negative for
    the count 31, so that the table has [2 ^ (k mod 32)] rows, and none
    when [k mod 32 = 31]. *)
Theorem truthTable_length ps c :
  length (truthTable (solveTable ps c)) =
  if (length (varListOf ps c) mod 32 =? 31)%nat then 0%nat
  else (2 ^ (length (varListOf ps c) mod 32))%nat.
Proof.
  rewrite solveTable_spec. cbn [truthTable].
  rewrite length_fmap. unfold masks. rewrite length_masksFrom, shl32_one_mod.
  destruct (_ =? 31)%nat; [done|].
  rewrite <- (Nat2Z.id (2 ^ _)). f_equal. by rewrite Nat2Z.inj_pow.
Qed.

(** ** The order of the rows *)

Lemma masksFrom_lookup n : forall mask m,
  (m < n)%nat -> masksFrom mask n !! m = Some (mask + Z.of_nat m)%Z.
Proof.
  induction n as [|n IH]; intros mask m Hm; [lia|].
  destruct m as [|m]; simpl.
  - f_equal. lia.
  - rewrite IH by lia. f_equal. lia.
Qed.

(** X9.  The rows are in the order of the masks: with at most 30
    variables, none of them named [__proto__], row [m] (counted from 0)
    gives the [j]-th variable the bit [j] of [m], and its two columns are
    the values of the premises and of the conclusion under that very
    assignment. *)
Theorem truthTable_row_order ps c (m : nat) :
  (length (varListOf ps c) <= 30)%nat ->
  "__proto__" ∉ varListOf ps c ->
  (m < 2 ^ length (varListOf ps c))%nat ->
  exists r,
    truthTable (solveTable ps c) !! m = Some r /\
    (forall j x, varListOf ps c !! j = Some x ->
       assignment r !! x = Some (Z.testbit (Z.of_nat m) (Z.of_nat j))) /\
    premisesTrue r = forallb (fun p => evalExpr p (assignment r)) ps /\
    conclusionTrue r = evalExpr c (assignment r).
Proof.
  intros Hlen Hproto Hm. set (vars := varListOf ps c) in *.
  exists (rowAt ps c vars (Z.of_nat m)).
  assert (Hpow : Z.to_nat (shl32 1 (Z.of_nat (length vars))) =
                 (2 ^ length vars)%nat).
  { rewrite shl32_one by done. rewrite <- (Nat2Z.id (2 ^ _)). f_equal.
    by rewrite Nat2Z.inj_pow. }
  split; [|split; [|done]].
  - rewrite solveTable_spec. cbn [truthTable]. rewrite list_lookup_fmap.
    unfold masks. fold vars. rewrite Hpow, masksFrom_lookup by done. done.
  - intros j x Hj. cbn [rowAt assignment].
    apply (assignmentOf_lookup vars); try done.
    + apply varListOf_spec.
    + split; [lia|]. apply Nat2Z.inj_lt in Hm.
      by rewrite Nat2Z.inj_pow in Hm.
Qed.

Lemma truthTable_row_order_witness :
  exists r,
    truthTable (solveTable premisesMP (Var "Q")) !! 2%nat = Some r /\
    assignment r !! "P" = Some false /\ assignment r !! "Q" = Some true.
Proof.
  destruct (truthTable_row_order premisesMP (Var "Q") 2) as (r & Hr & Ha & _).
  - vm_compute. lia.
  - apply (bool_decide_eq_false_1 ("__proto__" ∈ varListOf premisesMP (Var "Q"))).
    vm_compute. reflexivity.
  - vm_compute. lia.
  - exists r. split; [exact Hr|]. split.
    + apply (Ha 0%nat "P"). reflexivity.
    + apply (Ha 1%nat "Q"). reflexivity.
Defined.

(* ================================================================== *)
(** * The records of the engine *)

(** ** Stores in good order *)

Lemma extends_refl st : extends st st.
Proof. by split. Qed.

Lemma extends_trans st1 st2 st3 :
  extends st1 st2 -> extends st2 st3 -> extends st1 st3.
Proof. intros [? ?] [? ?]. split; by etrans. Qed.

Lemma extends_hasKey st st' s : extends st st' -> hasKey st s -> hasKey st' s.
Proof.
  intros [Hm _] [ent Hent]. exists ent. by apply (lookup_weaken _ _ _ _ Hent).
Qed.

Lemma extends_factAt st st' s e : extends st st' -> factAt st s e -> factAt st' s e.
Proof.
  intros [Hm _] (ent & Hent & He). exists ent. split; [|done].
  by apply (lookup_weaken _ _ _ _ Hent).
Qed.

Lemma extends_added e why from st :
  ~ hasKey st (exprToStr e) -> extends st (added e why from st).
Proof.
  intros Hn. split; simpl.
  - apply insert_subseteq. apply eq_None_not_Some. exact Hn.
  - by apply prefix_app_r.
Qed.

Lemma factAt_hasKey st s e : factAt st s e -> hasKey st s.
Proof. intros (ent & Hent & _). by exists ent. Qed.

Section Records.
Variable Good : expr -> Prop.
Hypothesis HGood : ruleClosed Good.

Lemma proofStore_empty : proofStore Good (Store ∅ []).
Proof.
  split; [apply wfStore_empty|]. split; [constructor|].
  intros s ent H. simpl in H. by rewrite lookup_empty in H.
Qed.

Lemma proofStore_fact st s e :
  proofStore Good st -> factAt st s e -> Good e /\ s = exprToStr e.
Proof.
  intros (_ & _ & Hr) (ent & Hent & <-). by destruct (Hr s ent Hent) as (? & ? & _).
Qed.

Lemma proofStore_key st s :
  proofStore Good st -> hasKey st s -> exists e, Good e /\ exprToStr e = s.
Proof.
  intros (_ & _ & Hr) [ent Hent]. destruct (Hr s ent Hent) as (? & ? & _). eauto.
Qed.

Lemma proofStore_stepOrder st s ent :
  proofStore Good st -> map st !! s = Some ent ->
  (stepOrder ent <= length (order st))%nat.
Proof.
  intros (_ & _ & Hr) Hent. destruct (Hr s ent Hent) as (_ & _ & Hpos & Hl & _).
  apply lookup_lt_Some in Hl. lia.
Qed.

Lemma proofStore_added e why from st :
  proofStore Good st -> ~ hasKey st (exprToStr e) -> Good e ->
  (forall d, d ∈ from -> hasKey st d) ->
  proofStore Good (added e why from st).
Proof.
  intros Hps Hn He Hfrom. pose proof Hps as (Hwf & Hnd & Hr).
  unfold added. set (s := exprToStr e) in *.
  split; [|split].
  - intros s'. unfold hasKey. simpl. rewrite elem_of_app, list_elem_of_singleton.
    destruct (decide (s = s')) as [<-|Hne].
    + rewrite lookup_insert_eq. split; [eauto|auto].
    + rewrite lookup_insert_ne by done. rewrite (Hwf s'). unfold hasKey.
      split; [intros [?|Heq]; [done|by destruct Hne]|auto].
  - simpl. apply NoDup_app. split; [done|]. split; [|apply NoDup_singleton].
    intros x Hx ->%list_elem_of_singleton. by apply Hn, Hwf.
  - intros s' ent. simpl. destruct (decide (s = s')) as [<-|Hne].
    + rewrite lookup_insert_eq. intros [= <-]. unfold recordOk. cbn [entryExpr stepOrder derivedFrom map order].
      split; [done|]. split; [done|]. split; [lia|]. split.
      * replace (length (order st) + 1 - 1)%nat with (length (order st) + 0)%nat by lia.
        by rewrite lookup_app_r, Nat.add_0_r, Nat.sub_diag by lia.
      * intros d Hd. destruct (Hfrom d Hd) as [ent' Hent'].
        exists ent'. split.
        -- rewrite lookup_insert_ne; [done|]. intros <-. apply Hn. by exists ent'.
        -- pose proof (proofStore_stepOrder st d ent' Hps Hent'). lia.
    + rewrite lookup_insert_ne by done. intros Hent.
      destruct (Hr s' ent Hent) as (Hs & Hphi & Hpos & Hl & Hd).
      unfold recordOk. cbn [map order].
      split; [done|]. split; [done|]. split; [done|]. split.
      * by apply lookup_app_l_Some.
      * intros d Hin. destruct (Hd d Hin) as (ent' & Hent' & Hlt).
        exists ent'. split; [|done]. rewrite lookup_insert_ne; [done|].
        intros <-. apply Hn. by exists ent'.
Qed.

(** ** Rules of the logic *)

Lemma hoare_ret {A} (P : store -> Prop) (Q : A -> store -> Prop) (a : A) :
  (forall st, proofStore Good st -> P st -> Q a st) -> hoare Good P (mret a) Q.
Proof. intros H st Hps HP. simpl. unfold M_ret. auto using extends_refl. Qed.

Lemma hoare_bind {A B} P (m : M A) Q (k : A -> M B) R :
  hoare Good P m Q -> (forall a, hoare Good (Q a) (k a) R) -> hoare Good P (m ≫= k) R.
Proof.
  intros Hm Hk st Hps HP. unfold mbind, M_bind.
  specialize (Hm st Hps HP). destruct (m st) as [a st'|e st']; [|done].
  destruct Hm as (Hps' & Hex & HQ).
  specialize (Hk a st' Hps' HQ). destruct (k a st') as [b st''|e st''].
  - destruct Hk as (? & ? & ?). eauto using extends_trans.
  - destruct Hk as (? & ?). eauto using extends_trans.
Qed.

Lemma hoare_conseq {A} (P P' : store -> Prop) (m : M A)
    (Q Q' : A -> store -> Prop) :
  (forall st, proofStore Good st -> P' st -> P st) ->
  (forall a st, proofStore Good st -> Q a st -> Q' a st) ->
  hoare Good P m Q -> hoare Good P' m Q'.
Proof.
  intros HP HQ Hm st Hps HP'. specialize (Hm st Hps (HP st Hps HP')).
  destruct (m st); [|done]. destruct Hm as (? & ? & ?). auto.
Qed.

Lemma hoare_if {A} P (b : bool) (m1 m2 : M A) Q :
  (b = true -> hoare Good P m1 Q) -> (b = false -> hoare Good P m2 Q) ->
  hoare Good P (if b then m1 else m2) Q.
Proof. destruct b; auto. Qed.

Lemma hoare_mapHas P s :
  hoare Good P (mapHas s) (fun b st => P st /\ (b = true -> hasKey st s)).
Proof.
  intros st Hps HP. simpl. split; [done|]. split; [apply extends_refl|].
  split; [done|]. by intros ?%bool_decide_eq_true.
Qed.

Lemma hoare_mapGetExpr P s :
  hoare Good P (mapGetExpr s) (fun e st => P st /\ factAt st s e).
Proof.
  intros st Hps HP. unfold mapGetExpr. destruct (map st !! s) as [ent|] eqn:E.
  - split; [done|]. split; [apply extends_refl|]. split; [done|]. by exists ent.
  - split; [done|apply extends_refl].
Qed.

Lemma hoare_addExpr P goalStr e why from :
  stable P ->
  (forall st, proofStore Good st -> P st ->
              Good e /\ forall d, d ∈ from -> hasKey st d) ->
  hoare Good P (addExpr goalStr e why from) (fun _ st => P st).
Proof.
  intros HPs Hpre st Hps HP. destruct (Hpre st Hps HP) as [He Hfrom].
  destruct (decide (hasKey st (exprToStr e))) as [Hin|Hn].
  - unfold addExpr. rewrite bool_decide_eq_true_2 by done.
    auto using extends_refl.
  - rewrite addExpr_fresh by done.
    pose proof (proofStore_added e why from st Hps Hn He Hfrom).
    pose proof (extends_added e why from st Hn).
    destruct (String.eqb _ _); eauto.
Qed.

Lemma hoare_tryAdd P goalStr e why from changed :
  stable P ->
  (forall st, proofStore Good st -> P st ->
              Good e /\ forall d, d ∈ from -> hasKey st d) ->
  hoare Good P (tryAdd goalStr e why from changed) (fun _ st => P st).
Proof.
  intros HPs Hpre. unfold tryAdd.
  apply (hoare_bind _ _ (fun _ st => P st)); [by apply hoare_addExpr|].
  intros a. by apply hoare_ret.
Qed.

Lemma hoare_forOf {A} P (body : string -> A -> M A) xs :
  (forall x a, x ∈ xs -> hoare Good P (body x a) (fun _ st => P st)) ->
  forall a, hoare Good P (forOf body xs a) (fun _ st => P st).
Proof.
  induction xs as [|x xs IH]; intros Hb a; simpl.
  - by apply hoare_ret.
  - apply (hoare_bind _ _ (fun _ st => P st)).
    + apply Hb. by left.
    + intros a'. apply IH. intros y b Hy. apply Hb. by right.
Qed.


Lemma stable_and (P Q : store -> Prop) :
  stable P -> stable Q -> stable (fun st => P st /\ Q st).
Proof. intros HP HQ st st' Hex [? ?]. split; [by apply (HP st)|by apply (HQ st)]. Qed.

Lemma stable_hasKey (cond : Prop) s : stable (fun st => cond -> hasKey st s).
Proof. intros st st' Hex H Hcond. by apply (extends_hasKey st), H. Qed.

Lemma stable_factAt s e : stable (fun st => factAt st s e).
Proof. intros st st' Hex H. by apply (extends_factAt st). Qed.

Lemma stable_True : stable (fun _ => True).
Proof. by intros st st' _ _. Qed.

#[local] Hint Resolve stable_and stable_hasKey stable_factAt stable_True : core.

(** Addition of a fact under a precondition stronger than the one kept. *)
Lemma hoare_tryAdd_weaken (P P' : store -> Prop) goalStr e why from changed :
  stable P' ->
  (forall st, proofStore Good st -> P' st ->
              P st /\ Good e /\ forall d, d ∈ from -> hasKey st d) ->
  hoare Good P' (tryAdd goalStr e why from changed) (fun _ st => P st).
Proof.
  intros Hs Hpre.
  apply (hoare_conseq P' P' _ (fun _ st => P' st)); [done| |].
  - intros _ st Hps HP'. by destruct (Hpre st Hps HP').
  - apply hoare_tryAdd; [done|]. intros st Hps HP'.
    by destruct (Hpre st Hps HP') as (_ & ? & ?).
Qed.

Lemma hoare_ret_weaken {A} (P P' : store -> Prop) (a : A) :
  (forall st, P' st -> P st) -> hoare Good P' (mret a) (fun _ st => P st).
Proof. intros H. apply hoare_ret. auto. Qed.

Lemma keys_cited st (k1 k2 : string) :
  hasKey st k1 -> hasKey st k2 -> forall d, d ∈ [k1; k2] -> hasKey st d.
Proof.
  intros H1 H2 d. rewrite !elem_of_cons, elem_of_nil.
  intros [->|[->|[]]]; done.
Qed.

Section RulesRecords.
Variable goalExpr : expr.
Implicit Types (P : store -> Prop).

Lemma hoare_implicationRules P s t l r f changed :
  stable P ->
  (forall st, P st -> factAt st s (Imp l r) /\ factAt st t f) ->
  hoare Good P (implicationRules goalExpr s t l r f changed) (fun _ st => P st).
Proof.
  intros HP Hfacts. unfold implicationRules.
  eapply hoare_bind; [apply hoare_mapHas|]. intros hasLeft.
  apply (hoare_bind _ _ (fun _ st => P st)).
  { apply hoare_if; intros ->.
    - apply hoare_tryAdd_weaken; [auto|]. intros st Hps [HPst Hk].
      destruct (Hfacts st HPst) as [Hs Ht].
      destruct (proofStore_fact st s _ Hps Hs) as [He _].
      destruct (proofStore_key st _ Hps (Hk eq_refl)) as (l' & Hl' & El').
      split; [done|]. split; [by apply (closed_mp Good HGood l r l')|].
      apply keys_cited; [by apply (factAt_hasKey st s (Imp l r))|auto].
    - apply hoare_ret_weaken. by intros st [? _]. }
  intros c1. eapply hoare_bind; [apply hoare_mapHas|]. intros hasNegRight.
  apply (hoare_bind _ _ (fun _ st => P st)).
  { apply hoare_if; intros ->.
    - apply hoare_tryAdd_weaken; [auto|]. intros st Hps [HPst Hk].
      destruct (Hfacts st HPst) as [Hs Ht].
      destruct (proofStore_fact st s _ Hps Hs) as [He _].
      destruct (proofStore_key st _ Hps (Hk eq_refl)) as (n & Hn & En).
      split; [done|]. split; [by apply (closed_mt Good HGood l r n)|].
      apply keys_cited; [by apply (factAt_hasKey st s (Imp l r))|auto].
    - apply hoare_ret_weaken. by intros st [? _]. }
  intros c2. destruct f as [| |?|?|fl fr]; try (by apply hoare_ret).
  case_bool_decide as Heq; [|by apply hoare_ret]. subst fl.
  apply hoare_tryAdd; [done|]. intros st Hps HPst.
  destruct (Hfacts st HPst) as [Hs Ht].
  destruct (proofStore_fact st s _ Hps Hs) as [He _].
  destruct (proofStore_fact st t _ Hps Ht) as [Hf _].
  split; [by apply (closed_hs Good HGood l r fr)|].
  apply keys_cited; [by apply (factAt_hasKey st s (Imp l r))|].
  by apply (factAt_hasKey st t (Imp r fr)).
Qed.

Lemma hoare_disjunctionRules P s l r changed :
  stable P ->
  (forall st, P st -> factAt st s (Or l r)) ->
  hoare Good P (disjunctionRules goalExpr s l r changed) (fun _ st => P st).
Proof.
  intros HP Hfacts. unfold disjunctionRules.
  eapply hoare_bind; [apply hoare_mapHas|]. intros hasNotA.
  apply (hoare_bind _ _ (fun _ st => P st)).
  { apply hoare_if; intros ->.
    - apply hoare_tryAdd_weaken; [auto|]. intros st Hps [HPst Hk].
      pose proof (Hfacts st HPst) as Hs.
      destruct (proofStore_fact st s _ Hps Hs) as [He _].
      destruct (proofStore_key st _ Hps (Hk eq_refl)) as (n & Hn & En).
      split; [done|]. split; [by apply (closed_ds_l Good HGood l r n)|].
      apply keys_cited; [by apply (factAt_hasKey st s (Or l r))|auto].
    - apply hoare_ret_weaken. by intros st [? _]. }
  intros c1. eapply hoare_bind; [apply hoare_mapHas|]. intros hasNotB.
  apply hoare_if; intros ->.
  - apply hoare_tryAdd_weaken; [auto|]. intros st Hps [HPst Hk].
    pose proof (Hfacts st HPst) as Hs.
    destruct (proofStore_fact st s _ Hps Hs) as [He _].
    destruct (proofStore_key st _ Hps (Hk eq_refl)) as (n & Hn & En).
    split; [done|]. split; [by apply (closed_ds_r Good HGood l r n)|].
    apply keys_cited; [by apply (factAt_hasKey st s (Or l r))|auto].
  - apply hoare_ret_weaken. by intros st [? _].
Qed.

Lemma hoare_conjunctionRule P s t e f changed :
  stable P ->
  (forall st, P st -> factAt st s e /\ factAt st t f) ->
  hoare Good P (conjunctionRule goalExpr e f changed) (fun _ st => P st).
Proof.
  intros HP Hfacts. unfold conjunctionRule.
  destruct goalExpr as [| |goalLeft goalRight| |]; try (by apply hoare_ret).
  eapply hoare_bind; [apply hoare_mapHas|]. intros hasA.
  eapply hoare_bind; [apply hoare_mapHas|]. intros hasB.
  apply hoare_if; intros Hc; [|apply hoare_ret_weaken; by intros st [[? _] _]].
  apply hoare_if; intros _; [|apply hoare_ret_weaken; by intros st [[? _] _]].
  apply andb_true_iff in Hc as [Hc ->]. apply andb_true_iff in Hc as [_ ->].
  apply hoare_tryAdd_weaken; [auto|]. intros st Hps [[HPst Ha] Hb].
  destruct (Hfacts st HPst) as [Hs Ht].
  destruct (proofStore_fact st s _ Hps Hs) as [He _].
  destruct (proofStore_fact st t _ Hps Ht) as [Hf _].
  split; [done|]. split; [by apply (closed_ci Good HGood)|].
  apply keys_cited; auto.
Qed.

Lemma hoare_pairRules P s e t changed :
  stable P ->
  (forall st, P st -> factAt st s e) ->
  hoare Good P (pairRules goalExpr s e t changed) (fun _ st => P st).
Proof.
  intros HP Hfacts. unfold pairRules.
  destruct (String.eqb s t); [by apply hoare_ret|].
  eapply hoare_bind; [apply hoare_mapGetExpr|]. intros f. simpl.
  assert (HP' : stable (fun st => P st /\ factAt st t f)) by auto.
  apply (hoare_bind _ _ (fun _ st => P st /\ factAt st t f)).
  { destruct e as [| | | |l r]; try (by apply hoare_ret).
    apply hoare_implicationRules; [done|].
    intros st [HPst Ht]. auto. }
  intros c1. apply (hoare_bind _ _ (fun _ st => P st /\ factAt st t f)).
  { destruct e as [| | |l r|]; try (by apply hoare_ret).
    apply hoare_disjunctionRules; [done|].
    intros st [HPst Ht]. auto. }
  intros c2.
  apply (hoare_conseq (fun st => P st /\ factAt st t f) _ _
           (fun _ st => P st /\ factAt st t f)); [done|by intros _ st _ [? _]|].
  apply (hoare_conjunctionRule _ s t); [done|].
  intros st [HPst Ht]. auto.
Qed.

Lemma hoare_factRules P keys s changed :
  stable P ->
  hoare Good P (factRules goalExpr keys s changed) (fun _ st => P st).
Proof.
  intros HP. unfold factRules.
  eapply hoare_bind; [apply hoare_mapGetExpr|]. intros e. simpl.
  assert (HP' : stable (fun st => P st /\ factAt st s e)) by auto.
  assert (Hsimp : forall l r x why c,
            e = And l r -> (x = l \/ x = r) ->
            hoare Good (fun st => P st /\ factAt st s e)
              (tryAdd (exprToStr goalExpr) x why [s] c)
              (fun _ st => P st /\ factAt st s e)).
  { intros l r x why c -> Hx. apply hoare_tryAdd; [done|].
    intros st Hps [HPst Hs].
    destruct (proofStore_fact st s _ Hps Hs) as [He _].
    destruct (closed_simp Good HGood l r He) as [Hl Hr]. split.
    - by destruct Hx as [->| ->].
    - intros d ->%list_elem_of_singleton. by apply (factAt_hasKey st s (And l r)). }
  apply (hoare_bind _ _ (fun _ st => P st /\ factAt st s e)).
  { destruct e as [| |l r| |]; try (by apply hoare_ret).
    eapply hoare_bind; [apply (Hsimp l r); auto|].
    intros c. simpl. apply (Hsimp l r); auto. }
  intros c.
  apply (hoare_conseq (fun st => P st /\ factAt st s e) _ _
           (fun _ st => P st /\ factAt st s e)); [done|by intros _ st _ [? _]|].
  apply hoare_forOf. intros t c' _. apply hoare_pairRules; [done|].
  by intros st [_ ?].
Qed.

(** One pass keeps the records in order. *)
Lemma pass_proofStore st :
  proofStore Good st ->
  match pass goalExpr st with
  | Val _ st' | Exc _ st' => proofStore Good st' /\ extends st st'
  end.
Proof.
  intros Hps. unfold pass.
  pose proof (hoare_forOf (fun _ => True) (factRules goalExpr (order st))
                (order st)
                (fun s c _ => hoare_factRules _ (order st) s c stable_True)
                false st Hps I) as H.
  destruct (forOf _ _ _ _); [|done]. by destruct H as (? & ? & _).
Qed.

Lemma whileLoop_proofStore fuel :
  forall changed safety st r,
    proofStore Good st ->
    whileLoop goalExpr fuel changed safety st = Some r ->
    match r with
    | Val _ st' | Exc _ st' => proofStore Good st' /\ extends st st'
    end.
Proof.
  induction fuel as [|fuel IH]; intros changed safety st r Hps H; [done|].
  cbn [whileLoop] in H.
  destruct (changed && (safety <? safetyBound)%nat).
  - pose proof (pass_proofStore st Hps) as Hp.
    destruct (pass goalExpr st) as [c st'|e st'].
    + destruct Hp as [Hps' Hex]. specialize (IH _ _ _ _ Hps' H).
      destruct r; destruct IH; eauto using extends_trans.
    + by injection H as <-.
  - injection H as <-. auto using extends_refl.
Qed.
End RulesRecords.

Lemma addPremises_proofStore goalStr exs :
  (forall e, e ∈ exs -> Good e) ->
  forall idx, hoare Good (fun _ => True) (addPremises goalStr idx exs)
                (fun _ _ => True).
Proof.
  induction exs as [|ex exs IH]; intros Hall idx; simpl.
  - by apply hoare_ret.
  - apply (hoare_bind _ _ (fun _ _ => True)).
    + apply hoare_addExpr; [done|]. intros st _ _. split.
      * apply Hall. by left.
      * by intros d ?%elem_of_nil.
    + intros _. apply IH. intros e He. apply Hall. by right.
Qed.

Lemma addAssumptions_proofStore goalStr exs :
  (forall e, e ∈ exs -> Good e) ->
  hoare Good (fun _ => True) (addAssumptions goalStr exs) (fun _ _ => True).
Proof.
  induction exs as [|ex exs IH]; intros Hall; simpl.
  - by apply hoare_ret.
  - apply (hoare_bind _ _ (fun _ _ => True)).
    + apply hoare_addExpr; [done|]. intros st _ _. split.
      * apply Hall. by left.
      * by intros d ?%elem_of_nil.
    + intros _. apply IH. intros e He. apply Hall. by right.
Qed.

Lemma initialize_proofStore goalStr premiseExprs extraAssumptions :
  (forall e, e ∈ premiseExprs ++ extraAssumptions -> Good e) ->
  match initialize goalStr premiseExprs extraAssumptions (Store ∅ []) with
  | Val _ st | Exc _ st => proofStore Good st
  end.
Proof.
  intros Hall.
  assert (H : hoare Good (fun _ => True)
                (initialize goalStr premiseExprs extraAssumptions)
                (fun _ _ => True)).
  { unfold initialize. apply (hoare_bind _ _ (fun _ _ => True)).
    - apply addPremises_proofStore. intros e He. apply Hall, elem_of_app. auto.
    - intros _. apply addAssumptions_proofStore. intros e He.
      apply Hall, elem_of_app. auto. }
  specialize (H _ proofStore_empty I).
  destruct (initialize _ _ _ _); by destruct H.
Qed.

(** The run returned by [forwardChain] keeps its records in order. *)
Lemma forwardChain_proofStore premiseExprs goalExpr extraAssumptions run :
  (forall e, e ∈ premiseExprs ++ extraAssumptions -> Good e) ->
  forwardChain premiseExprs goalExpr extraAssumptions = Returned run ->
  proofStore Good (runStore run).
Proof.
  intros Hall. unfold forwardChain, forwardChainFuel.
  pose proof (initialize_proofStore (exprToStr goalExpr) premiseExprs
                extraAssumptions Hall) as Hi.
  destruct (initialize _ _ _ _) as [[] st|e st]; [|done].
  destruct (whileLoop goalExpr passFuel true 0 st) as [r|] eqn:Hw; [|done].
  pose proof (whileLoop_proofStore goalExpr _ _ _ _ _ Hi Hw) as Hr.
  destruct r as [[c n] st'|[] st']; intros [= <-]; try done;
    destruct Hr as [Hr _]; by destruct st'.
Qed.
End Records.

(** ** Facts that are true *)

Lemma ruleClosed_True : ruleClosed (fun _ => True).
Proof. by split. Qed.

Lemma ruleClosed_trueFact v : ruleClosed (trueFact v).
Proof.
  unfold trueFact. split; simpl.
  - intros l r [Ho Hh]. apply andb_true_iff in Ho as [? ?].
    apply andb_true_iff in Hh as [? ?]. auto.
  - intros l r l' [Ho Hh] [Ho' Hh'] Heq. apply andb_true_iff in Ho as [Hl Hr].
    apply (exprToStr_operand_inj l' l Ho' Hl) in Heq as ->.
    rewrite Hh' in Hh. auto.
  - intros l r n [Ho Hh] [Ho' Hh'] Heq. apply andb_true_iff in Ho as [Hl Hr].
    apply (exprToStr_operand_inj n (Not r) Ho' Hr) in Heq as ->.
    simpl in Hh'. split; [done|]. simpl.
    destruct (holds v l), (holds v r); done.
  - intros l r fr [Ho Hh] [Ho' Hh']. apply andb_true_iff in Ho as [Hl Hr].
    apply andb_true_iff in Ho' as [_ Hfr]. split; [by rewrite Hl, Hfr|].
    destruct (holds v l), (holds v r), (holds v fr); done.
  - intros l r n [Ho Hh] [Ho' Hh'] Heq. apply andb_true_iff in Ho as [Hl Hr].
    apply (exprToStr_operand_inj n (Not l) Ho' Hl) in Heq as ->.
    simpl in Hh'. split; [done|]. destruct (holds v l), (holds v r); done.
  - intros l r n [Ho Hh] [Ho' Hh'] Heq. apply andb_true_iff in Ho as [Hl Hr].
    apply (exprToStr_operand_inj n (Not r) Ho' Hr) in Heq as ->.
    simpl in Hh'. split; [done|]. destruct (holds v l), (holds v r); done.
  - intros e f [Ho Hh] [Ho' Hh']. by rewrite Ho, Ho', Hh, Hh'.
Qed.

Lemma forallb_elem_of {A} (f : A -> bool) (l : list A) :
  forallb f l = true <-> forall x, x ∈ l -> f x = true.
Proof.
  rewrite forallb_forall. split; intros H x Hx; apply H; by apply list_elem_of_In.
Qed.

(** The records of a run on premises that are true under [v]. *)
Lemma forwardChain_trueFacts premiseExprs goalExpr extraAssumptions run v :
  forallb operandNames (premiseExprs ++ extraAssumptions) = true ->
  forallb (holds v) (premiseExprs ++ extraAssumptions) = true ->
  forwardChain premiseExprs goalExpr extraAssumptions = Returned run ->
  proofStore (trueFact v) (runStore run).
Proof.
  intros Ho Hv Hrun.
  apply (forwardChain_proofStore _ (ruleClosed_trueFact v) premiseExprs goalExpr
           extraAssumptions); [|done].
  intros e He. split.
  - by apply (proj1 (forallb_elem_of _ _) Ho).
  - by apply (proj1 (forallb_elem_of _ _) Hv).
Qed.

(** A goal reported as found is true under every valuation that satisfies
    the premises and the assumptions. *)
Lemma forwardChain_entails premiseExprs goalExpr extraAssumptions run v :
  forallb operandNames (premiseExprs ++ extraAssumptions) = true ->
  operandNames goalExpr = true ->
  forwardChain premiseExprs goalExpr extraAssumptions = Returned run ->
  goalFound run = true ->
  forallb (holds v) (premiseExprs ++ extraAssumptions) = true ->
  holds v goalExpr = true.
Proof.
  intros Ho Hg Hrun Hfound Hv.
  pose proof (forwardChain_trueFacts _ _ _ _ v Ho Hv Hrun) as Hps.
  pose proof (forwardChain_spec premiseExprs goalExpr extraAssumptions passFuel
                (le_n _)) as Hs.
  unfold forwardChain in Hrun. rewrite Hrun in Hs.
  destruct Hs as (_ & _ & Hiff & _). apply Hiff in Hfound.
  destruct (proofStore_key _ _ _ Hps Hfound) as (e & [Hoe Hhe] & Heq).
  by apply (exprToStr_operand_inj e goalExpr Hoe Hg) in Heq as <-.
Qed.

(** X13.  Soundness of the engine: when the variable names of the
    premises and of the assumptions are tokens, as those of every parsed
    expression are, every fact of a returned run is true under every
    valuation that satisfies the premises and the assumptions; so is the
    goal when it is reported as found. *)
Theorem forwardChain_sound premiseExprs goalExpr extraAssumptions run v :
  forallb operandNames (premiseExprs ++ extraAssumptions) = true ->
  forwardChain premiseExprs goalExpr extraAssumptions = Returned run ->
  forallb (holds v) (premiseExprs ++ extraAssumptions) = true ->
  (forall s ent, runMap run !! s = Some ent -> holds v (entryExpr ent) = true) /\
  (operandNames goalExpr = true -> goalFound run = true ->
   holds v goalExpr = true).
Proof.
  intros Ho Hrun Hv. split.
  - intros s ent Hent.
    pose proof (forwardChain_trueFacts _ _ _ _ v Ho Hv Hrun) as (_ & _ & Hr).
    by destruct (Hr s ent Hent) as (_ & [_ ?] & _).
  - intros Hg Hfound. by apply (forwardChain_entails premiseExprs goalExpr
                                  extraAssumptions run v).
Qed.

Lemma forwardChain_sound_witness :
  forallb operandNames (premisesMP ++ []) = true /\
  forwardChain premisesMP (Var "Q") [] = Returned (runMP true) /\
  forallb (holds (fun _ => true)) (premisesMP ++ []) = true /\
  holds (fun _ => true) (Var "Q") = true.
Proof.
  assert (forwardChain_MP_found :
    forwardChain premisesMP (Var "Q") [] = Returned (runMP true))
    by (vm_compute; reflexivity).
  split; [reflexivity|]. split; [exact forwardChain_MP_found|].
  split; [reflexivity|].
  apply (forwardChain_sound premisesMP (Var "Q") [] (runMP true)
           (fun _ => true) eq_refl forwardChain_MP_found eq_refl);
    reflexivity.
Defined.

Lemma attemptDeduction_entails premises goalExpr d v :
  forallb operandNames premises = true -> operandNames goalExpr = true ->
  attemptDeductionWithProof premises goalExpr = Returned d ->
  derived d = true ->
  forallb (holds v) premises = true -> holds v goalExpr = true.
Proof.
  intros Ho Hg Hd Hder Hv. unfold attemptDeductionWithProof in Hd.
  destruct (forwardChain premises goalExpr []) as [run| |] eqn:Hrun; [|done..].
  simpl in Hd. destruct (goalFound run) eqn:Hfound.
  - apply (forwardChain_entails premises goalExpr [] run v);
      rewrite ?app_nil_r; done.
  - destruct goalExpr as [| | | |A B];
      try (injection Hd as <-; discriminate).
    destruct (forwardChain premises B [A]) as [run2| |] eqn:Hrun2; [|done..].
    simpl in Hd. destruct (goalFound run2) eqn:Hfound2;
      [|injection Hd as <-; discriminate].
    simpl in Hg. apply andb_true_iff in Hg as [HA HB]. simpl.
    destruct (holds v A) eqn:EA; [|done]. simpl.
    apply (forwardChain_entails premises B [A] run2 v); try done.
    + rewrite forallb_app, Ho. simpl. by rewrite HA.
    + rewrite forallb_app, Hv. simpl. by rewrite EA.
Qed.

(** ** Passes that set the flag *)

Lemma addsM_ret c : addsM c (mret c).
Proof. intros st. simpl. unfold M_ret. auto. Qed.

Lemma addsM_bind c (m : M bool) (k : bool -> M bool) :
  addsM c m -> (forall c', addsM c' (k c')) -> addsM c (m ≫= k).
Proof.
  intros Hm Hk st. unfold mbind, M_bind. specialize (Hm st).
  destruct (m st) as [c' st'|]; [|done].
  specialize (Hk c' st'). destruct (k c' st') as [c'' st''|]; [|done].
  destruct Hm as [? Hm], Hk as [? Hk]. split; [lia|].
  intros Hc. destruct (Hk Hc) as [->|?]; [|right; lia].
  destruct (Hm eq_refl); [auto|right; lia].
Qed.

Lemma addsM_bind_pure {A} c (m : M A) (k : A -> M bool) :
  pureM m -> (forall a, addsM c (k a)) -> addsM c (m ≫= k).
Proof.
  intros Hm Hk st. unfold mbind, M_bind. specialize (Hm st).
  destruct (m st) as [a st'|]; [|done]. subst st'. apply Hk.
Qed.

Lemma addsM_if c (b : bool) (m1 m2 : M bool) :
  addsM c m1 -> addsM c m2 -> addsM c (if b then m1 else m2).
Proof. by destruct b. Qed.

Lemma addsM_tryAdd goalStr e why from c :
  addsM c (tryAdd goalStr e why from c).
Proof.
  intros st. unfold tryAdd, mbind, M_bind, addExpr.
  case_bool_decide; simpl.
  - unfold M_ret. auto.
  - destruct (String.eqb (exprToStr e) goalStr); simpl; [done|].
    unfold M_ret. rewrite length_app. simpl. split; [lia|]. intros _. right. lia.
Qed.

Lemma addsM_forOf (body : string -> bool -> M bool) xs :
  (forall x c, addsM c (body x c)) -> forall c, addsM c (forOf body xs c).
Proof.
  intros Hb. induction xs as [|x xs IH]; intros c; simpl.
  - apply addsM_ret.
  - apply addsM_bind; auto.
Qed.

Ltac addsM_step :=
  first
    [ apply addsM_ret
    | apply addsM_tryAdd
    | apply addsM_bind_pure;
      [first [apply pureM_mapHas | apply pureM_mapGetExpr]|intros ?]
    | apply addsM_bind; [|intros ?]
    | apply addsM_if ].

Lemma addsM_pairRules goalExpr s e t c :
  addsM c (pairRules goalExpr s e t c).
Proof.
  unfold pairRules. destruct (String.eqb s t); [apply addsM_ret|].
  apply addsM_bind_pure; [apply pureM_mapGetExpr|]. intros f.
  apply addsM_bind.
  { destruct e; try apply addsM_ret. unfold implicationRules.
    repeat addsM_step. destruct f; try apply addsM_ret.
    case_bool_decide; addsM_step. }
  intros c1. apply addsM_bind.
  { destruct e; try apply addsM_ret. unfold disjunctionRules.
    repeat addsM_step. }
  intros c2. unfold conjunctionRule.
  destruct goalExpr; try apply addsM_ret. repeat addsM_step.
Qed.

Lemma addsM_factRules goalExpr keys s c :
  addsM c (factRules goalExpr keys s c).
Proof.
  unfold factRules. apply addsM_bind_pure; [apply pureM_mapGetExpr|].
  intros e. apply addsM_bind.
  { destruct e; try apply addsM_ret. repeat addsM_step. }
  intros c'. apply addsM_forOf. intros t c''. apply addsM_pairRules.
Qed.

(** A pass that ends with [changed] set has added a fact. *)
Lemma pass_adds goalExpr st st' :
  pass goalExpr st = Val true st' ->
  (length (order st) < length (order st'))%nat.
Proof.
  unfold pass. intros H.
  pose proof (addsM_forOf (factRules goalExpr (order st)) (order st)
                (fun x c => addsM_factRules goalExpr (order st) x c) false st)
    as Hk.
  rewrite H in Hk. destruct Hk as [_ Hk]. by destruct (Hk eq_refl).
Qed.

(** While [changed] is set, [safety] counts passes that have each added a
    fact. *)
Lemma whileLoop_counts goalExpr fuel :
  forall changed safety st c n st',
    (changed = true -> (safety <= length (order st))%nat) ->
    whileLoop goalExpr fuel changed safety st = Some (Val (c, n) st') ->
    c = true -> (n <= length (order st'))%nat.
Proof.
  induction fuel as [|fuel IH]; intros changed safety st c n st' Hinv H Hc;
    [done|].
  cbn [whileLoop] in H.
  destruct (changed && (safety <? safetyBound)%nat) eqn:E.
  - apply andb_true_iff in E as [-> _].
    destruct (pass goalExpr st) as [c1 st1|] eqn:Hp; [|done].
    apply (IH c1 (S safety) st1 c n st'); [|done|done].
    intros ->. apply pass_adds in Hp. specialize (Hinv eq_refl). lia.
  - injection H as <- <- <-. auto.
Qed.

(** ** Passes that add nothing *)

Lemma bind_quiet c (m : M bool) (k : bool -> M bool) st st' :
  keepsM c m -> (forall c', keepsM c' (k c')) ->
  (m ≫= k) st = Val false st' ->
  m st = Val false st /\ k false st = Val false st /\ c = false /\ st' = st.
Proof.
  intros Hm Hk. unfold mbind, M_bind. specialize (Hm st).
  destruct (m st) as [c1 st1|]; [|done]. intros H.
  specialize (Hk c1 st1). rewrite H in Hk. destruct (Hk eq_refl) as [-> ->].
  destruct (Hm eq_refl) as [-> ->]. done.
Qed.

Lemma tryAdd_quiet goalStr e why from c st st' :
  tryAdd goalStr e why from c st = Val false st' ->
  hasKey st (exprToStr e).
Proof.
  unfold tryAdd, mbind, M_bind, addExpr. case_bool_decide; [done|]. simpl.
  destruct (String.eqb _ _); [done|]. unfold mret, M_ret. discriminate.
Qed.

Lemma forOf_quiet (body : string -> bool -> M bool) xs :
  (forall x c, keepsM c (body x c)) ->
  forall c st st',
    forOf body xs c st = Val false st' ->
    forall x, x ∈ xs -> body x false st = Val false st.
Proof.
  intros Hb. induction xs as [|y xs IH]; intros c st st' H x Hx.
  - by apply elem_of_nil in Hx.
  - simpl in H.
    apply (bind_quiet c) in H as (H1 & H2 & -> & ->);
      [|apply Hb|intros c'; by apply keepsM_forOf].
    apply elem_of_cons in Hx as [->|Hx]; [done|]. by apply (IH false st st).
Qed.

Ltac keeps := repeat keepsM_step.

Section Quiet.
Variable goalExpr : expr.
Variable st : store.
Hypothesis Hps : proofStore (fun _ => True) st.

Lemma implicationRules_quiet s t l r f :
  implicationRules goalExpr s t l r f false st = Val false st ->
  (hasKey st (exprToStr l) -> hasKey st (exprToStr r)) /\
  (hasKey st (exprToStr (Not r)) -> hasKey st (exprToStr (Not l))) /\
  (forall fr, f = Imp r fr -> hasKey st (exprToStr (Imp l fr))).
Proof.
  unfold implicationRules. intros H.
  change (mapHas (exprToStr l) ≫= ?k) with
    (fun st' => k (bool_decide (hasKey st' (exprToStr l))) st') in H.
  cbv beta in H.
  apply (bind_quiet false) in H as (H1 & H & _);
    [|keeps|intros c'; keeps; destruct f; keeps; case_bool_decide; keeps].
  change (mapHas (exprToStr (Not r)) ≫= ?k) with
    (fun st' => k (bool_decide (hasKey st' (exprToStr (Not r)))) st') in H.
  cbv beta in H.
  apply (bind_quiet false) in H as (H2 & H & _);
    [|keeps|intros c'; destruct f; keeps; case_bool_decide; keeps].
  split; [|split].
  - intros Hk. rewrite bool_decide_eq_true_2 in H1 by done.
    by apply tryAdd_quiet in H1.
  - intros Hk. rewrite bool_decide_eq_true_2 in H2 by done.
    by apply tryAdd_quiet in H2.
  - intros fr ->. rewrite bool_decide_eq_true_2 in H by done.
    by apply tryAdd_quiet in H.
Qed.

Lemma disjunctionRules_quiet s l r :
  disjunctionRules goalExpr s l r false st = Val false st ->
  (hasKey st (exprToStr (Not l)) -> hasKey st (exprToStr r)) /\
  (hasKey st (exprToStr (Not r)) -> hasKey st (exprToStr l)).
Proof.
  unfold disjunctionRules. intros H.
  change (mapHas (exprToStr (Not l)) ≫= ?k) with
    (fun st' => k (bool_decide (hasKey st' (exprToStr (Not l)))) st') in H.
  cbv beta in H.
  apply (bind_quiet false) in H as (H1 & H & _); [|keeps|intros c'; keeps].
  change (mapHas (exprToStr (Not r)) ≫= ?k) with
    (fun st' => k (bool_decide (hasKey st' (exprToStr (Not r)))) st') in H.
  cbv beta in H. split.
  - intros Hk. rewrite bool_decide_eq_true_2 in H1 by done.
    by apply tryAdd_quiet in H1.
  - intros Hk. rewrite bool_decide_eq_true_2 in H by done.
    by apply tryAdd_quiet in H.
Qed.

Lemma conjunctionRule_quiet goalLeft goalRight e f :
  goalExpr = And goalLeft goalRight ->
  conjunctionRule goalExpr e f false st = Val false st ->
  exprToStr e <> exprToStr f ->
  hasKey st (exprToStr e) -> hasKey st (exprToStr f) ->
  (exprToStr e = exprToStr goalLeft /\ exprToStr f = exprToStr goalRight) \/
  (exprToStr f = exprToStr goalLeft /\ exprToStr e = exprToStr goalRight) ->
  hasKey st (exprToStr (And e f)).
Proof.
  intros Hg. unfold conjunctionRule. rewrite Hg. intros H Hne Ha Hb Hm.
  change (mapHas (exprToStr e) ≫= ?k) with
    (fun st' => k (bool_decide (hasKey st' (exprToStr e))) st') in H.
  cbv beta in H.
  change (mapHas (exprToStr f) ≫= ?k) with
    (fun st' => k (bool_decide (hasKey st' (exprToStr f))) st') in H.
  cbv beta in H.
  rewrite !bool_decide_eq_true_2 in H by done.
  apply String.eqb_neq in Hne. rewrite Hne in H. cbn [negb andb] in H.
  assert (Hc : (String.eqb (exprToStr e) (exprToStr goalLeft)
                && String.eqb (exprToStr f) (exprToStr goalRight))
               || (String.eqb (exprToStr f) (exprToStr goalLeft)
                   && String.eqb (exprToStr e) (exprToStr goalRight)) = true).
  { destruct Hm as [[-> ->]|[-> ->]]; rewrite !String.eqb_refl; simpl;
      [done|apply orb_true_r]. }
  rewrite Hc in H. by apply tryAdd_quiet in H.
Qed.

Lemma pairRules_quiet s e t :
  s <> t ->
  pairRules goalExpr s e t false st = Val false st ->
  exists f, factAt st t f /\
    (forall l r, e = Imp l r ->
       implicationRules goalExpr s t l r f false st = Val false st) /\
    (forall l r, e = Or l r ->
       disjunctionRules goalExpr s l r false st = Val false st) /\
    conjunctionRule goalExpr e f false st = Val false st.
Proof.
  intros Hne. unfold pairRules. apply String.eqb_neq in Hne. rewrite Hne.
  unfold mbind at 1, M_bind at 1, mapGetExpr.
  destruct (map st !! t) as [ent|] eqn:Hent; [|done].
  intros H. exists (entryExpr ent). split; [by exists ent|].
  apply (bind_quiet false) in H as (H1 & H & _).
  - apply (bind_quiet false) in H as (H2 & H & _).
    + split; [by intros l r ->|]. split; [by intros l r ->|done].
    + destruct e; keeps.
    + intros c'. unfold conjunctionRule. destruct goalExpr; keeps.
  - destruct e; try apply keepsM_ret. unfold implicationRules. keeps.
    destruct (entryExpr ent); keeps; case_bool_decide; keeps.
  - intros c'. apply keepsM_bind.
    + destruct e; try apply keepsM_ret. unfold disjunctionRules. keeps.
    + intros c''. unfold conjunctionRule. destruct goalExpr; keeps.
Qed.

Lemma factRules_quiet keys s :
  factRules goalExpr keys s false st = Val false st ->
  exists e, factAt st s e /\
    (forall l r, e = And l r ->
       hasKey st (exprToStr l) /\ hasKey st (exprToStr r)) /\
    forall t, t ∈ keys -> pairRules goalExpr s e t false st = Val false st.
Proof.
  unfold factRules. unfold mbind at 1, M_bind at 1, mapGetExpr.
  destruct (map st !! s) as [ent|] eqn:Hent; [|done].
  intros H. exists (entryExpr ent). split; [by exists ent|].
  apply (bind_quiet false) in H as (H1 & H & _).
  - split.
    + intros l r E. rewrite E in H1.
      apply (bind_quiet false) in H1 as (Hl & Hr & _);
        [|keeps|intros c'; keeps].
      split; [by apply tryAdd_quiet in Hl|by apply tryAdd_quiet in Hr].
    + apply (forOf_quiet _ keys (fun t c => keepsM_pairRules goalExpr s _ t c)
               false st st H).
  - destruct (entryExpr ent); keeps.
  - intros c'. apply keepsM_forOf. intros t c''. apply keepsM_pairRules.
Qed.
End Quiet.

Lemma string_length_app (s1 s2 : string) :
  String.length (s1 ++ s2) = (String.length s1 + String.length s2)%nat.
Proof. induction s1 as [|c s1 IH]; simpl; [done|]. by rewrite IH. Qed.

Lemma exprToStr_Not_head e : exists r, exprToStr (Not e) = String "~" r.
Proof. destruct e; simpl; eauto. Qed.

Lemma exprToStr_Imp_left l r : exprToStr (Imp l r) <> exprToStr l.
Proof.
  simpl. intros H. apply (f_equal String.length) in H.
  simpl in H. rewrite !string_length_app in H. simpl in H. lia.
Qed.

Lemma exprToStr_Imp_Not l r e : exprToStr (Imp l r) <> exprToStr (Not e).
Proof. destruct (exprToStr_Not_head e) as [x ->]. simpl. discriminate. Qed.

Lemma exprToStr_Or_Not l r e : exprToStr (Or l r) <> exprToStr (Not e).
Proof. destruct (exprToStr_Not_head e) as [x ->]. simpl. discriminate. Qed.

Lemma factAt_inj st s e e' : factAt st s e -> factAt st s e' -> e = e'.
Proof. intros (ent & H & <-) (ent' & H' & <-). congruence. Qed.

(** A pass that adds nothing leaves a store to which no rule applies. *)
Lemma pass_saturated goalExpr st st' :
  proofStore (fun _ => True) st ->
  pass goalExpr st = Val false st' -> saturated goalExpr st.
Proof.
  intros Hps Hpass. pose proof (pass_quiet _ _ _ Hpass) as ->.
  pose proof Hps as (Hwf & _ & _).
  assert (Hfact : forall s e, factAt st s e ->
            (forall l r, e = And l r ->
               hasKey st (exprToStr l) /\ hasKey st (exprToStr r)) /\
            forall t, hasKey st t ->
              pairRules goalExpr s e t false st = Val false st).
  { intros s e Hs.
    assert (Hin : s ∈ order st) by (by apply Hwf, (factAt_hasKey st s e)).
    pose proof (forOf_quiet _ (order st)
                  (fun x c => keepsM_factRules goalExpr (order st) x c)
                  false st st Hpass s Hin) as Hf.
    apply factRules_quiet in Hf as (e' & He' & Hsimp & Hpairs).
    rewrite (factAt_inj st s e e' Hs He'). split; [done|].
    intros t Ht. by apply Hpairs, Hwf. }
  assert (Hpair : forall s e t f, factAt st s e -> factAt st t f -> s <> t ->
            (forall l r, e = Imp l r ->
               implicationRules goalExpr s t l r f false st = Val false st) /\
            (forall l r, e = Or l r ->
               disjunctionRules goalExpr s l r false st = Val false st) /\
            conjunctionRule goalExpr e f false st = Val false st).
  { intros s e t f Hs Ht Hne.
    destruct (Hfact s e Hs) as [_ Hp].
    specialize (Hp t (factAt_hasKey st t f Ht)).
    apply pairRules_quiet in Hp as (f' & Hf' & ?); [|done].
    by rewrite (factAt_inj st t f f' Ht Hf'). }
  split; [|split; [|split]].
  - intros s l r Hs. by apply (Hfact s (And l r) Hs).
  - intros s l r Hs.
    destruct (proofStore_fact _ st s _ Hps Hs) as [_ Es].
    assert (Hother : forall t, hasKey st t -> s <> t ->
              (hasKey st (exprToStr l) -> hasKey st (exprToStr r)) /\
              (hasKey st (exprToStr (Not r)) -> hasKey st (exprToStr (Not l)))).
    { intros t [ent Hent] Hne.
      destruct (Hpair s (Imp l r) t (entryExpr ent) Hs) as (Hi & _);
        [by exists ent|done|].
      specialize (Hi l r eq_refl).
      apply implicationRules_quiet in Hi as (? & ? & _). done. }
    split; [|split].
    + intros Hk. apply (Hother _ Hk); [|done]. rewrite Es.
      apply exprToStr_Imp_left.
    + intros Hk. apply (Hother _ Hk); [|done]. rewrite Es.
      apply exprToStr_Imp_Not.
    + intros t fr Ht. destruct (decide (s = t)) as [<-|Hne].
      * pose proof (factAt_inj st s _ _ Hs Ht) as Heq.
        assert (Imp l fr = Imp l r) as -> by (injection Heq; congruence).
        rewrite <- Es. by apply (factAt_hasKey st s (Imp l r)).
      * destruct (Hpair s (Imp l r) t (Imp r fr) Hs Ht Hne) as (Hi & _).
        specialize (Hi l r eq_refl).
        apply implicationRules_quiet in Hi as (_ & _ & Hhs). by apply Hhs.
  - intros s l r Hs.
    destruct (proofStore_fact _ st s _ Hps Hs) as [_ Es].
    assert (Hother : forall t, hasKey st t -> s <> t ->
              (hasKey st (exprToStr (Not l)) -> hasKey st (exprToStr r)) /\
              (hasKey st (exprToStr (Not r)) -> hasKey st (exprToStr l))).
    { intros t [ent Hent] Hne.
      destruct (Hpair s (Or l r) t (entryExpr ent) Hs) as (_ & Hd & _);
        [by exists ent|done|].
      specialize (Hd l r eq_refl). by apply disjunctionRules_quiet in Hd. }
    split.
    + intros Hk. apply (Hother _ Hk); [|done]. rewrite Es.
      apply exprToStr_Or_Not.
    + intros Hk. apply (Hother _ Hk); [|done]. rewrite Es.
      apply exprToStr_Or_Not.
  - intros goalLeft goalRight e f Hg Hne He Hf Hm.
    destruct (Hpair _ e _ f He Hf Hne) as (_ & _ & Hc).
    apply (conjunctionRule_quiet goalExpr st goalLeft goalRight e f); try done.
    + by apply (factAt_hasKey st _ e).
    + by apply (factAt_hasKey st _ f).
Qed.

(** When [forwardChain] gives up with fewer than 5000 facts recorded, no
    rule applies to the facts of the run. *)
Lemma forwardChain_fixed_point premiseExprs goalExpr extraAssumptions run :
  forwardChain premiseExprs goalExpr extraAssumptions = Returned run ->
  goalFound run = false ->
  (length (runOrder run) < safetyBound)%nat ->
  pass goalExpr (runStore run) = Val false (runStore run).
Proof.
  unfold forwardChain, forwardChainFuel. intros Hrun Hnf Hlen.
  pose proof (initialize_spec (exprToStr goalExpr) premiseExprs
                extraAssumptions) as Hi.
  destruct (initialize _ _ _ _) as [[] st|e st]; [|done].
  destruct Hi as (_ & Hwf & Hg).
  destruct (whileLoop_exit goalExpr passFuel true 0 st) as (r & Hr & Hex);
    [unfold passFuel; lia|lia|done|done|done|].
  rewrite Hr in Hrun.
  destruct Hex as [safety st' ? Hwf' ? Hg' Hp|st' Hwf' ? Hg'|st' Hwf' ? Hl Hk].
  - injection Hrun as <-. by destruct st'.
  - injection Hrun as <-. simpl in Hlen.
    pose proof (whileLoop_counts goalExpr passFuel true 0 st true safetyBound st')
      as Hc.
    specialize (Hc ltac:(simpl; lia) Hr eq_refl). lia.
  - injection Hrun as <-. done.
Qed.

(** ** The records of a run *)

Lemma forwardChain_records premiseExprs goalExpr extraAssumptions run :
  forwardChain premiseExprs goalExpr extraAssumptions = Returned run ->
  proofStore (fun _ => True) (runStore run).
Proof.
  apply (forwardChain_proofStore _ ruleClosed_True). done.
Qed.

(** X10.  Keys, order and numbering of a returned run: [order] has no
    repetition and lists exactly the keys of [map]; every record is kept
    under the canonical rendering of its expression, and its [stepOrder] is
    the position of that key in [order], counted from 1. *)
Theorem forwardChain_numbering premiseExprs goalExpr extraAssumptions run :
  forwardChain premiseExprs goalExpr extraAssumptions = Returned run ->
  NoDup (runOrder run) /\
  (forall s, s ∈ runOrder run <-> is_Some (runMap run !! s)) /\
  forall s ent, runMap run !! s = Some ent ->
    s = exprToStr (entryExpr ent) /\
    (0 < stepOrder ent)%nat /\
    runOrder run !! (stepOrder ent - 1)%nat = Some s.
Proof.
  intros Hrun.
  destruct (forwardChain_records _ _ _ _ Hrun) as (Hwf & Hnd & Hr).
  split; [done|]. split; [exact Hwf|].
  intros s ent Hent. destruct (Hr s ent Hent) as (? & _ & ? & ? & _). done.
Qed.

Lemma forwardChain_numbering_witness :
  forwardChain premisesMP (Var "Q") [] = Returned (runMP true) /\
  NoDup (runOrder (runMP true)) /\
  forall s ent, runMap (runMP true) !! s = Some ent ->
    s = exprToStr (entryExpr ent) /\ (0 < stepOrder ent)%nat /\
    runOrder (runMP true) !! (stepOrder ent - 1)%nat = Some s.
Proof.
  assert (forwardChain_MP_found :
    forwardChain premisesMP (Var "Q") [] = Returned (runMP true))
    by (vm_compute; reflexivity).
  split; [exact forwardChain_MP_found|].
  destruct (forwardChain_numbering premisesMP (Var "Q") [] (runMP true)
              forwardChain_MP_found) as (Hnd & _ & Hr).
  split; [exact Hnd|exact Hr].
Defined.

(** X11.  Citations go backwards: every string in the [derivedFrom] of a
    record of a returned run is the key of a record of the run with a
    smaller [stepOrder]. *)
Theorem forwardChain_citations premiseExprs goalExpr extraAssumptions run :
  forwardChain premiseExprs goalExpr extraAssumptions = Returned run ->
  forall s ent d,
    runMap run !! s = Some ent -> d ∈ derivedFrom ent ->
    exists ent', runMap run !! d = Some ent' /\
                 (stepOrder ent' < stepOrder ent)%nat.
Proof.
  intros Hrun s ent d Hent Hd.
  destruct (forwardChain_records _ _ _ _ Hrun) as (_ & _ & Hr).
  destruct (Hr s ent Hent) as (_ & _ & _ & _ & Hc). by apply Hc.
Qed.

Lemma forwardChain_citations_witness :
  forwardChain premisesMP (Var "Q") [] = Returned (runMP true) /\
  exists ent', runMap (runMP true) !! "P" = Some ent' /\
               (stepOrder ent' < 3)%nat.
Proof.
  assert (forwardChain_MP_found :
    forwardChain premisesMP (Var "Q") [] = Returned (runMP true))
    by (vm_compute; reflexivity).
  split; [exact forwardChain_MP_found|].
  apply (forwardChain_citations premisesMP (Var "Q") [] (runMP true)
           forwardChain_MP_found "Q"
           (Entry (Var "Q") "Modus Ponens from (P -> Q) and P"
              ["(P -> Q)"; "P"] 3) "P").
  - vm_compute. reflexivity.
  - simpl. rewrite !elem_of_cons. auto.
Defined.

(** X14.  When [forwardChain] returns without the goal and with fewer
    than 5000 facts recorded, it has stopped at a fixed point: no rule
    applies to the facts of the run any more.  (The loop is not left by its
    safety bound before 5000 facts are recorded, since every pass that
    sets [changed] adds a fact.) *)
Theorem forwardChain_saturated premiseExprs goalExpr extraAssumptions run :
  forwardChain premiseExprs goalExpr extraAssumptions = Returned run ->
  goalFound run = false ->
  (length (runOrder run) < safetyBound)%nat ->
  saturated goalExpr (runStore run).
Proof.
  intros Hrun Hnf Hlen.
  apply (pass_saturated goalExpr (runStore run) (runStore run)).
  - by apply (forwardChain_records premiseExprs goalExpr extraAssumptions).
  - by apply (forwardChain_fixed_point premiseExprs goalExpr extraAssumptions).
Qed.

Lemma forwardChain_saturated_witness :
  forwardChain premisesMP (Var "R") [] = Returned (runMP false) /\
  (length (runOrder (runMP false)) < safetyBound)%nat /\
  saturated (Var "R") (runStore (runMP false)).
Proof.
  assert (forwardChain_MP_other :
    forwardChain premisesMP (Var "R") [] = Returned (runMP false))
    by (vm_compute; reflexivity).
  split; [exact forwardChain_MP_other|].
  assert (Hlen : (length (runOrder (runMP false)) < safetyBound)%nat)
    by (vm_compute; lia).
  split; [exact Hlen|].
  apply (forwardChain_saturated premisesMP (Var "R") [] (runMP false)
           forwardChain_MP_other eq_refl Hlen).
Defined.

(** ** The premises of a run *)

Lemma addExpr_setAdd goalStr e why from st b st' :
  wfStore st ->
  addExpr goalStr e why from st = Val b st' ->
  order st' = setAdd (exprToStr e) (order st).
Proof.
  intros Hwf. unfold addExpr, setAdd.
  destruct (decide (hasKey st (exprToStr e))) as [Hk|Hk].
  - rewrite !bool_decide_eq_true_2; [|by apply Hwf|done]. by intros [= _ <-].
  - rewrite !bool_decide_eq_false_2; [|by rewrite (Hwf _)|done].
    destruct (String.eqb _ _); [done|]. by intros [= _ <-].
Qed.

Section Initial.
Variable goalStr : string.

Lemma addPremises_records exs :
  forall idx st u st',
    proofStore (fun _ => True) st ->
    addPremises goalStr idx exs st = Val u st' ->
    proofStore (fun _ => True) st' /\ extends st st' /\
    order st' = foldl (fun a x => setAdd x a) (order st) (exprToStr <$> exs) /\
    forall i p,
      exs !! i = Some p -> exprToStr p ∉ exprToStr <$> take i exs ->
      ~ hasKey st (exprToStr p) ->
      exists n, map st' !! exprToStr p =
                Some (Entry p ("Premise " ++ pretty (idx + i + 1)%nat) [] n).
Proof.
  induction exs as [|ex exs IH]; intros idx st u st' Hps H.
  - injection H as _ <-. split; [done|]. split; [apply extends_refl|].
    split; [done|]. by intros i p ?.
  - simpl in H. unfold mbind, M_bind in H.
    pose proof (hoare_addExpr (fun _ => True) (fun _ => True) goalStr ex
                  ("Premise " ++ pretty (idx + 1)%nat) [] stable_True) as Ha.
    specialize (Ha ltac:(by intros; split; [|intros d ?%elem_of_nil]) st Hps I).
    destruct (addExpr goalStr ex _ [] st) as [b st1|] eqn:Hadd; [|done].
    destruct Ha as (Hps1 & Hex1 & _).
    destruct (IH (S idx) st1 u st' Hps1 H) as (Hps' & Hex' & Ho & Hrec).
    split; [done|]. split; [by apply (extends_trans st st1)|]. split.
    { rewrite fmap_cons. simpl.
      by rewrite <- (addExpr_setAdd _ _ _ _ _ _ _ (proj1 Hps) Hadd). }
    intros [|i] p Hp Hnew Hk.
    + injection Hp as ->. rewrite addExpr_fresh in Hadd by done.
      destruct (String.eqb _ _); [done|]. injection Hadd as _ <-.
      eexists. eapply lookup_weaken; [|exact (proj1 Hex')].
      simpl. rewrite Nat.add_0_r. apply lookup_insert_eq.
    + simpl in Hp. rewrite firstn_cons, fmap_cons in Hnew.
      apply not_elem_of_cons in Hnew as [Hne Hnew].
      destruct (Hrec i p Hp Hnew) as [n Hn].
      * intros Hk1. apply Hk.
        destruct (decide (hasKey st (exprToStr ex))) as [Hin|Hn].
        -- unfold addExpr in Hadd. rewrite bool_decide_eq_true_2 in Hadd by done.
           by injection Hadd as _ <-.
        -- rewrite addExpr_fresh in Hadd by done.
           destruct (String.eqb _ _); [done|]. injection Hadd as _ <-.
           destruct Hk1 as [ent Hent]. simpl in Hent.
           rewrite lookup_insert_ne in Hent by done. by exists ent.
      * exists n. rewrite Hn.
        by replace (idx + S i + 1)%nat with (S idx + i + 1)%nat by lia.
Qed.

Lemma addAssumptions_records exs :
  forall st u st',
    proofStore (fun _ => True) st ->
    addAssumptions goalStr exs st = Val u st' ->
    proofStore (fun _ => True) st' /\ extends st st' /\
    order st' = foldl (fun a x => setAdd x a) (order st) (exprToStr <$> exs) /\
    forall i p,
      exs !! i = Some p -> exprToStr p ∉ exprToStr <$> take i exs ->
      ~ hasKey st (exprToStr p) ->
      exists n, map st' !! exprToStr p = Some (Entry p "Assumption" [] n).
Proof.
  induction exs as [|ex exs IH]; intros st u st' Hps H.
  - injection H as _ <-. split; [done|]. split; [apply extends_refl|].
    split; [done|]. by intros i p ?.
  - simpl in H. unfold mbind, M_bind in H.
    pose proof (hoare_addExpr (fun _ => True) (fun _ => True) goalStr ex "Assumption" []
                  stable_True) as Ha.
    specialize (Ha ltac:(by intros; split; [|intros d ?%elem_of_nil]) st Hps I).
    destruct (addExpr goalStr ex _ [] st) as [b st1|] eqn:Hadd; [|done].
    destruct Ha as (Hps1 & Hex1 & _).
    destruct (IH st1 u st' Hps1 H) as (Hps' & Hex' & Ho & Hrec).
    split; [done|]. split; [by apply (extends_trans st st1)|]. split.
    { rewrite fmap_cons. simpl.
      by rewrite <- (addExpr_setAdd _ _ _ _ _ _ _ (proj1 Hps) Hadd). }
    intros [|i] p Hp Hnew Hk.
    + injection Hp as ->. rewrite addExpr_fresh in Hadd by done.
      destruct (String.eqb _ _); [done|]. injection Hadd as _ <-.
      eexists. eapply lookup_weaken; [|exact (proj1 Hex')].
      simpl. apply lookup_insert_eq.
    + simpl in Hp. rewrite firstn_cons, fmap_cons in Hnew.
      apply not_elem_of_cons in Hnew as [Hne Hnew].
      apply (Hrec i p Hp Hnew).
      intros Hk1. apply Hk.
      destruct (decide (hasKey st (exprToStr ex))) as [Hin|Hn].
      * unfold addExpr in Hadd. rewrite bool_decide_eq_true_2 in Hadd by done.
        by injection Hadd as _ <-.
      * rewrite addExpr_fresh in Hadd by done.
        destruct (String.eqb _ _); [done|]. injection Hadd as _ <-.
        destruct Hk1 as [ent Hent]. simpl in Hent.
        rewrite lookup_insert_ne in Hent by done. by exists ent.
Qed.
End Initial.

Lemma elem_of_foldl_setAdd x l : forall acc,
  x ∈ foldl (fun a y => setAdd y a) acc l <-> x ∈ acc \/ x ∈ l.
Proof.
  induction l as [|y l IH]; intros acc; simpl.
  - rewrite elem_of_nil. tauto.
  - rewrite IH, elem_of_setAdd, elem_of_cons. tauto.
Qed.

Lemma firstOccurrences_foldl l :
  foldl (fun a y => setAdd y a) [] l = firstOccurrences l.
Proof. rewrite setAdd_foldl. simpl. apply filter_notin_nil. Qed.

(** X12.  The premises and the assumptions open the run: [order] starts
    with their renderings, in input order, each at its first occurrence.
    A premise that is not rendered like an earlier premise is recorded
    with the reason [Premise i], [i] its position in the input counted
    from 1, and an assumption that is not rendered like a premise or an
    earlier assumption with the reason [Assumption]; both cite nothing. *)
Theorem forwardChain_premises_first premiseExprs goalExpr extraAssumptions run :
  forwardChain premiseExprs goalExpr extraAssumptions = Returned run ->
  firstOccurrences (exprToStr <$> premiseExprs ++ extraAssumptions)
    `prefix_of` runOrder run /\
  (forall i p,
     premiseExprs !! i = Some p ->
     exprToStr p ∉ exprToStr <$> take i premiseExprs ->
     exists n, runMap run !! exprToStr p =
               Some (Entry p ("Premise " ++ pretty (i + 1)%nat) [] n)) /\
  (forall i a,
     extraAssumptions !! i = Some a ->
     exprToStr a ∉ exprToStr <$> premiseExprs ++ take i extraAssumptions ->
     exists n, runMap run !! exprToStr a = Some (Entry a "Assumption" [] n)).
Proof.
  unfold forwardChain, forwardChainFuel, initialize, mbind, M_bind.
  intros Hrun.
  destruct (addPremises _ 0 premiseExprs (Store ∅ [])) as [[] st1|]
    eqn:Hp; [|done].
  destruct (addPremises_records _ premiseExprs 0 _ _ _
              (proofStore_empty _) Hp) as (Hps1 & Hex1 & Ho1 & Hrec1).
  destruct (addAssumptions _ extraAssumptions st1) as [[] st2|] eqn:Ha;
    [|done].
  destruct (addAssumptions_records _ extraAssumptions _ _ _ Hps1 Ha)
    as (Hps2 & Hex2 & Ho2 & Hrec2).
  destruct (whileLoop goalExpr passFuel true 0 st2) as [r|] eqn:Hw; [|done].
  pose proof (whileLoop_proofStore _ ruleClosed_True goalExpr _ _ _ _ _ Hps2 Hw)
    as Hr.
  assert (Hrun' : exists st', extends st2 st' /\ runStore run = st').
  { destruct r as [[c n] st'|[] st']; try done; injection Hrun as <-;
      exists st'; (split; [apply Hr|by destruct st']). }
  destruct Hrun' as (st' & Hex' & Est). clear Hrun Hr Hw.
  assert (Hm : forall s ent, map st2 !! s = Some ent ->
                             runMap run !! s = Some ent).
  { intros s ent Hent. change (map (runStore run) !! s = Some ent).
    rewrite Est. eapply lookup_weaken; [done|apply Hex']. }
  split; [|split].
  - change (runOrder run) with (order (runStore run)). rewrite Est.
    etrans; [|apply Hex']. rewrite Ho2, Ho1. simpl.
    by rewrite <- foldl_app, <- fmap_app, firstOccurrences_foldl.
  - intros i p Hi Hnew. destruct (Hrec1 i p Hi Hnew) as [n Hn].
    { apply not_hasKey_empty. }
    exists n. apply Hm. eapply lookup_weaken; [done|apply Hex2].
  - intros i a Hi Hnew. rewrite fmap_app, not_elem_of_app in Hnew.
    destruct Hnew as [Hnp Hna].
    destruct (Hrec2 i a Hi Hna) as [n Hn]; [|exists n; by apply Hm].
    intros Hk. apply (proj1 Hps1) in Hk. rewrite Ho1 in Hk. simpl in Hk.
    apply elem_of_foldl_setAdd in Hk as [Hk|Hk]; [by apply elem_of_nil in Hk|].
    done.
Qed.

Lemma forwardChain_premises_first_witness :
  forwardChain premisesMP (Var "Q") [] = Returned (runMP true) /\
  firstOccurrences (exprToStr <$> premisesMP ++ [])
    `prefix_of` runOrder (runMP true).
Proof.
  assert (forwardChain_MP_found :
    forwardChain premisesMP (Var "Q") [] = Returned (runMP true))
    by (vm_compute; reflexivity).
  split; [exact forwardChain_MP_found|].
  apply (forwardChain_premises_first premisesMP (Var "Q") [] (runMP true)
           forwardChain_MP_found).
Defined.

(** ** The goal of a run *)

(** X22.  The search stops as soon as the goal is recorded: a returned run
    reports the goal as found exactly when the rendering of the goal is a
    key of its map, and the goal is then the last fact of its order; the
    goal of a returned run is rendered like no premise or assumption. *)
Theorem forwardChain_goal_last premiseExprs goalExpr extraAssumptions run :
  forwardChain premiseExprs goalExpr extraAssumptions = Returned run ->
  (exprToStr goalExpr ∉ exprToStr <$> premiseExprs ++ extraAssumptions) /\
  (goalFound run = true <-> is_Some (runMap run !! exprToStr goalExpr)) /\
  (goalFound run = true -> last (runOrder run) = Some (exprToStr goalExpr)).
Proof.
  intros Hrun.
  pose proof (forwardChain_spec premiseExprs goalExpr extraAssumptions passFuel
                (le_n _)) as Hs.
  unfold forwardChain in Hrun. rewrite Hrun in Hs.
  destruct Hs as (? & _ & ? & ?). done.
Qed.

Lemma forwardChain_goal_last_witness :
  forwardChain premisesMP (Var "Q") [] = Returned (runMP true) /\
  last (runOrder (runMP true)) = Some "Q".
Proof.
  assert (Hrun : forwardChain premisesMP (Var "Q") [] = Returned (runMP true))
    by (vm_compute; reflexivity).
  split; [exact Hrun|].
  apply (forwardChain_goal_last premisesMP (Var "Q") [] (runMP true) Hrun).
  reflexivity.
Defined.

Lemma ruleClosed_operandNames : ruleClosed (fun e => operandNames e = true).
Proof.
  split; simpl; intros; repeat match goal with
    | H : _ && _ = true |- _ => apply andb_true_iff in H as [? ?]
    end; try done; by apply andb_true_iff.
Qed.

(** The store left by the initialization, which the run extends. *)
Lemma forwardChain_initial premiseExprs goalExpr extraAssumptions run :
  forwardChain premiseExprs goalExpr extraAssumptions = Returned run ->
  exists st,
    extends st (runStore run) /\
    order st =
      firstOccurrences (exprToStr <$> (premiseExprs ++ extraAssumptions)) /\
    wfStore st.
Proof.
  unfold forwardChain, forwardChainFuel, initialize, mbind, M_bind.
  intros Hrun.
  destruct (addPremises _ 0 premiseExprs (Store ∅ [])) as [[] st1|]
    eqn:Hp; [|done].
  destruct (addPremises_records _ premiseExprs 0 _ _ _
              (proofStore_empty _) Hp) as (Hps1 & Hex1 & Ho1 & Hrec1).
  destruct (addAssumptions _ extraAssumptions st1) as [[] st2|] eqn:Ha;
    [|done].
  destruct (addAssumptions_records _ extraAssumptions _ _ _ Hps1 Ha)
    as (Hps2 & Hex2 & Ho2 & Hrec2).
  destruct (whileLoop goalExpr passFuel true 0 st2) as [r|] eqn:Hw; [|done].
  pose proof (whileLoop_proofStore _ ruleClosed_True goalExpr _ _ _ _ _ Hps2 Hw)
    as Hr.
  exists st2. split; [|split; [|apply Hps2]].
  - destruct r as [[c n] st'|[] st']; try done; injection Hrun as <-;
      destruct Hr as [_ Hr]; by destruct st'.
  - rewrite Ho2, Ho1. simpl.
    by rewrite <- foldl_app, <- fmap_app, firstOccurrences_foldl.
Qed.

Lemma elem_of_firstOccurrences x l : x ∈ firstOccurrences l <-> x ∈ l.
Proof.
  rewrite <- firstOccurrences_foldl, elem_of_foldl_setAdd, elem_of_nil. tauto.
Qed.

(** Every premise and assumption with tokens for variable names is a fact
    of the run. *)
Lemma forwardChain_premise_facts premiseExprs goalExpr extraAssumptions run p :
  forallb operandNames (premiseExprs ++ extraAssumptions) = true ->
  forwardChain premiseExprs goalExpr extraAssumptions = Returned run ->
  p ∈ premiseExprs ++ extraAssumptions ->
  factAt (runStore run) (exprToStr p) p.
Proof.
  intros Ho Hrun Hp.
  destruct (forwardChain_initial _ _ _ _ Hrun) as (st & Hex & Hord & Hwf).
  assert (Hk : hasKey (runStore run) (exprToStr p)).
  { apply (extends_hasKey st); [done|]. apply Hwf. rewrite Hord.
    apply elem_of_firstOccurrences, list_elem_of_fmap. eauto. }
  pose proof (forwardChain_proofStore _ ruleClosed_operandNames premiseExprs
                goalExpr extraAssumptions run) as Hps.
  destruct Hps as (_ & _ & Hr); [|done|].
  { intros e He. by apply (proj1 (forallb_elem_of _ _) Ho). }
  destruct Hk as [ent Hent]. exists ent. split; [done|].
  destruct (Hr _ _ Hent) as (Hs & Hoe & _).
  apply exprToStr_operand_inj; [done| |done].
  by apply (proj1 (forallb_elem_of _ _) Ho).
Qed.

(** X23.  One application of a rule is always found: when the goal
    follows from premises and assumptions with tokens for variable names
    by one application of Simplification, Modus Ponens, Modus Tollens,
    Hypothetical Syllogism, Disjunctive Syllogism or Conjunction
    Introduction (of two different facts), a run that returns with fewer
    than 5000 facts recorded reports the goal as found. *)
Theorem forwardChain_one_step premiseExprs goalExpr extraAssumptions run :
  forallb operandNames (premiseExprs ++ extraAssumptions) = true ->
  forwardChain premiseExprs goalExpr extraAssumptions = Returned run ->
  (length (runOrder run) < safetyBound)%nat ->
  oneStep (premiseExprs ++ extraAssumptions) goalExpr ->
  goalFound run = true.
Proof.
  intros Ho Hrun Hlen Hstep.
  destruct (goalFound run) eqn:Hfound; [done|]. exfalso.
  pose proof (forwardChain_spec premiseExprs goalExpr extraAssumptions passFuel
                (le_n _)) as Hs.
  pose proof Hrun as Hrun'. unfold forwardChain in Hrun'. rewrite Hrun' in Hs.
  destruct Hs as (_ & _ & Hiff & _).
  assert (Hno : ~ hasKey (runStore run) (exprToStr goalExpr)).
  { intros Hk. apply Hiff in Hk. congruence. }
  apply Hno. clear Hiff Hno Hrun'.
  assert (Hsat : saturated goalExpr (runStore run)).
  { apply (pass_saturated goalExpr (runStore run) (runStore run)).
    - by apply (forwardChain_records premiseExprs goalExpr extraAssumptions).
    - by apply (forwardChain_fixed_point premiseExprs goalExpr
                  extraAssumptions). }
  destruct Hsat as (Hsimp & Himp & Hor & Hci).
  pose proof (fun p => forwardChain_premise_facts premiseExprs goalExpr
                         extraAssumptions run p Ho Hrun) as Hfact.
  destruct Hstep as [l r H|l r H|l r H1 H2|l r H1 H2|l r fr H1 H2
                     |l r H1 H2|l r H1 H2|e f H1 H2 Hne].
  - by apply (Hsimp _ _ _ (Hfact _ H)).
  - by apply (Hsimp _ _ _ (Hfact _ H)).
  - apply (Himp _ _ _ (Hfact _ H1)). by apply (factAt_hasKey _ _ l), Hfact.
  - apply (Himp _ _ _ (Hfact _ H1)). by apply (factAt_hasKey _ _ (Not r)), Hfact.
  - destruct (Himp _ _ _ (Hfact _ H1)) as (_ & _ & Hhs).
    apply (Hhs (exprToStr (Imp r fr)) fr). by apply Hfact.
  - apply (Hor _ _ _ (Hfact _ H1)). by apply (factAt_hasKey _ _ (Not l)), Hfact.
  - apply (Hor _ _ _ (Hfact _ H1)). by apply (factAt_hasKey _ _ (Not r)), Hfact.
  - apply (Hci e f e f eq_refl); [|by apply Hfact|by apply Hfact|by left].
    intros Heq. apply Hne. apply exprToStr_operand_inj; [| |done].
    + by apply (proj1 (forallb_elem_of _ _) Ho).
    + by apply (proj1 (forallb_elem_of _ _) Ho).
Qed.

Lemma forwardChain_one_step_witness :
  forallb operandNames (premisesMP ++ []) = true /\
  forwardChain premisesMP (Var "Q") [] = Returned (runMP true) /\
  (length (runOrder (runMP true)) < safetyBound)%nat /\
  oneStep (premisesMP ++ []) (Var "Q") /\
  goalFound (runMP true) = true.
Proof.
  assert (Hrun : forwardChain premisesMP (Var "Q") [] = Returned (runMP true))
    by (vm_compute; reflexivity).
  assert (Hlen : (length (runOrder (runMP true)) < safetyBound)%nat)
    by (vm_compute; lia).
  assert (Hstep : oneStep (premisesMP ++ []) (Var "Q")).
  { apply (step_modus_ponens _ (Var "P") (Var "Q")); simpl;
      rewrite !elem_of_cons; auto. }
  split; [reflexivity|]. split; [exact Hrun|]. split; [exact Hlen|].
  split; [exact Hstep|].
  exact (forwardChain_one_step premisesMP (Var "Q") [] (runMP true) eq_refl
           Hrun Hlen Hstep).
Defined.

(** ** The reasons of a run *)

Section Preserves.
Variable J : store -> Prop.

Lemma preserves_ret {A} (a : A) : preserves J (mret a).
Proof. by intros st H. Qed.

Lemma preserves_bind {A B} (m : M A) (k : A -> M B) :
  preserves J m -> (forall a, preserves J (k a)) -> preserves J (m ≫= k).
Proof.
  intros Hm Hk st H. unfold mbind, M_bind. specialize (Hm st H).
  destruct (m st) as [a st'|]; [|done]. by apply Hk.
Qed.

Lemma preserves_if {A} (b : bool) (m1 m2 : M A) :
  preserves J m1 -> preserves J m2 -> preserves J (if b then m1 else m2).
Proof. by destruct b. Qed.

Lemma preserves_mapHas s : preserves J (mapHas s).
Proof. by intros st H. Qed.

Lemma preserves_mapGetExpr s : preserves J (mapGetExpr s).
Proof. intros st H. unfold mapGetExpr. by destruct (map st !! s). Qed.

Lemma preserves_forOf {A} (body : string -> A -> M A) xs :
  (forall x a, preserves J (body x a)) ->
  forall a, preserves J (forOf body xs a).
Proof.
  intros Hb. induction xs as [|x xs IH]; intros a; simpl.
  - apply preserves_ret.
  - apply preserves_bind; auto.
Qed.
End Preserves.

Lemma preserves_addExpr goalStr e why from :
  justified why from -> preserves justifiedStore (addExpr goalStr e why from).
Proof.
  intros Hj st H. unfold addExpr. case_bool_decide; [done|].
  assert (H' : justifiedStore
                 (Store (<[exprToStr e :=
                             Entry e why from (length (order st) + 1)]> (map st))
                        (order st ++ [exprToStr e]))).
  { intros s ent. simpl. destruct (decide (exprToStr e = s)) as [<-|Hne].
    - rewrite lookup_insert_eq. by intros [= <-].
    - rewrite lookup_insert_ne by done. apply H. }
  by destruct (String.eqb _ _).
Qed.

Lemma preserves_tryAdd goalStr e why from changed :
  justified why from ->
  preserves justifiedStore (tryAdd goalStr e why from changed).
Proof.
  intros Hj. unfold tryAdd. apply preserves_bind; [by apply preserves_addExpr|].
  intros a. apply preserves_ret.
Qed.

Lemma justified_two (rule a b : string) :
  rule ∈ binaryRules ->
  justified (rule ++ " from " ++ a ++ " and " ++ b) [a; b].
Proof. apply justified_binary. Qed.

Ltac binary_rule n :=
  apply preserves_tryAdd;
  match goal with
  | |- justified _ [?a; ?b] =>
      apply (justified_two n a b); unfold binaryRules;
      rewrite !elem_of_cons; tauto
  end.

Lemma preserves_pairRules goalExpr s e t changed :
  preserves justifiedStore (pairRules goalExpr s e t changed).
Proof.
  unfold pairRules. destruct (String.eqb s t); [apply preserves_ret|].
  apply preserves_bind; [apply preserves_mapGetExpr|]. intros f.
  apply preserves_bind.
  { destruct e; try apply preserves_ret. unfold implicationRules.
    apply preserves_bind; [apply preserves_mapHas|]. intros hasLeft.
    apply preserves_bind.
    { apply preserves_if; [binary_rule "Modus Ponens"|apply preserves_ret]. }
    intros c1. apply preserves_bind; [apply preserves_mapHas|].
    intros hasNegRight. apply preserves_bind.
    { apply preserves_if; [binary_rule "Modus Tollens"|apply preserves_ret]. }
    intros c2. destruct f; try apply preserves_ret.
    apply preserves_if; [binary_rule "Hypothetical Syllogism"
                        |apply preserves_ret]. }
  intros c1. apply preserves_bind.
  { destruct e; try apply preserves_ret. unfold disjunctionRules.
    apply preserves_bind; [apply preserves_mapHas|]. intros hasNotA.
    apply preserves_bind.
    { apply preserves_if; [binary_rule "Disjunctive Syllogism"
                          |apply preserves_ret]. }
    intros c2. apply preserves_bind; [apply preserves_mapHas|].
    intros hasNotB.
    apply preserves_if; [binary_rule "Disjunctive Syllogism"
                        |apply preserves_ret]. }
  intros c2. unfold conjunctionRule.
  destruct goalExpr; try apply preserves_ret.
  apply preserves_bind; [apply preserves_mapHas|]. intros hasA.
  apply preserves_bind; [apply preserves_mapHas|]. intros hasB.
  apply preserves_if; [|apply preserves_ret].
  apply preserves_if; [binary_rule "Conjunction Introduction"
                      |apply preserves_ret].
Qed.

Lemma preserves_factRules goalExpr keys s changed :
  preserves justifiedStore (factRules goalExpr keys s changed).
Proof.
  unfold factRules. apply preserves_bind; [apply preserves_mapGetExpr|].
  intros e. apply preserves_bind.
  { destruct e; try apply preserves_ret.
    apply preserves_bind; [|intros c];
      apply preserves_tryAdd, justified_simplification. }
  intros c. apply preserves_forOf. intros t c'. apply preserves_pairRules.
Qed.

Lemma preserves_whileLoop goalExpr fuel :
  forall changed safety st r,
    justifiedStore st ->
    whileLoop goalExpr fuel changed safety st = Some r ->
    match r with
    | Val _ st' | Exc _ st' => justifiedStore st'
    end.
Proof.
  induction fuel as [|fuel IH]; intros changed safety st r HJ H; [done|].
  cbn [whileLoop] in H.
  destruct (changed && (safety <? safetyBound)%nat).
  - pose proof (preserves_forOf justifiedStore
                  (factRules goalExpr (order st)) (order st)
                  (fun x c => preserves_factRules goalExpr (order st) x c)
                  false st HJ) as Hp.
    fold (pass goalExpr st) in Hp.
    destruct (pass goalExpr st) as [c st'|e st'].
    + by apply (IH c (S safety) st').
    + by injection H as <-.
  - by injection H as <-.
Qed.

Lemma preserves_addPremises goalStr exs :
  forall idx, preserves justifiedStore (addPremises goalStr idx exs).
Proof.
  induction exs as [|ex exs IH]; intros idx; simpl.
  - apply preserves_ret.
  - apply preserves_bind; [|intros _; apply IH].
    apply preserves_addExpr, justified_premise.
Qed.

Lemma preserves_addAssumptions goalStr exs :
  preserves justifiedStore (addAssumptions goalStr exs).
Proof.
  induction exs as [|ex exs IH]; simpl.
  - apply preserves_ret.
  - apply preserves_bind; [|intros _; apply IH].
    apply preserves_addExpr, justified_assumption.
Qed.

(** X26.  Every record of a returned run has a reason that goes with its
    citations: [Premise i] or [Assumption] with no citation,
    [Simplification from s] with the citation [s], or the name of one of
    the five rules that combine two facts, followed by [from a and b],
    with the citations [a] and [b]. *)
Theorem forwardChain_justified premiseExprs goalExpr extraAssumptions run :
  forwardChain premiseExprs goalExpr extraAssumptions = Returned run ->
  forall s ent, runMap run !! s = Some ent ->
                justified (reason ent) (derivedFrom ent).
Proof.
  unfold forwardChain, forwardChainFuel. intros Hrun.
  assert (Hi : preserves justifiedStore
                 (initialize (exprToStr goalExpr) premiseExprs
                    extraAssumptions)).
  { unfold initialize. apply preserves_bind; [apply preserves_addPremises|].
    intros _. apply preserves_addAssumptions. }
  specialize (Hi (Store ∅ [])).
  destruct (initialize _ _ _ _) as [[] st|]; [|done].
  assert (HJ : justifiedStore st).
  { apply Hi. intros s ent H. simpl in H. by rewrite lookup_empty in H. }
  destruct (whileLoop goalExpr passFuel true 0 st) as [r|] eqn:Hw; [|done].
  pose proof (preserves_whileLoop goalExpr _ _ _ _ _ HJ Hw) as Hr.
  destruct r as [[c n] st'|[] st']; try done; injection Hrun as <-;
    exact Hr.
Qed.

Lemma forwardChain_justified_witness :
  forwardChain premisesMP (Var "Q") [] = Returned (runMP true) /\
  justified "Modus Ponens from (P -> Q) and P" ["(P -> Q)"; "P"].
Proof.
  assert (Hrun : forwardChain premisesMP (Var "Q") [] = Returned (runMP true))
    by (vm_compute; reflexivity).
  split; [exact Hrun|].
  apply (forwardChain_justified premisesMP (Var "Q") [] (runMP true) Hrun "Q"
           (Entry (Var "Q") "Modus Ponens from (P -> Q) and P"
              ["(P -> Q)"; "P"] 3)).
  vm_compute. reflexivity.
Defined.

(** ** The listing of a run *)

Lemma buildLines_lines (m : gmap string entry) (keys : list string) :
  forall idx ls idx',
    buildLines m idx keys = Returned (ls, idx') ->
    length ls = length keys /\
    forall i s, keys !! i = Some s ->
      exists ent, m !! s = Some ent /\
                  ls !! i = Some (Step (idx + i) s (Recorded (reason ent))).
Proof.
  induction keys as [|s keys IH]; intros idx ls idx' H; simpl in H.
  - injection H as <- _. split; [done|]. by intros i s ?.
  - destruct (m !! s) as [ent|] eqn:Hent; [|done].
    destruct (buildLines m (S idx) keys) as [[ls1 idx1]| |] eqn:Hb; [|done..].
    injection H as <- _. destruct (IH _ _ _ Hb) as [Hlen Hl].
    split; [simpl; by rewrite Hlen|].
    intros [|i] s' Hs'.
    + injection Hs' as <-. exists ent. by rewrite Nat.add_0_r.
    + destruct (Hl i s' Hs') as (ent' & ? & Hi). exists ent'. split; [done|].
      simpl. rewrite Hi. by replace (idx + S i)%nat with (S idx + i)%nat by lia.
Qed.

(** X15.  The listing of a returned run is built without failure and has
    one line per fact, in the order of derivation: line [i] carries the
    number [i], which is the [stepOrder] of the record, its key and its
    reason; in an assumption run the line that discharges the assumption
    follows, with the next number. *)
Theorem listing_matches_records premiseExprs goalExpr extraAssumptions run
    title isAssumptionRun assumptionStr derivedStr :
  forwardChain premiseExprs goalExpr extraAssumptions = Returned run ->
  exists ls,
    buildStepsHtmlFromMap run title isAssumptionRun assumptionStr derivedStr =
    Returned
      (Listing title
         (if isAssumptionRun then
            ls ++ [Step (S (length ls)) (assumptionStr ++ " -> " ++ derivedStr)
                     Discharge]
          else ls)) /\
    length ls = length (runOrder run) /\
    forall i s, runOrder run !! i = Some s ->
      exists ent, runMap run !! s = Some ent /\
                  stepOrder ent = S i /\
                  ls !! i = Some (Step (S i) s (Recorded (reason ent))).
Proof.
  intros Hrun.
  destruct (forwardChain_records _ _ _ _ Hrun) as (Hwf & Hnd & Hr).
  unfold buildStepsHtmlFromMap.
  destruct (buildLines_ok (runMap run) (runOrder run) 1) as (ls & Hls & _).
  { intros s Hs. by apply (Hwf s). }
  destruct (buildLines_lines _ _ _ _ _ Hls) as [Hlen Hl].
  rewrite Hls. exists ls. simpl. rewrite Hlen. split; [done|]. split; [done|].
  intros i s Hs. destruct (Hl i s Hs) as (ent & Hent & Hi).
  exists ent. split; [done|].
  destruct (Hr s ent Hent) as (_ & _ & Hpos & Ho & _).
  pose proof (NoDup_lookup _ _ _ _ Hnd Ho Hs) as Heq.
  split; [simpl in *; lia|done].
Qed.

Lemma listing_matches_records_witness :
  forwardChain premisesMP (Var "Q") [] = Returned (runMP true) /\
  exists ls,
    buildStepsHtmlFromMap (runMP true) DirectDerivation false "" "" =
    Returned (Listing DirectDerivation ls) /\
    length ls = 3%nat.
Proof.
  assert (forwardChain_MP_found :
    forwardChain premisesMP (Var "Q") [] = Returned (runMP true))
    by (vm_compute; reflexivity).
  split; [exact forwardChain_MP_found|].
  destruct (listing_matches_records premisesMP (Var "Q") [] (runMP true)
              DirectDerivation false "" "" forwardChain_MP_found)
    as (ls & Hls & Hlen & _).
  exists ls. split; [exact Hls|exact Hlen].
Defined.

(* ================================================================== *)
(** * Further properties of the proof orchestrator *)

(** X16.  Soundness of the orchestrator: for premises and a goal whose
    variable names are tokens, a result with [derived] set means that the
    goal follows: it is true under every valuation, and evaluated to
    [true] under every assignment object, that satisfies the premises. *)
Theorem attemptDeduction_sound premises goalExpr d :
  forallb operandNames premises = true -> operandNames goalExpr = true ->
  attemptDeductionWithProof premises goalExpr = Returned d ->
  derived d = true ->
  (forall v, forallb (holds v) premises = true -> holds v goalExpr = true) /\
  (forall a : jsobj,
     forallb (fun p => evalExpr p a) premises = true ->
     evalExpr goalExpr a = true).
Proof.
  intros Ho Hg Hd Hder. split.
  - intros v. by apply (attemptDeduction_entails premises goalExpr d).
  - intros a Ha. rewrite evalExpr_holds.
    apply (attemptDeduction_entails premises goalExpr d); try done.
    rewrite <- Ha. apply forallb_ext_elem. intros p _. symmetry.
    apply evalExpr_holds.
Qed.

Lemma attemptDeduction_sound_witness :
  forallb operandNames premisesMP = true /\
  attemptDeductionWithProof premisesMP (Var "Q") =
    Returned (Deduction true (Some listingMP)) /\
  forall v, forallb (holds v) premisesMP = true -> holds v (Var "Q") = true.
Proof.
  assert (Hd : attemptDeductionWithProof premisesMP (Var "Q") =
               Returned (Deduction true (Some listingMP)))
    by (vm_compute; reflexivity).
  split; [reflexivity|]. split; [exact Hd|].
  apply (attemptDeduction_sound premisesMP (Var "Q")
           (Deduction true (Some listingMP)) eq_refl eq_refl Hd eq_refl).
Defined.

(** X17.  How [attemptDeductionWithProof] ends: it returns a result or
    lets the early-exit object of [forwardChain] through, and never raises
    a [TypeError].  The object gets through exactly when the goal is
    rendered like a premise, or when the direct run has not found the goal
    [A -> B] and [B] is rendered like a premise or like [A]. *)
Theorem attemptDeduction_outcome premises goalExpr :
  (attemptDeductionWithProof premises goalExpr = Thrown FoundSignal <->
   exprToStr goalExpr ∈ (exprToStr <$> premises) \/
   exists A B run,
     goalExpr = Imp A B /\
     forwardChain premises goalExpr [] = Returned run /\
     goalFound run = false /\
     exprToStr B ∈ (exprToStr <$> premises ++ [A])) /\
  attemptDeductionWithProof premises goalExpr <> Thrown TypeError /\
  attemptDeductionWithProof premises goalExpr <> Diverged.
Proof.
  pose proof (forwardChain_spec premises goalExpr [] passFuel (le_n _)) as Hs.
  rewrite app_nil_r in Hs.
  unfold attemptDeductionWithProof. fold (forwardChain premises goalExpr []) in Hs.
  destruct (forwardChain premises goalExpr []) as [run|e|] eqn:Hrun; [| |done].
  2:{ destruct Hs as [-> Hin]. simpl. split; [|done]. split; [auto|done]. }
  destruct Hs as (Hnot & Hwf & _). simpl.
  destruct (goalFound run) eqn:Hfound.
  { destruct (buildSteps_ok run DirectDerivation false "" "" Hwf)
      as (ls & -> & _).
    simpl. split; [|done]. split; [done|].
    intros [?|(A & B & run' & _ & [= <-] & ? & _)]; [done|congruence]. }
  destruct goalExpr as [| | | |A B];
    try (split; [|done]; split; [done|];
         intros [?|(A & B & run' & ? & _)]; done).
  pose proof (forwardChain_spec premises B [A] passFuel (le_n _)) as Hs2.
  fold (forwardChain premises B [A]) in Hs2.
  destruct (forwardChain premises B [A]) as [run2|e|] eqn:Hrun2; [| |done].
  - destruct Hs2 as (Hnot2 & Hwf2 & _). simpl.
    assert (Hret : exists d,
      (if goalFound run2
       then buildStepsHtmlFromMap run2 ImplicationIntro true (exprToStr A)
              (exprToStr B) ≫= (fun h => mret (Deduction true (Some h)))
       else mret (Deduction false None)) = Returned d).
    { destruct (goalFound run2); [|by eexists].
      destruct (buildSteps_ok run2 ImplicationIntro true (exprToStr A)
                  (exprToStr B) Hwf2) as (ls & -> & _). by eexists. }
    destruct Hret as [d ->]. split; [|done]. split; [done|].
    intros [?|(A' & B' & run' & [= <- <-] & _ & _ & Hin)]; done.
  - destruct Hs2 as [-> Hin]. simpl. split; [|done]. split; [|done].
    intros _. right. by exists A, B, run.
Qed.

(** The flag [valid] of the table stays set when a proof is found. *)
Lemma derived_valid premises goalExpr d :
  forallb operandNames premises = true -> operandNames goalExpr = true ->
  attemptDeductionWithProof premises goalExpr = Returned d ->
  derived d = true ->
  valid (solveTable premises goalExpr) = true.
Proof.
  intros Ho Hg Hd Hder.
  rewrite solveTable_spec. cbn [valid]. apply forallb_forall. intros m _.
  unfold premisesAt, conclusionAt.
  set (a := assignmentOf (varListOf premises goalExpr) m).
  destruct (forallb (fun p => evalExpr p a) premises) eqn:E; [|done]. simpl.
  rewrite evalExpr_holds.
  apply (attemptDeduction_entails premises goalExpr d); try done.
  rewrite <- E. apply forallb_ext_elem. intros p _. symmetry.
  apply evalExpr_holds.
Qed.

Lemma verdictOf_valid t : valid t = true -> verdictOf t <> Invalid.
Proof. unfold verdictOf. intros ->. by destruct (consistent t). Qed.

(** X18.  The proof search agrees with the truth table: when a derivation
    is found for premises and a goal whose variable names are tokens, the
    flag [valid] of the table is set and the verdict is not [Invalid],
    whatever the number of variables. *)
Theorem deduction_agrees_with_table premises goalExpr d :
  forallb operandNames premises = true -> operandNames goalExpr = true ->
  attemptDeductionWithProof premises goalExpr = Returned d ->
  derived d = true ->
  valid (solveTable premises goalExpr) = true /\
  solveVerdict premises goalExpr <> Invalid.
Proof.
  intros Ho Hg Hd Hder.
  pose proof (derived_valid premises goalExpr d Ho Hg Hd Hder) as Hv.
  split; [done|]. by apply verdictOf_valid.
Qed.

Lemma deduction_agrees_with_table_witness :
  forallb operandNames premisesMP = true /\
  attemptDeductionWithProof premisesMP (Var "Q") =
    Returned (Deduction true (Some listingMP)) /\
  valid (solveTable premisesMP (Var "Q")) = true.
Proof.
  assert (Hd : attemptDeductionWithProof premisesMP (Var "Q") =
               Returned (Deduction true (Some listingMP)))
    by (vm_compute; reflexivity).
  split; [reflexivity|]. split; [exact Hd|].
  apply (deduction_agrees_with_table premisesMP (Var "Q")
           (Deduction true (Some listingMP)) eq_refl eq_refl Hd eq_refl).
Defined.

(* ================================================================== *)
(** ** The end of a listing *)

Lemma last_snoc_inv {A} (l : list A) x :
  last l = Some x -> exists l', l = l' ++ [x].
Proof.
  intros H. destruct l as [|y l] using rev_ind; [done|].
  rewrite last_snoc in H. injection H as ->. eauto.
Qed.

(** The lines of a run that has found its goal end with the goal. *)
Lemma buildLines_goal_last premiseExprs goalExpr extraAssumptions run ls idx :
  forwardChain premiseExprs goalExpr extraAssumptions = Returned run ->
  goalFound run = true ->
  buildLines (runMap run) 1 (runOrder run) = Returned (ls, idx) ->
  idx = S (length ls) /\
  exists ls' why,
    ls = ls' ++ [Step (length ls) (exprToStr goalExpr) (Recorded why)].
Proof.
  intros Hrun Hfound Hb.
  pose proof (forwardChain_spec premiseExprs goalExpr extraAssumptions passFuel
                (le_n _)) as Hs.
  unfold forwardChain in Hrun. rewrite Hrun in Hs.
  destruct Hs as (_ & Hwf & _ & Hlast). specialize (Hlast Hfound).
  destruct (buildLines_ok (runMap run) (runOrder run) 1) as (ls0 & Hls & _).
  { intros s Hs. by apply (Hwf s). }
  rewrite Hls in Hb. injection Hb as -> <-.
  destruct (buildLines_lines _ _ _ _ _ Hls) as [Hlen Hl].
  split; [lia|].
  apply last_snoc_inv in Hlast as [o' Ho].
  assert (Hi : runOrder run !! length o' = Some (exprToStr goalExpr)).
  { rewrite Ho. by apply list_lookup_middle. }
  destruct (Hl _ _ Hi) as (ent & _ & Hline).
  assert (Hn : length ls = S (length o')).
  { rewrite Hlen, Ho, length_app. simpl. lia. }
  exists (take (length o') ls), (reason ent).
  rewrite <- (take_drop (length o') ls) at 1. f_equal.
  rewrite Hn. change (S (length o')) with (1 + length o')%nat.
  apply list_eq. intros [|i].
  - by rewrite lookup_drop, Nat.add_0_r.
  - rewrite lookup_drop. simpl. apply lookup_ge_None_2. lia.
Qed.

(** X27. A deduction that is returned with a listing is marked as derived, and
    the listing ends with the goal: a direct derivation ends with the line of
    the goal; a conditional proof of [A -> B] ends with the line of [B],
    followed by the line that discharges the assumption, numbered one more.
    Without a listing the deduction is marked as not derived. *)
Theorem attemptDeduction_listing premises goalExpr d :
  attemptDeductionWithProof premises goalExpr = Returned d ->
  match html d with
  | None => derived d = false
  | Some (Listing DirectDerivation ls) =>
      derived d = true /\
      exists ls' n why,
        ls = ls' ++ [Step n (exprToStr goalExpr) (Recorded why)]
  | Some (Listing ImplicationIntro ls) =>
      derived d = true /\
      exists A B ls' n why,
        goalExpr = Imp A B /\
        ls = ls' ++ [Step n (exprToStr B) (Recorded why);
                     Step (S n) (exprToStr A ++ " -> " ++ exprToStr B)
                       Discharge]
  end.
Proof.
  unfold attemptDeductionWithProof.
  destruct (forwardChain premises goalExpr []) as [run| |] eqn:Hrun; [|done..].
  simpl. destruct (goalFound run) eqn:Hfound.
  - unfold buildStepsHtmlFromMap.
    destruct (buildLines _ 1 _) as [[ls idx]| |] eqn:Hb; [|done..].
    simpl. intros [= <-]. simpl. split; [done|].
    destruct (buildLines_goal_last _ _ _ _ _ _ Hrun Hfound Hb)
      as (_ & ls' & why & ->).
    by eexists _, _, _.
  - destruct goalExpr as [| | | |A B]; try by intros [= <-].
    destruct (forwardChain premises B [A]) as [run2| |] eqn:Hrun2; [|done..].
    simpl. destruct (goalFound run2) eqn:Hfound2; [|by intros [= <-]].
    unfold buildStepsHtmlFromMap.
    destruct (buildLines _ 1 _) as [[ls idx]| |] eqn:Hb; [|done..].
    simpl. intros [= <-]. simpl. split; [done|].
    destruct (buildLines_goal_last _ _ _ _ _ _ Hrun2 Hfound2 Hb)
      as (-> & ls' & why & Hls).
    exists A, B, ls', (length ls), why. split; [done|].
    rewrite Hls at 1. by rewrite <- app_assoc.
Qed.

Lemma attemptDeduction_listing_witness :
  attemptDeductionWithProof premisesMP (Var "Q") =
    Returned (Deduction true (Some listingMP)) /\
  exists ls' n why,
    lines listingMP = ls' ++ [Step n "Q" (Recorded why)].
Proof.
  assert (Hd : attemptDeductionWithProof premisesMP (Var "Q") =
               Returned (Deduction true (Some listingMP)))
    by (vm_compute; reflexivity).
  split; [exact Hd|].
  exact (proj2 (attemptDeduction_listing premisesMP (Var "Q")
                  (Deduction true (Some listingMP)) Hd)).
Defined.

(** * Properties of the handler [solve] *)

Lemma unspaced_app (s1 s2 : string) :
  unspaced (s1 ++ s2) = (unspaced s1 ++ unspaced s2)%string.
Proof.
  induction s1 as [|c s1 IH]; simpl; [done|].
  destruct (isSpace c); simpl; by rewrite IH.
Qed.

Lemma trimEnd_nil (s : string) : trimEnd s = "" <-> unspaced s = "".
Proof.
  induction s as [|c s IH]; simpl; [done|].
  destruct (trimEnd s) eqn:E.
  - destruct (isSpace c); [|done]. by rewrite <- IH.
  - destruct (isSpace c); [|done]. rewrite <- IH. done.
Qed.

Lemma unspaced_trimStart (s : string) : unspaced (trimStart s) = unspaced s.
Proof.
  induction s as [|c s IH]; simpl; [done|].
  destruct (isSpace c) eqn:E; [done|]. simpl. by rewrite E.
Qed.

Lemma trim_nil (s : string) : trim s = "" <-> unspaced s = "".
Proof. unfold trim. by rewrite trimEnd_nil, unspaced_trimStart. Qed.

Lemma splitLinesFrom_blank (s : string) : forall cur,
  Forall (fun l => unspaced l = "") (splitLinesFrom cur s) <->
  unspaced cur = "" /\ unspaced s = "".
Proof.
  induction s as [|c s IH]; intros cur; simpl.
  - rewrite Forall_singleton. tauto.
  - destruct (Ascii.eqb_spec c "010") as [->|Hc].
    + rewrite Forall_cons, IH. simpl. tauto.
    + rewrite IH, unspaced_app. simpl. destruct (isSpace c).
      * by rewrite append_nil_r.
      * split; [|by intros [_ ?]]. intros [H _]. by destruct (unspaced cur).
Qed.

Lemma filter_nil_Forall {A} (P : A -> Prop) `{!forall x, Decision (P x)}
    (l : list A) :
  filter P l = [] <-> Forall (fun x => ~ P x) l.
Proof.
  induction l as [|x l IH]; [done|].
  rewrite Forall_cons, <- IH. destruct (decide (P x)).
  - rewrite filter_cons_True by done. split; [done|]. by intros [? _].
  - rewrite filter_cons_False by done. tauto.
Qed.

Lemma premisesRawOf_nil (value : string) :
  premisesRawOf value = [] <-> unspaced value = "".
Proof.
  unfold premisesRawOf, splitLines.
  rewrite filter_nil_Forall, Forall_fmap.
  assert (H : unspaced value = "" <->
              Forall (fun l => unspaced l = "") (splitLinesFrom "" value)).
  { rewrite splitLinesFrom_blank. simpl. tauto. }
  rewrite H. apply Forall_iff. intros l. simpl.
  rewrite <- trim_nil. destruct (trim l); simpl; split; intros; try done; lia.
Qed.

Lemma parseAll_hasFuel raws : hasFuel (parseAll raws).
Proof.
  induction raws as [|raw raws IH]; [done|]. simpl.
  apply hasFuel_bind.
  - unfold parseFromString. apply parseTokens_hasFuel.
  - intros e _. apply hasFuel_bind; [done|]. by intros es _.
Qed.

Lemma parseAll_operandNames raws es :
  parseAll raws = Ok es -> forallb operandNames es = true.
Proof.
  revert es. induction raws as [|raw raws IH]; intros es; simpl.
  - by intros [= <-].
  - unfold mbind, parsed_bind.
    destruct (parseFromString raw) as [e| |] eqn:E; [|done..].
    destruct (parseAll raws) as [es'| |]; [|done..].
    intros [= <-]. simpl. rewrite (parseFromString_operandNames raw e E).
    by apply IH.
Qed.

(** The model never runs out of budget. *)
Lemma solve_not_stuck premisesValue conclusionValue :
  solve premisesValue conclusionValue <> ParserStuck.
Proof.
  unfold solve. destruct (_ || _); [done|].
  pose proof (parseAll_hasFuel (premisesRawOf premisesValue)) as H1.
  destruct (parseAll _); [|done..].
  pose proof (parseTokens_hasFuel (tokenize (trim conclusionValue))) as H2.
  unfold parseFromString. by destruct (parseTokens _).
Qed.

(** X19.  [solve] asks for input exactly when a field is blank: the alert
    [Please provide premises and a conclusion.] is raised if and only if
    the premises field or the conclusion field holds nothing but
    whitespace (line breaks included). *)
Theorem solve_blank premisesValue conclusionValue :
  solve premisesValue conclusionValue =
    Alerted "Please provide premises and a conclusion." <->
  unspaced premisesValue = "" \/ unspaced conclusionValue = "".
Proof.
  unfold solve.
  rewrite <- premisesRawOf_nil, <- (trim_nil conclusionValue).
  destruct (premisesRawOf premisesValue) as [|raw raws] eqn:Ep.
  { simpl. tauto. }
  rewrite bool_decide_eq_false_2 by done. cbn [orb].
  destruct (String.eqb_spec (trim conclusionValue) "") as [->|Hc].
  { tauto. }
  split; [|by intros [?|?]].
  destruct (parseAll (raw :: raws)); [|by intros [=]..].
  by destruct (parseFromString _); intros [=].
Qed.

(** X20.  On the page, a proof is never shown below the verdict INVALID:
    whenever [solve] appends the listing of a derivation, the flag [valid]
    of its truth table is set and the verdict is not [Invalid]. *)
Theorem solve_proof_agrees premisesValue conclusionValue varList t cells v
    html :
  solve premisesValue conclusionValue =
    Rendered varList t cells v (Returned (ProofPanel html)) ->
  valid t = true /\ v <> Invalid.
Proof.
  unfold solve. destruct (_ || _); [done|].
  destruct (parseAll _) as [ps| |] eqn:Ep; [|done..].
  destruct (parseFromString (trim conclusionValue)) as [c| |] eqn:Ec; [|done..].
  intros [= _ <- _ <- Hp].
  destruct (attemptDeductionWithProof ps c) as [d| |] eqn:Hd; [|done..].
  simpl in Hp. injection Hp as Hp. unfold panelOf in Hp.
  destruct (derived d) eqn:Hder; [|by destruct (valid _)].
  assert (Hv : valid (solveTable ps c) = true).
  { apply (derived_valid ps c d); try done.
    - by apply (parseAll_operandNames _ _ Ep).
    - by apply (parseFromString_operandNames _ _ Ec). }
  split; [done|by apply verdictOf_valid].
Qed.

Lemma solve_proof_agrees_witness :
  solve ("P -> Q" ++ String "010" "P") "Q" =
    Rendered ["P"; "Q"] (solveTable premisesMP (Var "Q"))
      [["F"; "F"; "F"; "F"; "F"]; ["T"; "F"; "F"; "F"; "F"];
       ["F"; "T"; "F"; "F"; "T"]; ["T"; "T"; "T"; "T"; "T"]]
      Valid (Returned (ProofPanel (Some listingMP))) /\
  valid (solveTable premisesMP (Var "Q")) = true.
Proof.
  assert (Hs : solve ("P -> Q" ++ String "010" "P") "Q" =
               Rendered ["P"; "Q"] (solveTable premisesMP (Var "Q"))
                 [["F"; "F"; "F"; "F"; "F"]; ["T"; "F"; "F"; "F"; "F"];
                  ["F"; "T"; "F"; "F"; "T"]; ["T"; "T"; "T"; "T"; "T"]]
                 Valid (Returned (ProofPanel (Some listingMP))))
    by (vm_compute; reflexivity).
  split; [exact Hs|].
  apply (solve_proof_agrees _ _ _ _ _ _ _ Hs).
Defined.

(** ** The lines of the table *)

Lemma fmap_const_replicate {A B} (b : B) (l : list A) :
  (fun _ => b) <$> l = replicate (length l) b.
Proof.
  induction l as [|x l IH]; [done|]. rewrite fmap_cons. simpl. by f_equal.
Qed.

(** X25.  In the line written for a row of the truth table, the cells
    under the premises all show the same value: whether all the premises
    are true in that row.  The cells under the variables show the
    truthiness of the variables in the assignment of the row, and the
    last cell the value of the conclusion. *)
Theorem premise_columns premiseExprs conclusionExpr premisesRaw r :
  r ∈ truthTable (solveTable premiseExprs conclusionExpr) ->
  rowCells (varListOf premiseExprs conclusionExpr) premisesRaw r =
  ((fun v => cell (objGetTruthy (assignment r) v))
     <$> varListOf premiseExprs conclusionExpr) ++
  replicate (length premisesRaw)
    (cell (forallb (fun p => evalExpr p (assignment r)) premiseExprs)) ++
  [cell (evalExpr conclusionExpr (assignment r))].
Proof.
  rewrite solveTable_spec. cbn [truthTable].
  intros (m & -> & _)%list_elem_of_fmap. unfold rowCells.
  cbn [rowAt assignment premisesTrue conclusionTrue].
  by rewrite fmap_const_replicate.
Qed.

Lemma premise_columns_witness :
  truthTable (solveTable premisesMP (Var "Q")) !! 1%nat =
    Some (rowAt premisesMP (Var "Q") ["P"; "Q"] 1) /\
  rowCells (varListOf premisesMP (Var "Q")) ["P -> Q"; "P"]
    (rowAt premisesMP (Var "Q") ["P"; "Q"] 1) =
    ["T"; "F"; "F"; "F"; "F"].
Proof.
  assert (Hr : truthTable (solveTable premisesMP (Var "Q")) !! 1%nat =
               Some (rowAt premisesMP (Var "Q") ["P"; "Q"] 1))
    by (vm_compute; reflexivity).
  split; [exact Hr|].
  rewrite (premise_columns premisesMP (Var "Q") ["P -> Q"; "P"]
             (rowAt premisesMP (Var "Q") ["P"; "Q"] 1)
             (list_elem_of_lookup_2 _ _ _ Hr)).
  vm_compute. reflexivity.
Defined.
